(** * Collaboration layer of satisfactory-logistics: merge, sync engine,
      remote-update application and token-refresh scheduling.

    Shallow embedding of
      - src/collaboration/mergeGameState.ts   ([mergeGameState])
      - src/collaboration/syncManager.ts      ([syncGameToRemote], [triggerSync],
                                               [syncGameImmediately], [cancelPendingSync])
      - src/collaboration/useGameSubscription.ts ([handleRemoteUpdate], [handleRemoteDelete])
      - src/games/store/gameCollaborationActions.ts (the zustand actions)
      - src/auth/AuthSessionManager.tsx       ([scheduleTokenRefresh])

    JS objects used as dictionaries are [gmap string _], JS [Set]s of
    identifiers are [gset string], arrays are lists, optional fields are
    [option]s, integers (versions, millisecond clocks) are [Z]. *)

From stdpp Require Import gmap strings list fin_maps.
From Stdlib Require Import ZArith Lia.

Open Scope string_scope.
Open Scope list_scope.
Open Scope Z_scope.

(** ** Data model *)

(** A factory; only [id] is inspected by the code under study, the rest of
    the entity is carried along unchanged. *)
Record Factory := mkFactory {
  factory_id : string;
  factory_body : string;
}.

(** A solver instance; [solver.id] equals the id of the factory it solves. *)
Record SolverInstance := mkSolver {
  solver_id : string;
  solver_body : string;
}.

(** The game record, with the fields the code reads or writes. *)
Record Game := mkGame {
  game_id : string;
  game_name : string;
  factoriesIds : list string;
  savedId : option string;
  authorId : option string;
  shareToken : option string;
  createdAt : option string;
  version : option Z;
}.

Record SerializedGame := mkSerialized {
  game : Game;
  factories : list Factory;
  solvers : list SolverInstance;
}.

#[global] Instance Factory_eq_dec : EqDecision Factory.
Proof. solve_decision. Defined.
#[global] Instance SolverInstance_eq_dec : EqDecision SolverInstance.
Proof. solve_decision. Defined.
#[global] Instance Game_eq_dec : EqDecision Game.
Proof. solve_decision. Defined.
#[global] Instance SerializedGame_eq_dec : EqDecision SerializedGame.
Proof. solve_decision. Defined.

(** [{ ...g, factoriesIds: ids }] *)
Definition with_factoriesIds (g : Game) (ids : list string) : Game :=
  {| game_id := game_id g; game_name := game_name g; factoriesIds := ids;
     savedId := savedId g; authorId := authorId g; shareToken := shareToken g;
     createdAt := createdAt g; version := version g |}.

(** ** mergeGameState.ts *)

Definition mergeGameState (local remote : SerializedGame) : SerializedGame :=
  let remoteFactoryIds : gset string :=
    list_to_set (factory_id <$> factories remote) in
  let localOnlyFactories :=
    filter (λ f, factory_id f ∉ remoteFactoryIds) (factories local) in
  let localOnlyFactoryIds : gset string :=
    list_to_set (factory_id <$> localOnlyFactories) in
  let localOnlySolvers :=
    filter (λ s, solver_id s ∈ localOnlyFactoryIds) (solvers local) in
  let mergedFactories := factories remote ++ localOnlyFactories in
  let remoteSolverIds : gset string :=
    list_to_set (solver_id <$> solvers remote) in
  let mergedSolvers :=
    solvers remote
      ++ filter (λ s, solver_id s ∉ remoteSolverIds) localOnlySolvers in
  let mergedFactoryIds :=
    factoriesIds (game remote) ++ (factory_id <$> localOnlyFactories) in
  {| game := with_factoriesIds (game remote) mergedFactoryIds;
     factories := mergedFactories;
     solvers := mergedSolvers |}.

Definition getLocalOnlyFactoryIds (local remote : SerializedGame) : list string :=
  let remoteFactoryIds : gset string :=
    list_to_set (factory_id <$> factories remote) in
  factory_id <$> filter (λ f, factory_id f ∉ remoteFactoryIds) (factories local).

Definition hasLocalChanges (local remote : SerializedGame) : bool :=
  let remoteFactoryIds : gset string :=
    list_to_set (factory_id <$> factories remote) in
  let hasLocalOnlyFactories :=
    existsb (λ f, bool_decide (factory_id f ∉ remoteFactoryIds)) (factories local) in
  if hasLocalOnlyFactories then true
  else if bool_decide (length (factories local) ≠ length (factories remote)) then true
  else false.

(** A snapshot as the serializer produces it: the child-id list names the
    factories in order, no two factories and no two solvers share an id, and
    every solver belongs to a factory of the snapshot. *)
Definition wellFormed (x : SerializedGame) : Prop :=
  factoriesIds (game x) = (factory_id <$> factories x)
  ∧ NoDup (factory_id <$> factories x)
  ∧ NoDup (solver_id <$> solvers x)
  ∧ (∀ s, s ∈ solvers x → solver_id s ∈ (factory_id <$> factories x)).

Module MergeExamples.
Definition fA := mkFactory "A" "a-local".
Definition fB := mkFactory "B" "b-local".
Definition fB' := mkFactory "B" "b-remote".
Definition fC := mkFactory "C" "c-remote".
Definition sA := mkSolver "A" "solve-a".
Definition sB := mkSolver "B" "solve-b".
Definition gLocal :=
  mkGame "g1" "Local name" ["A"; "B"] (Some "r1") (Some "u1") None (Some "t0") (Some 5).
Definition gRemote :=
  mkGame "g1" "Remote name" ["B"; "C"] (Some "r1") (Some "u1") None (Some "t0") (Some 6).
Definition local := mkSerialized gLocal [fA; fB] [sA; sB].
Definition remote := mkSerialized gRemote [fB'; fC] [].
End MergeExamples.

(** ** Shared application state (the zustand store) *)

Record Session := mkSession {
  session_user_id : string;      (* session.user.id *)
  expires_at : option Z;         (* seconds since the epoch *)
}.

Record Store := mkStore {
  games_games : gmap string Game;                    (* state.games.games *)
  games_selected : option string;                    (* state.games.selected *)
  factories_factories : gmap string Factory;         (* state.factories.factories *)
  solvers_instances : gmap string SolverInstance;    (* state.solvers.instances *)
  auth_session : option Session;                     (* state.auth.session *)
  gameSave_isSaving : bool;                          (* state.gameSave.isSaving *)
}.

Definition set_games (m : gmap string Game) (st : Store) : Store :=
  mkStore m (games_selected st) (factories_factories st) (solvers_instances st)
          (auth_session st) (gameSave_isSaving st).
Definition set_selected (o : option string) (st : Store) : Store :=
  mkStore (games_games st) o (factories_factories st) (solvers_instances st)
          (auth_session st) (gameSave_isSaving st).
Definition set_factories (m : gmap string Factory) (st : Store) : Store :=
  mkStore (games_games st) (games_selected st) m (solvers_instances st)
          (auth_session st) (gameSave_isSaving st).
Definition set_instances (m : gmap string SolverInstance) (st : Store) : Store :=
  mkStore (games_games st) (games_selected st) (factories_factories st) m
          (auth_session st) (gameSave_isSaving st).
Definition set_isSaving (b : bool) (st : Store) : Store :=
  mkStore (games_games st) (games_selected st) (factories_factories st)
          (solvers_instances st) (auth_session st) b.

(** JS truthiness of an optional string: defined and not empty. *)
Definition truthy_str (o : option string) : bool :=
  match o with
  | Some s => bool_decide (s ≠ "")
  | None => false
  end.

(** JS truthiness of an optional number: defined and not zero. *)
Definition truthy_num (o : option Z) : bool :=
  match o with
  | Some n => bool_decide (n ≠ 0)
  | None => false
  end.

(** ** The logger (loglevel): entries are appended to a list *)

Inductive Level := Debug | Info | Warn | Error.

Inductive LogVal := LStr (s : string) | LNum (n : Z).

Record LogEntry := mkLog {
  log_channel : string;
  log_level : Level;
  log_msg : string;
  log_ctx : list (string * LogVal);
}.

(** ** gameCollaborationActions.ts: the store part of each action *)

Definition with_version (g : Game) (v : Z) : Game :=
  {| game_id := game_id g; game_name := game_name g; factoriesIds := factoriesIds g;
     savedId := savedId g; authorId := authorId g; shareToken := shareToken g;
     createdAt := createdAt g; version := Some v |}.

Definition setGameVersion_store (gameId : string) (v : Z) (st : Store) : Store :=
  match games_games st !! gameId with
  | Some g => set_games (<[gameId := with_version g v]> (games_games st)) st
  | None => st
  end.

Definition setSyncingState_store (gameId : string) (isSyncing : bool) (st : Store) : Store :=
  if isSyncing then set_isSaving true st else set_isSaving false st.

(** [delete state.factories.factories[id]; delete state.solvers.instances[id]] *)
Definition delete_child (factoryId : string) (st : Store) : Store :=
  set_instances (delete factoryId (solvers_instances st))
    (set_factories (delete factoryId (factories_factories st)) st).

(** The first loop of [applyRemoteGameUpdate]. *)
Definition clearOldFactories (mergedFactoryIds : gset string)
    (ids : list string) (st : Store) : Store :=
  foldl (λ st factoryId,
           if decide (factoryId ∈ mergedFactoryIds) then st
           else delete_child factoryId st) st ids.

(** [{ ...localGame, ...merged.game, savedId: localGame.savedId, authorId:
    localGame.authorId, shareToken: localGame.shareToken, createdAt:
    localGame.createdAt, version }]: the three remaining fields are always
    present in [merged.game], so the second spread decides them. *)
Definition appliedGame (localGame mergedGame : Game) (v : Z) : Game :=
  {| game_id := game_id mergedGame;
     game_name := game_name mergedGame;
     factoriesIds := factoriesIds mergedGame;
     savedId := savedId localGame;
     authorId := authorId localGame;
     shareToken := shareToken localGame;
     createdAt := createdAt localGame;
     version := Some v |}.

Definition applyFactories (fs : list Factory) (st : Store) : Store :=
  foldl (λ st f, set_factories (<[factory_id f := f]> (factories_factories st)) st) st fs.

Definition applySolvers (ss : list SolverInstance) (st : Store) : Store :=
  foldl (λ st s, set_instances (<[solver_id s := s]> (solvers_instances st)) st) st ss.

Definition applyRemoteGameUpdate_store (gameId : string) (merged : SerializedGame)
    (v : Z) (st : Store) : Store :=
  match games_games st !! gameId with
  | None => st
  | Some localGame =>
      let mergedFactoryIds : gset string :=
        list_to_set (factory_id <$> factories merged) in
      let st1 := clearOldFactories mergedFactoryIds (factoriesIds localGame) st in
      let st2 :=
        set_games (<[gameId := appliedGame localGame (game merged) v]> (games_games st1)) st1 in
      let st3 := applyFactories (factories merged) st2 in
      applySolvers (solvers merged) st3
  end.

(** Modelled from the spec: [removeGame] lives in gameFactoriesActions.ts,
    which is not among the sources.  Section 4.2: "remove the Aggregate (and
    implicitly its children) from local state": the game entry goes, and so
    do the factory and solver entries of every identifier in its child list. *)
Definition removeGame (gameId : string) (st : Store) : Store :=
  match games_games st !! gameId with
  | None => st
  | Some g =>
      let st1 := foldl (λ st factoryId, delete_child factoryId st) st (factoriesIds g) in
      set_games (delete gameId (games_games st1)) st1
  end.

(** ** The process: store, clock, debounce state, network, logger *)

Inductive PushKind := Debounced | Immediate.

(** The [update({ data, version, name }).eq('id', savedId)] request. *)
Record PushRequest := mkPush {
  push_savedId : string;
  push_data : SerializedGame;
  push_version : Z;
  push_name : string;
}.

(** What the awaited request yields: [{ error }], [{ data: { version } }],
    or a rejection caught by the [catch] block. *)
Inductive PushResponse :=
| RespError (message : string)
| RespData (v : Z)
| RespThrown (err : string).

(** [pendingSync] is the state of the one lodash [debounce] wrapper around
    [syncGameToRemote] (default options: trailing edge only): [None] when no
    timer runs, [Some (deadline, gameId)] when an invocation is due at
    [deadline] with [gameId] as the remembered last argument.  A call sets
    it to [now + wait] with the new argument, [cancel] clears it.
    [inflight] holds the pushes suspended at their [await], [pushes] the
    requests issued so far, oldest first. *)
Record World := mkWorld {
  store : Store;
  now : Z;
  pendingSync : option (Z * string);
  inflight : list (PushKind * string);
  pushes : list PushRequest;
  log : list LogEntry;
}.

Definition modStore (f : Store → Store) (w : World) : World :=
  mkWorld (f (store w)) (now w) (pendingSync w) (inflight w) (pushes w) (log w).
Definition set_now (t : Z) (w : World) : World :=
  mkWorld (store w) t (pendingSync w) (inflight w) (pushes w) (log w).
Definition set_pending (p : option (Z * string)) (w : World) : World :=
  mkWorld (store w) (now w) p (inflight w) (pushes w) (log w).
Definition set_inflight (l : list (PushKind * string)) (w : World) : World :=
  mkWorld (store w) (now w) (pendingSync w) l (pushes w) (log w).
Definition logw (e : LogEntry) (w : World) : World :=
  mkWorld (store w) (now w) (pendingSync w) (inflight w) (pushes w) (log w ++ [e]).
Definition send (kind : PushKind) (gameId : string) (r : PushRequest) (w : World) : World :=
  mkWorld (store w) (now w) (pendingSync w) (inflight w ++ [(kind, gameId)])
          (pushes w ++ [r]) (log w).

(** Statements in sequence. *)
Notation "f >>> g" := (λ w, g (f w)) (at level 61, left associativity, only parsing).

(** *** gameCollaborationActions.ts, as called through [useStore.getState()] *)

Definition gamesLog := "games:collaboration".
Definition syncLog := "collaboration:sync".
Definition subscriptionLog := "collaboration:subscription".

Definition setGameVersion (gameId : string) (v : Z) : World → World :=
  modStore (setGameVersion_store gameId v).

Definition setSyncingState (gameId : string) (isSyncing : bool) : World → World :=
  modStore (setSyncingState_store gameId isSyncing).

(** "For now, we'll just log errors": the store is not touched. *)
Definition setSyncError (gameId : string) (error : option string) (w : World) : World :=
  match error with
  | Some e =>
      if truthy_str (Some e)
      then logw (mkLog gamesLog Error "Sync error for game"
                   [("gameId", LStr gameId); ("error", LStr e)]) w
      else w
  | None => w
  end.

Definition applyRemoteGameUpdate (gameId : string) (merged : SerializedGame)
    (v : Z) (w : World) : World :=
  match games_games (store w) !! gameId with
  | None =>
      logw (mkLog gamesLog Warn "Cannot apply remote update: game not found"
              [("gameId", LStr gameId)]) w
  | Some _ =>
      (logw (mkLog gamesLog Info "Applying remote game update"
               [("gameId", LStr gameId); ("version", LNum v);
                ("factoryCount", LNum (Z.of_nat (length (factories merged))))])
       >>> modStore (applyRemoteGameUpdate_store gameId merged v)) w
  end.

(** [game?.savedId] read as a condition: the game exists and its [savedId]
    is a non-empty string. *)
Definition savedGame (st : Store) (gameId : string) : option (Game * string) :=
  g ← games_games st !! gameId;
  sid ← savedId g;
  if bool_decide (sid ≠ "") then Some (g, sid) else None.

Definition SYNC_DEBOUNCE_MS : Z := 1000.

(** The debounced wrapper: calling it (re)starts the single timer and
    remembers the argument; [cancel] drops both. *)
Definition syncGameToRemote (gameId : string) (w : World) : World :=
  set_pending (Some (now w + SYNC_DEBOUNCE_MS, gameId)) w.

Definition cancelPendingSync (w : World) : World := set_pending None w.

Definition triggerSync (gameId : option string) (w : World) : World :=
  let targetGameId :=
    match gameId with
    | Some g => Some g
    | None => games_selected (store w)
    end in
  if truthy_str targetGameId then
    match targetGameId with
    | Some t =>
        match savedGame (store w) t with
        | Some _ => syncGameToRemote t w
        | None => w
        end
    | None => w
    end
  else w.

(** The row carried by a realtime notification. *)
Record RemoteGameRow := mkRow {
  row_id : string;
  row_data : SerializedGame;
  row_version : Z;
  row_author_id : string;
  row_updated_at : string;
}.

(** What the event loop can deliver to the engine. *)
Inductive Event :=
| EvTriggerSync (gameId : option string)
| EvAdvance (t : Z)
| EvCancelPendingSync
| EvSyncImmediately (gameId : string)
| EvPushResponse (n : nat) (r : PushResponse)
| EvRemoteUpdate (gameId : string) (remote : RemoteGameRow)
| EvRemoteDelete (gameId : string).

Section SyncEngine.

(** [serializeGame] of gameFactoriesActions.ts, which is not among the
    sources: the engine is defined for any serializer reading the store.
    The serializer is total here, so the [catch] blocks are entered only by
    a rejected request ([RespThrown]). *)
Variable serializeGame : Store → string → SerializedGame.

(** The wrapped function, up to its [await]. *)
Definition syncGameToRemote_invoke (gameId : string) (w : World) : World :=
  let state := store w in
  match savedGame state gameId with
  | None =>
      logw (mkLog syncLog Debug "Game not saved to remote yet, skipping sync"
              [("gameId", LStr gameId)]) w
  | Some (game, sid) =>
      match auth_session state with
      | None => logw (mkLog syncLog Debug "No session, skipping sync" []) w
      | Some _ =>
          let w1 := setSyncingState gameId true w in
          let serialized := serializeGame (store w1) gameId in
          let currentVersion := default 1 (version game) in
          (logw (mkLog syncLog Info "Syncing game to remote"
                   [("gameId", LStr gameId); ("savedId", LStr sid);
                    ("currentVersion", LNum currentVersion)])
           >>> send Debounced gameId
                 (mkPush sid serialized (currentVersion + 1) (game_name game))) w1
      end
  end.

(** The wrapped function, from its [await] on. *)
Definition syncGameToRemote_resume (gameId : string) (r : PushResponse)
    (w : World) : World :=
  let w' :=
    match r with
    | RespError message =>
        (logw (mkLog syncLog Error "Sync failed" [("error", LStr message)])
         >>> setSyncError gameId (Some message)) w
    | RespData v =>
        (logw (mkLog syncLog Info "Sync successful" [("newVersion", LNum v)])
         >>> setGameVersion gameId v
         >>> setSyncError gameId None) w
    | RespThrown err =>
        (logw (mkLog syncLog Error "Sync error" [("error", LStr err)])
         >>> setSyncError gameId (Some err)) w
    end in
  setSyncingState gameId false w'.

(** [syncGameImmediately], up to its [await]; [Some false] is the early
    [return false], [None] means the call is suspended on the request. *)
Definition syncGameImmediately_start (gameId : string) (w : World)
    : World * option bool :=
  let w0 := cancelPendingSync w in
  let state := store w0 in
  match savedGame state gameId with
  | None => (w0, Some false)
  | Some (game, sid) =>
      match auth_session state with
      | None => (w0, Some false)
      | Some _ =>
          let w1 := setSyncingState gameId true w0 in
          let serialized := serializeGame (store w1) gameId in
          let currentVersion := default 1 (version game) in
          (send Immediate gameId
             (mkPush sid serialized (currentVersion + 1) (game_name game)) w1,
           None)
      end
  end.

Definition syncGameImmediately_resume (gameId : string) (r : PushResponse)
    (w : World) : World * bool :=
  let '(w', result) :=
    match r with
    | RespError message => (setSyncError gameId (Some message) w, false)
    | RespData v => ((setGameVersion gameId v >>> setSyncError gameId None) w, true)
    | RespThrown err => (setSyncError gameId (Some err) w, false)
    end in
  (setSyncingState gameId false w', result).

(** The clock reaches [t]: a due debounce timer fires first. *)
Definition advance (t : Z) (w : World) : World :=
  let w' :=
    match pendingSync w with
    | Some (deadline, gameId) =>
        if bool_decide (deadline ≤ t)
        then syncGameToRemote_invoke gameId (set_pending None w)
        else w
    | None => w
    end in
  set_now (Z.max (now w) t) w'.

(** *** useGameSubscription.ts *)

Definition handleRemoteUpdate (gameId : string) (remote : RemoteGameRow)
    (w : World) : World :=
  let state := store w in
  match games_games state !! gameId with
  | None =>
      logw (mkLog subscriptionLog Warn "Received update for unknown game"
              [("gameId", LStr gameId)]) w
  | Some localGame =>
      let localVersion := default 1 (version localGame) in
      let remoteVersion := row_version remote in
      let w1 :=
        logw (mkLog subscriptionLog Info "Received remote update"
                [("gameId", LStr gameId); ("localVersion", LNum localVersion);
                 ("remoteVersion", LNum remoteVersion)]) w in
      if bool_decide (remoteVersion ≤ localVersion) then
        logw (mkLog subscriptionLog Debug
                "Ignoring update, local version is same or newer" []) w1
      else
        let w2 := cancelPendingSync w1 in
        let localSerialized := serializeGame (store w2) gameId in
        let remoteSerialized := row_data remote in
        let merged := mergeGameState localSerialized remoteSerialized in
        (applyRemoteGameUpdate gameId merged remoteVersion
         >>> logw (mkLog subscriptionLog Info "Applied remote update"
                     [("gameId", LStr gameId); ("newVersion", LNum remoteVersion)])) w2
  end.

Definition handleRemoteDelete (gameId : string) (w : World) : World :=
  let w1 :=
    logw (mkLog subscriptionLog Warn "Game was deleted remotely"
            [("gameId", LStr gameId)]) w in
  let state := store w1 in
  match games_games state !! gameId with
  | Some game =>
      match auth_session state with
      | Some session =>
          if bool_decide (authorId game ≠ Some (session_user_id session))
          then modStore (removeGame gameId) w1
          else w1
      | None => w1
      end
  | None => w1
  end.

(** *** The event loop: one callback at a time *)

Definition step (w : World) (e : Event) : World :=
  match e with
  | EvTriggerSync gameId => triggerSync gameId w
  | EvAdvance t => advance t w
  | EvCancelPendingSync => cancelPendingSync w
  | EvSyncImmediately gameId => fst (syncGameImmediately_start gameId w)
  | EvPushResponse n r =>
      match inflight w !! n with
      | Some (Debounced, gameId) =>
          syncGameToRemote_resume gameId r (set_inflight (delete n (inflight w)) w)
      | Some (Immediate, gameId) =>
          fst (syncGameImmediately_resume gameId r
                 (set_inflight (delete n (inflight w)) w))
      | None => w
      end
  | EvRemoteUpdate gameId remote => handleRemoteUpdate gameId remote w
  | EvRemoteDelete gameId => handleRemoteDelete gameId w
  end.

Definition run (w : World) (es : list Event) : World := foldl step w es.

End SyncEngine.

(** Modelled from the spec: [serializeGame] lives in gameFactoriesActions.ts,
    which is not among the sources.  Section 3: a Snapshot is "one Aggregate
    plus all its current child entities, produced on demand from shared local
    state".  The engine above takes the serializer as a parameter; this
    instance is used to run it on concrete stores.  Both callers look the
    game up before serializing, so the branch for a missing game (an empty
    snapshot) is never taken by them. *)
Definition serializeGame (st : Store) (gameId : string) : SerializedGame :=
  match games_games st !! gameId with
  | None => mkSerialized (mkGame gameId "" [] None None None None None) [] []
  | Some g =>
      {| game := g;
         factories := omap (λ id, factories_factories st !! id) (factoriesIds g);
         solvers := omap (λ id, solvers_instances st !! id) (factoriesIds g) |}
  end.

(** ** AuthSessionManager.tsx: proactive token refresh *)

Definition authLogger := "auth".

Definition REFRESH_MARGIN_MS : Z := 5 * 60 * 1000.

Inductive AuthChangeEvent := SIGNED_IN | SIGNED_OUT | TOKEN_REFRESHED | OTHER_CHANGE.

#[global] Instance AuthChangeEvent_eq_dec : EqDecision AuthChangeEvent.
Proof. solve_decision. Defined.

(** The component and the timer facility it uses.  [timers] maps the
    identifier of every timeout that is set and has neither fired nor been
    cleared to the time (ms) at which it is due; [setTimeout] hands out
    [nextTimer].  [refreshing] counts refresh callbacks suspended at
    [await refreshSession()].  Times are exact integers: [clock] is
    [Date.now()], and [(expiresAt - now) * 1000] is computed without the
    rounding of JS doubles. *)
Record AuthManager := mkAuth {
  clock : Z;
  timers : gmap positive Z;
  nextTimer : positive;
  refreshTimeoutRef : option positive;
  refreshing : nat;
  observedSession : option Session;
  authLog : list LogEntry;
}.

Definition clearTimeout (id : positive) (a : AuthManager) : AuthManager :=
  mkAuth (clock a) (delete id (timers a)) (nextTimer a) (refreshTimeoutRef a)
         (refreshing a) (observedSession a) (authLog a).

Definition setTimeout (delay : Z) (a : AuthManager) : positive * AuthManager :=
  (nextTimer a,
   mkAuth (clock a) (<[nextTimer a := clock a + delay]> (timers a))
          (Pos.succ (nextTimer a)) (refreshTimeoutRef a)
          (refreshing a) (observedSession a) (authLog a)).

Definition set_ref (r : option positive) (a : AuthManager) : AuthManager :=
  mkAuth (clock a) (timers a) (nextTimer a) r
         (refreshing a) (observedSession a) (authLog a).

Definition setSession (s : option Session) (a : AuthManager) : AuthManager :=
  mkAuth (clock a) (timers a) (nextTimer a) (refreshTimeoutRef a)
         (refreshing a) s (authLog a).

Definition authLogw (e : LogEntry) (a : AuthManager) : AuthManager :=
  mkAuth (clock a) (timers a) (nextTimer a) (refreshTimeoutRef a)
         (refreshing a) (observedSession a) (authLog a ++ [e]).

(** [if (refreshTimeoutRef.current) clearTimeout(refreshTimeoutRef.current)] *)
Definition clearRefreshTimeout (a : AuthManager) : AuthManager :=
  match refreshTimeoutRef a with
  | Some id => clearTimeout id a
  | None => a
  end.

(** [Math.max(timeUntilExpiry - REFRESH_MARGIN_MS, 0)], in ms. *)
Definition refreshDelay (expiresAt nowMs : Z) : Z :=
  let timeUntilExpiry := expiresAt * 1000 - nowMs in
  Z.max (timeUntilExpiry - REFRESH_MARGIN_MS) 0.

(** The [useCallback] body.  The logged template string (minutes, rounded)
    is kept as a fixed message with the two durations in ms. *)
Definition scheduleTokenRefresh (expiresAt : Z) (a : AuthManager) : AuthManager :=
  let a1 := clearRefreshTimeout a in
  let timeUntilExpiry := expiresAt * 1000 - clock a1 in
  let refreshIn := refreshDelay expiresAt (clock a1) in
  let a2 :=
    authLogw (mkLog authLogger Info "Token expires; scheduling refresh"
                [("timeUntilExpiry", LNum timeUntilExpiry);
                 ("refreshIn", LNum refreshIn)]) a1 in
  let '(id, a3) := setTimeout refreshIn a2 in
  set_ref (Some id) a3.

(** [if (session?.expires_at) scheduleTokenRefresh(session.expires_at)] *)
Definition scheduleIfExpiryKnown (s : option Session) (a : AuthManager) : AuthManager :=
  match s with
  | Some session =>
      match expires_at session with
      | Some e => if truthy_num (Some e) then scheduleTokenRefresh e a else a
      | None => a
      end
  | None => a
  end.

(** The timeout callback up to [await refreshSession()]. *)
Definition refreshCallback_start (a : AuthManager) : AuthManager :=
  let a1 := authLogw (mkLog authLogger Info "Proactively refreshing token..." []) a in
  mkAuth (clock a1) (timers a1) (nextTimer a1) (refreshTimeoutRef a1)
         (S (refreshing a1)) (observedSession a1) (authLog a1).

(** The timeout callback after [await refreshSession()]. *)
Definition refreshCallback_resume (newSession : option Session) (a : AuthManager)
    : AuthManager :=
  match newSession with
  | Some session =>
      let a1 := authLogw (mkLog authLogger Info "Token refreshed successfully" []) a in
      let a2 := setSession (Some session) a1 in
      scheduleIfExpiryKnown (Some session) a2
  | None =>
      authLogw (mkLog authLogger Warn
                  "Failed to refresh token, user may need to re-login" []) a
  end.

(** The [getSession().then(...)] handler of the effect. *)
Definition onGetSession (s : option Session) (a : AuthManager) : AuthManager :=
  scheduleIfExpiryKnown s (setSession s a).

(** The [onAuthStateChange] handler. *)
Definition onAuthStateChange (event : AuthChangeEvent) (s : option Session)
    (a : AuthManager) : AuthManager :=
  let a1 := authLogw (mkLog authLogger Info "Auth state changed:" []) a in
  let a2 :=
    if decide (event = TOKEN_REFRESHED)
    then authLogw (mkLog authLogger Info "Token was refreshed" []) a1 else a1 in
  let a3 := if decide (event = SIGNED_OUT) then clearRefreshTimeout a2 else a2 in
  let a4 := setSession s a3 in
  if decide (event = SIGNED_IN ∨ event = TOKEN_REFRESHED)
  then scheduleIfExpiryKnown s a4 else a4.

(** The effect's cleanup. *)
Definition onUnmount (a : AuthManager) : AuthManager := clearRefreshTimeout a.

(** The clock reaches [t]: every timeout due by then fires, which starts its
    callback and removes it from the set of outstanding timeouts. *)
Definition fireDue (t : Z) (a : AuthManager) : AuthManager :=
  let due := filter (λ kv : positive * Z, kv.2 ≤ t) (timers a) in
  let rest := filter (λ kv : positive * Z, ¬ kv.2 ≤ t) (timers a) in
  let a1 :=
    mkAuth (Z.max (clock a) t) rest (nextTimer a) (refreshTimeoutRef a)
           (refreshing a) (observedSession a) (authLog a) in
  Nat.iter (size due) refreshCallback_start a1.

Inductive AuthInput :=
| InGetSession (s : option Session)
| InAuthStateChange (event : AuthChangeEvent) (s : option Session)
| InClock (t : Z)
| InRefreshResult (newSession : option Session)
| InUnmount.

Definition auth_step (a : AuthManager) (i : AuthInput) : AuthManager :=
  match i with
  | InGetSession s => onGetSession s a
  | InAuthStateChange event s => onAuthStateChange event s a
  | InClock t => fireDue t a
  | InRefreshResult newSession =>
      match refreshing a with
      | O => a
      | S n =>
          refreshCallback_resume newSession
            (mkAuth (clock a) (timers a) (nextTimer a) (refreshTimeoutRef a)
                    n (observedSession a) (authLog a))
      end
  | InUnmount => onUnmount a
  end.

Definition auth_run (a : AuthManager) (inputs : list AuthInput) : AuthManager :=
  foldl auth_step a inputs.

(** The component right after mounting at time [t0]. *)
Definition auth_init (t0 : Z) : AuthManager :=
  mkAuth t0 ∅ 1%positive None 0 None [].

(** ** Observations and scenarios used in the statements below *)

(** The requests sent so far for the row [sid]. *)
Definition pushesFor (sid : string) (w : World) : list PushRequest :=
  filter (λ r, push_savedId r = sid) (pushes w).

(** How many inbound merges have been applied, read off the subscription
    log ("Applied remote update" closes every applied merge). *)
Definition mergesApplied (w : World) : nat :=
  length (filter (λ e, log_msg e = "Applied remote update") (log w)).

(** [localGame.version ?? 1] for the game stored under [gameId]. *)
Definition localVersion (st : Store) (gameId : string) : Z :=
  default 1 (games_games st !! gameId ≫= version).

(** The versions carried by the notifications addressed to [gameId]. *)
Definition deliveredVersions (gameId : string)
    (rows : list (string * RemoteGameRow)) : list Z :=
  (λ p, row_version p.2) <$> filter (λ p, p.1 = gameId) rows.

(** The world with other log contents. *)
Definition set_log (l : list LogEntry) (w : World) : World :=
  mkWorld (store w) (now w) (pendingSync w) (inflight w) (pushes w) l.

(** A burst of [triggerSync] calls: the clock reaches [t], then the call for
    [g] is made, for each [(t, g)] in turn. *)
Fixpoint burstEvents (calls : list (Z * string)) : list Event :=
  match calls with
  | [] => []
  | (t, g) :: rest => EvAdvance t :: EvTriggerSync (Some g) :: burstEvents rest
  end.

(** Every call of the burst falls inside the quiet window opened by the one
    before it: starting at time [n] with a timer due at [d] (if any), each
    call comes no earlier than the previous one and before the timer is due. *)
Fixpoint withinWindow (n : Z) (d : option Z) (calls : list (Z * string)) : Prop :=
  match calls with
  | [] => True
  | (t, g) :: rest =>
      n ≤ t
      ∧ match d with Some due => t < due | None => True end
      ∧ withinWindow t (Some (t + SYNC_DEBOUNCE_MS)) rest
  end.

Module Scenario.
Definition fa1 := mkFactory "fa1" "smelter".
Definition fa2 := mkFactory "fa2" "assembler".
Definition sa1 := mkSolver "fa1" "plan-1".
Definition sa2 := mkSolver "fa2" "plan-2".
Definition gameA :=
  mkGame "A" "Alpha" ["fa1"; "fa2"] (Some "rA") (Some "owner") (Some "tok")
         (Some "2024-01-01") (Some 5).
Definition gameB :=
  mkGame "B" "Beta" [] (Some "rB") (Some "me") None (Some "2024-02-02") None.
Definition me := mkSession "me" (Some 3600).
Definition st0 : Store :=
  mkStore {[ "A" := gameA; "B" := gameB ]} (Some "A")
          {[ "fa1" := fa1; "fa2" := fa2 ]} {[ "fa1" := sa1; "fa2" := sa2 ]}
          (Some me) false.
Definition w0 : World := mkWorld st0 0 None [] [] [].

(** A remote row for game A: fa1 edited remotely, fa2 gone, fa3 new. *)
Definition fa1' := mkFactory "fa1" "smelter v2".
Definition fa3 := mkFactory "fa3" "refinery".
Definition remoteGameA :=
  mkGame "A" "Alpha (renamed)" ["fa1"; "fa3"] (Some "rX") (Some "someone")
         None (Some "1999-09-09") (Some 6).
Definition remoteData := mkSerialized remoteGameA [fa1'; fa3] [sa1].
Definition rowA (v : Z) := mkRow "rA" remoteData v "owner" "2024-03-03".

(** An edit of game A at time 0 has scheduled a push, due at 1000. *)
Definition wPending : World := triggerSync (Some "A") w0.

(** The same store with nobody signed in. *)
Definition stSignedOut : Store :=
  mkStore (games_games st0) (games_selected st0) (factories_factories st0)
          (solvers_instances st0) None false.
Definition wSignedOut : World := mkWorld stSignedOut 0 None [] [] [].
End Scenario.

(** ** loadRemoteGamesList.ts *)

(** A row of the games table as selected by the list query. *)
Record RemoteLoadedGame := mkRemoteLoaded {
  rg_id : string;
  rg_name : option string;
  rg_author_id : string;
  rg_data : option SerializedGame;
  rg_created_at : option string;
  rg_updated_at : option string;
  rg_share_token : option string;
  rg_version : Z;
}.

(** The [{ data, error }] pair a query resolves to; [error] holds the
    message. *)
Record Response (A : Type) := mkResponse {
  resp_data : option A;
  resp_error : option string;
}.
Arguments mkResponse {A} _ _.
Arguments resp_data {A} _.
Arguments resp_error {A} _.

(** A JS [Map] with string keys, in insertion order.  [set] on a key that
    is present replaces the value where it stands; on a new key it appends. *)
Fixpoint jsMapSet {V : Type} (k : string) (v : V) (m : list (string * V))
    : list (string * V) :=
  match m with
  | [] => [(k, v)]
  | (k', v') :: rest =>
      if decide (k' = k) then (k', v) :: rest else (k', v') :: jsMapSet k v rest
  end.

(** [Array.from(map.values())] *)
Definition jsMapValues {V : Type} (m : list (string * V)) : list V := snd <$> m.

(** The "combine and deduplicate" block: one [set] per game of
    [[...owned, ...shared]], then the values. *)
Definition combineGames (owned shared : list RemoteLoadedGame) : list RemoteLoadedGame :=
  jsMapValues (foldl (λ m g, jsMapSet (rg_id g) g m) [] (owned ++ shared)).

(** What a run of [loadRemoteGamesList] does to the outside, in order. *)
Inductive LoadEffect :=
| LConsoleLog (msg : string)
| LConsoleError (msg : string)
| LSetIsLoading (b : bool)
| LSelectOwnedGames (author_id : string)
| LSelectSharedGameIds (user_id : string)
| LSelectGamesByIds (ids : list string)
| LSetRemoteGames (games : list RemoteLoadedGame)
| LNotifyError (title message : string).

(** The [try] block: the effects, and the thrown error if any. *)
Definition loadRemoteGamesList_try (userId : string)
    (owned : Response (list RemoteLoadedGame))
    (sharedIds : Response (list string))
    (sharedGames : list string → Response (list RemoteLoadedGame))
    : list LoadEffect * option string :=
  let e1 := [LSelectOwnedGames userId] in
  match resp_error owned with
  | Some ownedError => (e1, Some ownedError)
  | None =>
      let e2 := e1 ++ [LSelectSharedGameIds userId] in
      match resp_error sharedIds with
      | Some sharedIdsError => (e2, Some sharedIdsError)
      | None =>
          let finish (e : list LoadEffect) (shared : list RemoteLoadedGame) :=
            let allGames := combineGames (default [] (resp_data owned)) shared in
            (e ++ [LConsoleLog "Loaded games:"; LSetRemoteGames allGames], None) in
          match resp_data sharedIds with
          | Some (id :: ids) =>
              let e3 := e2 ++ [LSelectGamesByIds (id :: ids)] in
              let r := sharedGames (id :: ids) in
              match resp_error r with
              | Some sharedGamesError => (e3, Some sharedGamesError)
              | None => finish e3 (default [] (resp_data r))
              end
          | _ => finish e2 []
          end
      end
  end.

Definition loadRemoteGamesList (session : option Session)
    (owned : Response (list RemoteLoadedGame))
    (sharedIds : Response (list string))
    (sharedGames : list string → Response (list RemoteLoadedGame))
    : list LoadEffect :=
  match session with
  | None => [LConsoleLog "No session, skipping load"]
  | Some s =>
      let '(body, thrown) :=
        loadRemoteGamesList_try (session_user_id s) owned sharedIds sharedGames in
      [LSetIsLoading true] ++ body
      ++ match thrown with
         | Some message =>
             [LConsoleError "Error loading games:";
              LNotifyError "Error loading games" message]
         | None => []
         end
      ++ [LSetIsLoading false]
  end.

(** ** saveRemoteGame.ts *)

(** The double-quote character, as a string. *)
Definition dquote : string := String (Ascii.ascii_of_nat 34) EmptyString.

(** The user returned by [auth.getUser()], with the metadata read here. *)
Record AuthUser := mkAuthUser {
  meta_global_name : option string;
  meta_name : option string;
  meta_full_name : option string;
  user_email : option string;
  meta_avatar_url : option string;
}.

(** The columns selected back after the insert or update. *)
Record SavedRow := mkSavedRow {
  saved_id : string;
  saved_author_id : string;
  saved_created_at : option string;
  saved_share_token : option string;
  saved_version : Z;
}.

(** [.single()] resolves to a row or to an error. *)
Inductive WriteResult :=
| WriteOk (row : SavedRow)
| WriteError (message : string).

(** What a run of [saveRemoteGame] does to the outside, in order.  The
    store actions it calls ([setIsSaving], [setRemoteGameData],
    [setGameVersion]) appear as effects with their arguments. *)
Inductive SaveEffect :=
| SConsoleLog (msg : string)
| SConsoleError (msg : string)
| SSetIsSaving (b : bool)
| SSelectProfile (userId : string)
| SGetUser
| SUpsertProfile (id : string) (username avatar_url : option string)
| SInsertGame (author_id name : string) (data : SerializedGame) (v : Z) (updated_at : string)
| SUpdateGame (savedId name : string) (data : SerializedGame) (v : Z) (updated_at : string)
| SSetRemoteGameData (gameId : string) (row : SavedRow)
| SSetGameVersion (gameId : string) (v : Z)
| SNotify (title message : string) (color : option string).

(** [a ?? b] on optional strings. *)
Definition nullish (a b : option string) : option string :=
  match a with Some x => Some x | None => b end.

(** [ensureProfile]: [profile] is the row found by the lookup, [user] the
    user returned by [getUser]. *)
Definition ensureProfile (userId : string) (profile : option string)
    (user : option AuthUser) : list SaveEffect :=
  [SSelectProfile userId]
  ++ match profile with
     | Some _ => []
     | None =>
         [SGetUser]
         ++ match user with
            | Some u =>
                [SUpsertProfile userId
                   (nullish (meta_global_name u)
                      (nullish (meta_name u) (nullish (meta_full_name u) (user_email u))))
                   (meta_avatar_url u)]
            | None => []
            end
     end.

Section SaveRemoteGame.

Variable serializeGame : Store → string → SerializedGame.

(** The [try] block after the session check.  [st] is the store as read
    after [ensureProfile], [nowIso] is [new Date().toISOString()], [write]
    what the insert or update resolves to.  Returns the effects and the
    thrown error, if any. *)
Definition saveRemoteGame_try (gameId : option string) (session : Session) (st : Store)
    (nowIso : string) (profile : option string) (user : option AuthUser)
    (write : WriteResult) : list SaveEffect * option string :=
  let e0 := ensureProfile (session_user_id session) profile user in
  let gameId' := match gameId with Some g => Some g | None => games_selected st end in
  let key := default "" gameId' in
  match games_games st !! key with
  | None =>
      (e0 ++ [SConsoleError "No game, skipping save";
              SNotify "Error saving game" "No game selected" None], None)
  | Some game =>
      let currentVersion := default 1 (version game) in
      let isNewGame := negb (truthy_str (savedId game)) in
      let request :=
        if isNewGame
        then SInsertGame (session_user_id session) (game_name game)
               (serializeGame st key) (currentVersion + 1) nowIso
        else SUpdateGame (default "" (savedId game)) (game_name game)
               (serializeGame st key) (currentVersion + 1) nowIso in
      match write with
      | WriteError message =>
          (e0 ++ [request; SConsoleError "Error syncing factories:"], Some message)
      | WriteOk row =>
          (e0 ++ [request;
                  SConsoleLog "Saved game to remote:";
                  SSetRemoteGameData (game_id game) row;
                  SSetGameVersion (game_id game) (saved_version row)]
              ++ (if isNewGame
                  then [SNotify "Game saved"
                          (dquote +:+ game_name game +:+ dquote
                           +:+ " has been saved to the cloud")
                          (Some "green")]
                  else []),
           None)
      end
  end.

(** [session] is [auth.session] as read on entry. *)
Definition saveRemoteGame (gameId : option string) (session : option Session) (st : Store)
    (nowIso : string) (profile : option string) (user : option AuthUser)
    (write : WriteResult) : list SaveEffect :=
  [SSetIsSaving true]
  ++ match session with
     | None => [SConsoleLog "No session, skipping save, previous at "]
     | Some s =>
         let '(body, thrown) := saveRemoteGame_try gameId s st nowIso profile user write in
         body
         ++ match thrown with
            | Some message =>
                [SConsoleError "Error saving game:";
                 SNotify "Error saving game" message (Some "red")]
            | None => []
            end
     end
  ++ [SSetIsSaving false].

End SaveRemoteGame.

(** The insert and update requests among the effects. *)
Definition isGameWrite (e : SaveEffect) : bool :=
  match e with
  | SInsertGame _ _ _ _ _ | SUpdateGame _ _ _ _ _ => true
  | _ => false
  end.

(** ** SyncStatusIndicator.tsx *)

Inductive Badge := BadgeLocal | BadgeSyncing | BadgeShared | BadgeSynced.

(** What the component renders: nothing, or one of the four badges. *)
Definition SyncStatusIndicator (gameId : option string) (st : Store) : option Badge :=
  let key :=
    default "" (match gameId with Some g => Some g | None => games_selected st end) in
  match games_games st !! key, auth_session st with
  | Some game, Some session =>
      if negb (truthy_str (savedId game)) then Some BadgeLocal
      else if gameSave_isSaving st then Some BadgeSyncing
      else
        let isShared :=
          truthy_str (authorId game)
          && bool_decide (authorId game ≠ Some (session_user_id session)) in
        Some (if isShared then BadgeShared else BadgeSynced)
  | _, _ => None
  end.

(** ** SharedGameImporterPage.tsx *)

(** The row returned by the [get_game_by_share_token] call, with the
    columns the page reads; [fg_data] is the stored snapshot. *)
Record FetchedGame := mkFetched {
  fg_id : string;
  fg_author_id : string;
  fg_data : SerializedGame;
}.

(** [.single()] on the call: an error, or the row ([None] stands for a
    null [data] without error). *)
Inductive FetchResult :=
| FetchError (message : string)
| FetchData (row : option FetchedGame).

Inductive ImportEffect :=
| IConsoleError (msg : string)
| INotify (title message color : string)
| INavigate (path : string)
| ISetStatus (status : string)
| IRpcGetGame (game_uuid token : string)
| IRpcJoinGame (game_uuid token : string)
| ILoadRemoteGame (serialized : SerializedGame) (row : FetchedGame) (override : bool)
| ISelectGame (gameId : string).

(** [loadSharedGame] of the page's effect.  [gameSavedId] and [token] are
    the two search parameters, [values] is [Object.values(state.games.games)]
    at the time of the lookup. *)
Definition loadSharedGame (gameSavedId token : option string) (session : option Session)
    (values : list Game) (fetch : FetchResult) : list ImportEffect :=
  match gameSavedId, token with
  | Some sid, Some tok =>
      if truthy_str (Some sid) && truthy_str (Some tok) then
        let failed (message : string) :=
          [IConsoleError "Error loading shared game:";
           INotify "Error loading shared game" message "red";
           INavigate "/factories/calculator"] in
        [ISetStatus "Fetching game data..."; IRpcGetGame sid tok]
        ++ match fetch with
           | FetchError message => failed message
           | FetchData None => failed "Game not found or invalid share token"
           | FetchData (Some data) =>
               let serialized := fg_data data in
               match list_find (λ g, savedId g = Some sid) values with
               | Some (_, existingGame) =>
                   [ISetStatus "Game already in your list, refreshing...";
                    ILoadRemoteGame serialized data true;
                    ISelectGame (game_id existingGame);
                    INavigate "/games";
                    INotify "Game refreshed"
                      (dquote +:+ game_name (game serialized) +:+ dquote
                       +:+ " data has been updated")
                      "blue"]
               | None =>
                   let isOther :=
                     match session with
                     | Some s => bool_decide (fg_author_id data ≠ session_user_id s)
                     | None => false
                     end in
                   let isOwner :=
                     match session with
                     | Some s => bool_decide (fg_author_id data = session_user_id s)
                     | None => false
                     end in
                   (if isOther
                    then [ISetStatus "Joining as collaborator..."; IRpcJoinGame sid tok]
                    else [])
                   ++ [ISetStatus "Setting up game...";
                       ILoadRemoteGame serialized data false;
                       ISelectGame (game_id (game serialized));
                       INavigate "/games";
                       INotify (if isOwner then "Your game loaded" else "Joined shared game")
                         (if isOwner
                          then "Game " +:+ dquote +:+ game_name (game serialized)
                               +:+ dquote +:+ " has been loaded"
                          else "You now have access to " +:+ dquote
                               +:+ game_name (game serialized) +:+ dquote
                               +:+ ". Changes will sync automatically.")
                         "green"]
               end
           end
      else
        [IConsoleError "Missing gameId or token";
         INotify "Error loading shared game" "Link is missing required parameters" "red";
         INavigate "/factories/calculator"]
  | _, _ =>
      [IConsoleError "Missing gameId or token";
       INotify "Error loading shared game" "Link is missing required parameters" "red";
       INavigate "/factories/calculator"]
  end.

(** The navigations among the effects. *)
Definition navigations (t : list ImportEffect) : list string :=
  omap (λ e, match e with INavigate path => Some path | _ => None end) t.

(** ** 001_initial_schema.sql *)

Module Sql.

(** A nullable SQL value is an [option], [None] being NULL.  A comparison
    with NULL is NULL, AND is three-valued, and WHERE, EXISTS and a policy
    keep a row only when the condition is TRUE. *)
Definition sql_eq (a b : option string) : option bool :=
  match a, b with
  | Some x, Some y => Some (bool_decide (x = y))
  | _, _ => None
  end.

Definition sql_and (a b : option bool) : option bool :=
  match a, b with
  | Some false, _ | _, Some false => Some false
  | Some true, Some true => Some true
  | _, _ => None
  end.

Definition holds (c : option bool) : bool :=
  match c with
  | Some true => true
  | _ => false
  end.

(** The tables, with the columns of their CREATE TABLE; a PRIMARY KEY or
    NOT NULL column is not optional. *)
Record ProfilesRow := mkProfilesRow {
  p_id : string;
  p_username : option string;
  p_avatar_url : option string;
}.

Record GamesRow := mkGamesRow {
  g_id : string;
  g_author_id : string;
  g_name : option string;
  g_data : option string;
  g_share_token : option string;
  g_version : Z;
  g_created_at : option Z;
  g_updated_at : option Z;
}.

Record SharedGamesRow := mkSharedGamesRow {
  sg_id : Z;
  sg_game_id : string;
  sg_user_id : string;
  sg_created_at : option Z;
}.

(** [shared_games_id_seq] is the sequence behind the SERIAL column
    [shared_games.id]. *)
Record Db := mkDb {
  profiles : list ProfilesRow;
  games : list GamesRow;
  shared_games : list SharedGamesRow;
  shared_games_id_seq : Z;
}.

(** A function call returns a value and leaves a database, or raises and
    leaves the database as it was. *)
Inductive Outcome (A : Type) :=
  | Raised (constraint : string)
  | Returned (a : A) (db : Db).
Arguments Raised {A} constraint.
Arguments Returned {A} a db.

(** [WHERE id = gid AND share_token = token], the condition shared by
    [share_token_matches_game_id], [get_game_by_share_token] and
    [join_game_by_share_token]. *)
Definition id_and_share_token (gid token : option string) (r : GamesRow) : bool :=
  holds (sql_and (sql_eq (Some (g_id r)) gid) (sql_eq (g_share_token r) token)).

Definition share_token_matches_game_id (db : Db) (token gid : option string) : bool :=
  existsb (id_and_share_token gid token) (games db).

(** [uid] is the value of [auth.uid()], NULL when nobody is signed in. *)
Definition is_game_owner (db : Db) (uid gid : option string) : bool :=
  existsb
    (λ r, holds (sql_and (sql_eq (Some (g_id r)) gid) (sql_eq (Some (g_author_id r)) uid)))
    (games db).

Definition has_user_shared_game_id (db : Db) (uid gid : option string) : bool :=
  existsb
    (λ s, holds (sql_and (sql_eq (Some (sg_game_id s)) gid)
                         (sql_eq (Some (sg_user_id s)) uid)))
    (shared_games db).

Definition get_game_by_share_token (db : Db) (game_uuid token : option string)
    : list GamesRow :=
  filter (λ r, id_and_share_token game_uuid token r) (games db).

(** The INSERT of [join_game_by_share_token] under the constraints of
    [shared_games]: the id is drawn from the sequence whatever follows;
    [game_id] and [user_id] are NOT NULL; a row with the same
    (game_id, user_id) makes the statement do nothing; the id is a primary
    key; both columns reference existing rows.  [now] is the time the
    default of [created_at] reads. *)
Definition join_game_by_share_token (now : Z) (db : Db)
    (uid game_uuid token : option string) : Outcome bool :=
  let game_exists := existsb (id_and_share_token game_uuid token) (games db) in
  if negb game_exists then Returned false db
  else
    let new_id := shared_games_id_seq db in
    let drawn :=
      mkDb (profiles db) (games db) (shared_games db) (new_id + 1) in
    match game_uuid, uid with
    | None, _ => Raised "shared_games.game_id is null"
    | _, None => Raised "shared_games.user_id is null"
    | Some gid, Some u =>
        if existsb (λ s, bool_decide (sg_game_id s = gid ∧ sg_user_id s = u))
             (shared_games db)
        then Returned true drawn
        else if bool_decide (new_id ∈ sg_id <$> shared_games db)
        then Raised "shared_games_pkey"
        else if negb (bool_decide (gid ∈ g_id <$> games db))
        then Raised "shared_games_game_id_fkey"
        else if negb (bool_decide (u ∈ p_id <$> profiles db))
        then Raised "shared_games_user_id_fkey"
        else
          Returned true
            (mkDb (profiles db) (games db)
               (shared_games db ++ [mkSharedGamesRow new_id gid u (Some now)])
               (new_id + 1))
    end.

(** Row level security of [games]. *)
Inductive Command := SELECT | INSERT | UPDATE | DELETE.

Inductive Role := anon | authenticated.

#[global] Instance Command_eq_dec : EqDecision Command.
Proof. solve_decision. Defined.

#[global] Instance Role_eq_dec : EqDecision Role.
Proof. solve_decision. Defined.

(** A policy: [for_command] is [None] for FOR ALL; [pol_with_check] is [None]
    when the policy has no WITH CHECK, and USING then also checks the new
    row. *)
Record Policy := mkPolicy {
  policy_name : string;
  for_command : option Command;
  to_role : Role;
  pol_using : Db → option string → GamesRow → option bool;
  pol_with_check : option (Db → option string → GamesRow → option bool);
}.

(** [author_id = auth.uid()] *)
Definition own_game (db : Db) (uid : option string) (r : GamesRow) : option bool :=
  sql_eq (Some (g_author_id r)) uid.

(** [id IN (SELECT game_id FROM shared_games WHERE user_id = auth.uid())];
    neither [id] nor [game_id] is nullable. *)
Definition shared_game (db : Db) (uid : option string) (r : GamesRow) : option bool :=
  Some (bool_decide
          (g_id r ∈ sg_game_id
             <$> filter (λ s, holds (sql_eq (Some (sg_user_id s)) uid)) (shared_games db))).

Definition games_policies : list Policy :=
  [mkPolicy "Users can manage own games" None authenticated own_game (Some own_game);
   mkPolicy "Users can read shared games" (Some SELECT) authenticated shared_game None;
   mkPolicy "Users can update shared games" (Some UPDATE) authenticated shared_game None].

Definition applies (role : Role) (cmd : Command) (p : Policy) : bool :=
  bool_decide (to_role p = role)
  && match for_command p with
     | None => true
     | Some c => bool_decide (c = cmd)
     end.

(** The policies are permissive: an existing row is within reach of a
    command when the USING of one applicable policy is TRUE, and a new row
    is accepted when the check of one applicable policy is TRUE. *)
Definition using_passes (db : Db) (role : Role) (uid : option string) (cmd : Command)
    (r : GamesRow) : bool :=
  existsb (λ p, applies role cmd p && holds (pol_using p db uid r)) games_policies.

Definition check_passes (db : Db) (role : Role) (uid : option string) (cmd : Command)
    (r : GamesRow) : bool :=
  existsb (λ p, applies role cmd p && holds (default (pol_using p) (pol_with_check p) db uid r))
    games_policies.

(** UNIQUE(game_id, user_id) of [shared_games]. *)
Definition unique_game_user (l : list SharedGamesRow) : Prop :=
  NoDup ((λ s, (sg_game_id s, sg_user_id s)) <$> l).

(** A game shared by link, its author, and a visitor with a profile. *)
Module Example.
Definition linked := mkGamesRow "g1" "owner" (Some "Base") None (Some "tok") 3 None None.
Definition unlinked := mkGamesRow "g2" "owner" (Some "Solo") None None 1 None None.
Definition db0 : Db :=
  mkDb [mkProfilesRow "owner" None None; mkProfilesRow "visitor" None None]
    [linked; unlinked] [] 1.
End Example.

End Sql.

(** What the component maintains about its timeouts: every outstanding
    timeout is the one [refreshTimeoutRef] points at, and identifiers not yet
    handed out are not in use. *)
Definition auth_inv (a : AuthManager) : Prop :=
  (∀ id d, timers a !! id = Some d → refreshTimeoutRef a = Some id)
  ∧ (∀ id d, timers a !! id = Some d → (id < nextTimer a)%positive).

Module AuthScenario.
Definition first := mkSession "me" (Some 3600).
Definition second := mkSession "me" (Some 7200).
(** Mounted at time 0; the session is loaded; the clock passes the refresh
    time of the first session. *)
Definition inputs : list AuthInput := [InGetSession (Some first); InClock 3300000].
End AuthScenario.

(** * Properties *)

(** ** The merge resolver *)

Section MergeFacts.

Lemma filter_all_rejected {A} (P : A → Prop) `{!∀ x, Decision (P x)} (l : list A) :
  (∀ x, x ∈ l → ¬ P x) → filter P l = [].
Proof.
  induction l as [|a l IH]; intros Hall; [done|].
  rewrite filter_cons_False by (apply Hall; left).
  apply IH. intros x Hx. apply Hall. by right.
Qed.

(** Membership in the JS [Set] built from the ids of an array. *)
Lemma in_factory_id_set (fs : list Factory) (i : string) :
  i ∈ (list_to_set (factory_id <$> fs) : gset string) ↔ i ∈ (factory_id <$> fs).
Proof. apply elem_of_list_to_set. Qed.

Lemma in_solver_id_set (ss : list SolverInstance) (i : string) :
  i ∈ (list_to_set (solver_id <$> ss) : gset string) ↔ i ∈ (solver_id <$> ss).
Proof. apply elem_of_list_to_set. Qed.

Lemma merged_factories_eq (local remote : SerializedGame) :
  factories (mergeGameState local remote)
  = factories remote
      ++ filter (λ f, factory_id f ∉ (list_to_set (factory_id <$> factories remote) : gset string))
           (factories local).
Proof. reflexivity. Qed.

Lemma merged_factories_elem (local remote : SerializedGame) (f : Factory) :
  f ∈ factories (mergeGameState local remote) ↔
  f ∈ factories remote ∨
  (f ∈ factories local ∧ factory_id f ∉ (factory_id <$> factories remote)).
Proof.
  cbn. rewrite elem_of_app, list_elem_of_filter, in_factory_id_set. tauto.
Qed.

Lemma merged_solvers_elem (local remote : SerializedGame) (s : SolverInstance) :
  s ∈ solvers (mergeGameState local remote) ↔
  s ∈ solvers remote ∨
  (s ∈ solvers local
   ∧ (solver_id s ∉ (solver_id <$> solvers remote))
   ∧ solver_id s ∈ (getLocalOnlyFactoryIds local remote)).
Proof.
  cbn. unfold getLocalOnlyFactoryIds.
  rewrite elem_of_app, !list_elem_of_filter, in_solver_id_set, in_factory_id_set.
  tauto.
Qed.

Lemma local_only_ids_elem (local remote : SerializedGame) (i : string) :
  i ∈ getLocalOnlyFactoryIds local remote ↔
  i ∈ (factory_id <$> factories local) ∧ i ∉ (factory_id <$> factories remote).
Proof.
  unfold getLocalOnlyFactoryIds. rewrite !list_elem_of_fmap. split.
  - intros (f & -> & Hf). apply list_elem_of_filter in Hf as [Hn Hf].
    rewrite in_factory_id_set, list_elem_of_fmap in Hn. split; [eauto|done].
  - intros [(f & -> & Hf) Hn]. exists f. split; [done|].
    apply list_elem_of_filter. by rewrite in_factory_id_set, list_elem_of_fmap.
Qed.

Lemma with_factoriesIds_same (g : Game) : with_factoriesIds g (factoriesIds g) = g.
Proof. by destruct g. Qed.

End MergeFacts.

(** C4 (merge union law).  The factories of [mergeGameState local remote]
    are, as a set, all of remote's factories together with the local
    factories whose id does not occur in remote.  For local [[A; B]] and
    remote [[B'; C]], with B' carrying B's id and A's id not occurring in
    remote, the result holds exactly A, B' and C: A as it was, B' in place
    of B, and C. *)
Theorem merge_union_law (local remote : SerializedGame) :
  (∀ f, f ∈ factories (mergeGameState local remote) ↔
        f ∈ factories remote ∨
        (f ∈ factories local ∧ factory_id f ∉ (factory_id <$> factories remote)))
  ∧ (∀ A B B' C,
       factories local = [A; B] → factories remote = [B'; C] →
       factory_id B' = factory_id B →
       factory_id A ≠ factory_id B → factory_id A ≠ factory_id C →
       factories (mergeGameState local remote) = [B'; C; A]
       ∧ (∀ f, f ∈ factories (mergeGameState local remote) ↔ f = A ∨ f = B' ∨ f = C)).
Proof.
  split; [apply merged_factories_elem|].
  intros A B B' C Hl Hr HB HAB HAC.
  assert (factories (mergeGameState local remote) = [B'; C; A]) as Heq.
  { rewrite merged_factories_eq, Hl, Hr.
    rewrite filter_cons_True.
    2:{ rewrite in_factory_id_set. cbn. rewrite !elem_of_cons, elem_of_nil.
        intros [H | [H | []]]; congruence. }
    rewrite filter_cons_False.
    2:{ intros H. apply H. rewrite in_factory_id_set. cbn. rewrite HB. left. }
    done. }
  split; [done|]. intros f. rewrite Heq, !elem_of_cons, elem_of_nil. tauto.
Qed.

Lemma merge_union_law_witness :
  let local := MergeExamples.local in
  let remote := MergeExamples.remote in
  factories (mergeGameState local remote)
    = [MergeExamples.fB'; MergeExamples.fC; MergeExamples.fA]
  ∧ (∀ f, f ∈ factories (mergeGameState local remote) ↔
          f = MergeExamples.fA ∨ f = MergeExamples.fB' ∨ f = MergeExamples.fC).
Proof.
  apply (proj2 (merge_union_law MergeExamples.local MergeExamples.remote)
           MergeExamples.fA MergeExamples.fB MergeExamples.fB' MergeExamples.fC);
    first [reflexivity | discriminate].
Defined.

(** C9 (merge idempotence).  Merging a snapshot with itself gives the same
    snapshot back: factories, solvers, the ordered child-id list and the
    scalar fields of the game are all those of [x]. *)
Theorem merge_idempotent (x : SerializedGame) : mergeGameState x x = x.
Proof.
  destruct x as [g fs ss]. unfold mergeGameState. cbn.
  rewrite (filter_all_rejected _ fs).
  2:{ intros f Hf Hn. apply Hn. rewrite in_factory_id_set.
      by apply list_elem_of_fmap_2. }
  cbn. rewrite (filter_all_rejected _ ss) by (intros s _; apply not_elem_of_empty).
  cbn. by rewrite !app_nil_r, with_factoriesIds_same.
Qed.

(** C10 (local-only solvers).  A solver of [local] whose id does not occur
    among remote's solvers is kept by the merge exactly when its id is the id
    of a local-only factory; when a factory with that id exists in remote,
    the merged snapshot holds no solver with that id at all. *)
Theorem merge_local_only_solver (local remote : SerializedGame) (s : SolverInstance) :
  s ∈ solvers local →
  solver_id s ∉ (solver_id <$> solvers remote) →
  (s ∈ solvers (mergeGameState local remote) ↔
     solver_id s ∈ (factory_id <$> factories local)
     ∧ solver_id s ∉ (factory_id <$> factories remote))
  ∧ (solver_id s ∈ (factory_id <$> factories remote) →
     solver_id s ∉ (solver_id <$> solvers (mergeGameState local remote))).
Proof.
  intros Hs Hr. split.
  - rewrite merged_solvers_elem, local_only_ids_elem. split.
    + intros [Hin | (_ & _ & H)]; [|done].
      exfalso. apply Hr. by apply list_elem_of_fmap_2.
    + intros H. right. done.
  - intros Hf Hm. apply list_elem_of_fmap in Hm as (s' & Hid & Hs').
    apply merged_solvers_elem in Hs' as [Hin | (_ & _ & H)].
    + apply Hr. rewrite Hid. by apply list_elem_of_fmap_2.
    + apply local_only_ids_elem in H as [_ H]. apply H. by rewrite <- Hid.
Qed.

Lemma merge_local_only_solver_witness :
  (MergeExamples.sB ∈ solvers (mergeGameState MergeExamples.local MergeExamples.remote) ↔
     solver_id MergeExamples.sB ∈ (factory_id <$> factories MergeExamples.local)
     ∧ solver_id MergeExamples.sB ∉ (factory_id <$> factories MergeExamples.remote))
  ∧ (solver_id MergeExamples.sB ∈ (factory_id <$> factories MergeExamples.remote) →
     solver_id MergeExamples.sB
       ∉ (solver_id <$> solvers (mergeGameState MergeExamples.local MergeExamples.remote))).
Proof.
  apply (merge_local_only_solver MergeExamples.local MergeExamples.remote MergeExamples.sB).
  - cbn. apply list_elem_of_In. right. left. reflexivity.
  - cbn. apply not_elem_of_nil.
Defined.

(** The dropped solver of the example: factory B exists remotely, so the
    local solver for B is gone although remote brings no solver for B. *)
Example merge_drops_solver_of_shared_factory :
  solvers (mergeGameState MergeExamples.local MergeExamples.remote) = [MergeExamples.sA].
Proof. reflexivity. Qed.

(** ** Applying a merged snapshot to the store *)

Section StoreFacts.

Lemma clearOldFactories_cons S i ids st :
  clearOldFactories S (i :: ids) st
  = clearOldFactories S ids (if decide (i ∈ S) then st else delete_child i st).
Proof. reflexivity. Qed.

Lemma clearOldFactories_games S ids st :
  games_games (clearOldFactories S ids st) = games_games st.
Proof.
  revert st. induction ids as [|i ids IH]; intros st; [done|].
  rewrite clearOldFactories_cons, IH. by case_decide.
Qed.

Lemma clearOldFactories_factories S ids st k :
  factories_factories (clearOldFactories S ids st) !! k
  = if decide (k ∈ ids ∧ k ∉ S) then None else factories_factories st !! k.
Proof.
  revert st. induction ids as [|i ids IH]; intros st.
  - cbn. case_decide as H; [|done]. destruct H as [H _]. by apply elem_of_nil in H.
  - rewrite clearOldFactories_cons, IH.
    destruct (decide (k ∈ ids ∧ k ∉ S)) as [[Hk HS]|Hn].
    + rewrite decide_True; [done|]. split; [by right|done].
    + destruct (decide (i ∈ S)) as [Hi|Hi].
      * rewrite decide_False; [done|]. intros [Hk HS].
        apply elem_of_cons in Hk as [->|Hk]; [done|]. by apply Hn.
      * cbn. destruct (decide (k = i)) as [->|Hk].
        -- rewrite lookup_delete_eq, decide_True; [done|]. split; [by left|done].
        -- rewrite lookup_delete_ne by done. rewrite decide_False; [done|].
           intros [Hk' HS]. apply elem_of_cons in Hk' as [->|Hk']; [done|]. by apply Hn.
Qed.

Lemma clearOldFactories_instances S ids st k :
  solvers_instances (clearOldFactories S ids st) !! k
  = if decide (k ∈ ids ∧ k ∉ S) then None else solvers_instances st !! k.
Proof.
  revert st. induction ids as [|i ids IH]; intros st.
  - cbn. case_decide as H; [|done]. destruct H as [H _]. by apply elem_of_nil in H.
  - rewrite clearOldFactories_cons, IH.
    destruct (decide (k ∈ ids ∧ k ∉ S)) as [[Hk HS]|Hn].
    + rewrite decide_True; [done|]. split; [by right|done].
    + destruct (decide (i ∈ S)) as [Hi|Hi].
      * rewrite decide_False; [done|]. intros [Hk HS].
        apply elem_of_cons in Hk as [->|Hk]; [done|]. by apply Hn.
      * cbn. destruct (decide (k = i)) as [->|Hk].
        -- rewrite lookup_delete_eq, decide_True; [done|]. split; [by left|done].
        -- rewrite lookup_delete_ne by done. rewrite decide_False; [done|].
           intros [Hk' HS]. apply elem_of_cons in Hk' as [->|Hk']; [done|]. by apply Hn.
Qed.

Lemma applyFactories_cons f fs st :
  applyFactories (f :: fs) st
  = applyFactories fs (set_factories (<[factory_id f := f]> (factories_factories st)) st).
Proof. reflexivity. Qed.

Lemma applySolvers_cons x ss st :
  applySolvers (x :: ss) st
  = applySolvers ss (set_instances (<[solver_id x := x]> (solvers_instances st)) st).
Proof. reflexivity. Qed.

Lemma applyFactories_games fs st :
  games_games (applyFactories fs st) = games_games st.
Proof.
  revert st. induction fs as [|f fs IH]; intros st; [done|].
  by rewrite applyFactories_cons, IH.
Qed.

Lemma applyFactories_instances fs st :
  solvers_instances (applyFactories fs st) = solvers_instances st.
Proof.
  revert st. induction fs as [|f fs IH]; intros st; [done|].
  by rewrite applyFactories_cons, IH.
Qed.

Lemma applyFactories_other fs st k :
  k ∉ (factory_id <$> fs) →
  factories_factories (applyFactories fs st) !! k = factories_factories st !! k.
Proof.
  revert st. induction fs as [|f fs IH]; intros st Hk; [done|].
  rewrite fmap_cons in Hk. apply not_elem_of_cons in Hk as [Hne Hk].
  rewrite applyFactories_cons, IH by done. cbn. by rewrite lookup_insert_ne.
Qed.

Lemma applySolvers_games ss st :
  games_games (applySolvers ss st) = games_games st.
Proof.
  revert st. induction ss as [|x ss IH]; intros st; [done|].
  by rewrite applySolvers_cons, IH.
Qed.

Lemma applySolvers_factories ss st :
  factories_factories (applySolvers ss st) = factories_factories st.
Proof.
  revert st. induction ss as [|x ss IH]; intros st; [done|].
  by rewrite applySolvers_cons, IH.
Qed.

Lemma applySolvers_other ss st k :
  k ∉ (solver_id <$> ss) →
  solvers_instances (applySolvers ss st) !! k = solvers_instances st !! k.
Proof.
  revert st. induction ss as [|x ss IH]; intros st Hk; [done|].
  rewrite fmap_cons in Hk. apply not_elem_of_cons in Hk as [Hne Hk].
  rewrite applySolvers_cons, IH by done. cbn. by rewrite lookup_insert_ne.
Qed.

(** The game entry written by [applyRemoteGameUpdate]. *)
Lemma applyRemoteGameUpdate_store_game gameId merged v st localGame :
  games_games st !! gameId = Some localGame →
  games_games (applyRemoteGameUpdate_store gameId merged v st) !! gameId
  = Some (appliedGame localGame (game merged) v).
Proof.
  intros Hg. unfold applyRemoteGameUpdate_store. rewrite Hg.
  rewrite applySolvers_games, applyFactories_games. cbn.
  by rewrite lookup_insert_eq.
Qed.

Lemma applyRemoteGameUpdate_store_absent gameId merged v st :
  games_games st !! gameId = None →
  applyRemoteGameUpdate_store gameId merged v st = st.
Proof. intros Hg. unfold applyRemoteGameUpdate_store. by rewrite Hg. Qed.

End StoreFacts.

(** C5 (applying a remote update).  With the game present,
    [applyRemoteGameUpdate gameId merged version] writes a game record that
    keeps the local [savedId], [authorId], [shareToken] and [createdAt],
    takes [id], [name] and the child-id list from [merged.game], and carries
    the given version; and every id of the local child list that names no
    factory of [merged] has its factory entry deleted, and its solver entry
    too unless [merged.solvers] brings a solver with that id. *)
Theorem applyRemoteGameUpdate_frame (gameId : string) (merged : SerializedGame)
    (v : Z) (st : Store) (localGame : Game) :
  games_games st !! gameId = Some localGame →
  let st' := applyRemoteGameUpdate_store gameId merged v st in
  (∃ g', games_games st' !! gameId = Some g'
         ∧ savedId g' = savedId localGame
         ∧ authorId g' = authorId localGame
         ∧ shareToken g' = shareToken localGame
         ∧ createdAt g' = createdAt localGame
         ∧ game_id g' = game_id (game merged)
         ∧ game_name g' = game_name (game merged)
         ∧ factoriesIds g' = factoriesIds (game merged)
         ∧ version g' = Some v)
  ∧ (∀ factoryId,
       factoryId ∈ factoriesIds localGame →
       factoryId ∉ (factory_id <$> factories merged) →
       factories_factories st' !! factoryId = None
       ∧ (factoryId ∉ (solver_id <$> solvers merged) →
          solvers_instances st' !! factoryId = None)).
Proof.
  intros Hg st'. split.
  - exists (appliedGame localGame (game merged) v).
    split; [by apply applyRemoteGameUpdate_store_game|done].
  - intros fid Hin Hnot. subst st'. unfold applyRemoteGameUpdate_store. rewrite Hg.
    assert (fid ∈ factoriesIds localGame
            ∧ fid ∉ (list_to_set (factory_id <$> factories merged) : gset string)) as Hdel.
    { split; [done|]. by rewrite in_factory_id_set. }
    split.
    + rewrite applySolvers_factories, applyFactories_other by done. cbn.
      rewrite clearOldFactories_factories. by rewrite decide_True.
    + intros Hs. rewrite applySolvers_other by done.
      rewrite applyFactories_instances. cbn.
      rewrite clearOldFactories_instances. by rewrite decide_True.
Qed.

Lemma applyRemoteGameUpdate_frame_witness :
  let st' := applyRemoteGameUpdate_store "A" Scenario.remoteData 6 Scenario.st0 in
  (∃ g', games_games st' !! "A" = Some g'
         ∧ savedId g' = savedId Scenario.gameA
         ∧ authorId g' = authorId Scenario.gameA
         ∧ shareToken g' = shareToken Scenario.gameA
         ∧ createdAt g' = createdAt Scenario.gameA
         ∧ game_id g' = game_id (game Scenario.remoteData)
         ∧ game_name g' = game_name (game Scenario.remoteData)
         ∧ factoriesIds g' = factoriesIds (game Scenario.remoteData)
         ∧ version g' = Some 6)
  ∧ (∀ factoryId,
       factoryId ∈ factoriesIds Scenario.gameA →
       factoryId ∉ (factory_id <$> factories Scenario.remoteData) →
       factories_factories st' !! factoryId = None
       ∧ (factoryId ∉ (solver_id <$> solvers Scenario.remoteData) →
          solvers_instances st' !! factoryId = None)).
Proof.
  apply (applyRemoteGameUpdate_frame "A" Scenario.remoteData 6 Scenario.st0 Scenario.gameA).
  vm_compute. reflexivity.
Defined.

(** In the scenario, fa2 is in A's child list and absent from the snapshot
    applied: its factory and its solver are gone afterwards. *)
Example applyRemoteGameUpdate_deletes_fa2 :
  let st' := applyRemoteGameUpdate_store "A" Scenario.remoteData 6 Scenario.st0 in
  factories_factories Scenario.st0 !! "fa2" = Some Scenario.fa2
  ∧ factories_factories st' !! "fa2" = None
  ∧ solvers_instances st' !! "fa2" = None
  ∧ factories_factories st' !! "fa1" = Some Scenario.fa1'.
Proof. vm_compute. done. Qed.

(** ** The sync engine *)

Section EngineFacts.

Variable ser : Store → string → SerializedGame.

Lemma run_cons (w : World) (e : Event) (es : list Event) :
  run ser w (e :: es) = run ser (step ser w e) es.
Proof. reflexivity. Qed.

Lemma run_app (w : World) (es1 es2 : list Event) :
  run ser w (es1 ++ es2) = run ser (run ser w es1) es2.
Proof. apply foldl_app. Qed.

Lemma triggerSync_saved (g : string) (w : World) :
  g ≠ "" → is_Some (savedGame (store w) g) →
  triggerSync (Some g) w = set_pending (Some (now w + SYNC_DEBOUNCE_MS, g)) w.
Proof.
  intros Hg [x Hx]. unfold triggerSync, truthy_str.
  rewrite bool_decide_eq_true_2 by done. by rewrite Hx.
Qed.

(** A call that does not qualify leaves the timer alone. *)
Lemma triggerSync_unsaved (g : string) (w : World) :
  savedGame (store w) g = None → triggerSync (Some g) w = w.
Proof.
  intros Hx. unfold triggerSync. rewrite Hx. by destruct (truthy_str _).
Qed.

Lemma advance_idle (t : Z) (w : World) :
  pendingSync w = None → advance ser t w = set_now (Z.max (now w) t) w.
Proof. intros H. unfold advance. by rewrite H. Qed.

Lemma advance_not_due (t d : Z) (g : string) (w : World) :
  pendingSync w = Some (d, g) → t < d →
  advance ser t w = set_now (Z.max (now w) t) w.
Proof.
  intros H Ht. unfold advance. rewrite H.
  by rewrite bool_decide_eq_false_2 by lia.
Qed.

Lemma advance_due (t d : Z) (g : string) (w : World) :
  pendingSync w = Some (d, g) → d ≤ t →
  advance ser t w
  = set_now (Z.max (now w) t) (syncGameToRemote_invoke ser g (set_pending None w)).
Proof.
  intros H Ht. unfold advance. rewrite H.
  by rewrite bool_decide_eq_true_2 by lia.
Qed.

Lemma invoke_pushes (g : string) (w : World) game sid s :
  savedGame (store w) g = Some (game, sid) →
  auth_session (store w) = Some s →
  pushes (syncGameToRemote_invoke ser g w)
  = pushes w ++ [mkPush sid (ser (set_isSaving true (store w)) g)
                   (default 1 (version game) + 1) (game_name game)]
  ∧ pendingSync (syncGameToRemote_invoke ser g w) = pendingSync w.
Proof.
  intros Hg Hs. unfold syncGameToRemote_invoke. by rewrite Hg, Hs.
Qed.

(** The world after a burst: nothing but the clock and the one timer moved,
    and the timer belongs to the last call. *)
Lemma burst_state (calls : list (Z * string)) :
  ∀ (w : World) t g,
    withinWindow (now w) (fst <$> pendingSync w) calls →
    (∀ t' g', (t', g') ∈ calls → g' ≠ "" ∧ is_Some (savedGame (store w) g')) →
    last calls = Some (t, g) →
    run ser w (burstEvents calls)
    = mkWorld (store w) t (Some (t + SYNC_DEBOUNCE_MS, g))
              (inflight w) (pushes w) (log w).
Proof.
  induction calls as [|[t1 g1] rest IH]; intros w t g Hwin Hsaved Hlast; [done|].
  destruct Hwin as (Hnow & Hdue & Hrest).
  destruct (Hsaved t1 g1) as [Hg1 Hs1]; [left|].
  assert (advance ser t1 w = set_now t1 w) as Hadv.
  { destruct (pendingSync w) as [[d g0]|] eqn:Hp.
    - rewrite (advance_not_due t1 d g0) by done. f_equal. lia.
    - rewrite advance_idle by done. f_equal. lia. }
  cbn [burstEvents]. rewrite !run_cons. cbn [step]. rewrite Hadv.
  rewrite triggerSync_saved by done.
  destruct rest as [|c rest'].
  - cbn in Hlast. injection Hlast as <- <-. done.
  - rewrite (IH _ t g).
    + done.
    + exact Hrest.
    + intros t' g' Hin. apply (Hsaved t' g'). by right.
    + by rewrite <- Hlast.
Qed.

End EngineFacts.

(** C1, as the code has it (one debounce timer for the whole process).
    A burst of [triggerSync] calls, each made for a saved game within the
    quiet window of the one before, leaves a single timer, due 1000 ms after
    the last call and aimed at the game of the last call, whatever games the
    earlier calls named; nothing is pushed during the burst, and when the
    timer fires exactly one request is sent, for that last game. *)
Theorem debounce_single_timer (ser : Store → string → SerializedGame)
    (w : World) (calls : list (Z * string)) (t : Z) (g : string)
    (game : Game) (sid : string) (s : Session) (T : Z) :
  withinWindow (now w) (fst <$> pendingSync w) calls →
  (∀ t' g', (t', g') ∈ calls → g' ≠ "" ∧ is_Some (savedGame (store w) g')) →
  last calls = Some (t, g) →
  savedGame (store w) g = Some (game, sid) →
  auth_session (store w) = Some s →
  t + SYNC_DEBOUNCE_MS ≤ T →
  let w1 := run ser w (burstEvents calls) in
  let w2 := advance ser T w1 in
  pendingSync w1 = Some (t + SYNC_DEBOUNCE_MS, g)
  ∧ pushes w1 = pushes w
  ∧ pushes w2
    = pushes w ++ [mkPush sid (ser (set_isSaving true (store w)) g)
                     (default 1 (version game) + 1) (game_name game)]
  ∧ pendingSync w2 = None.
Proof.
  intros Hwin Hsaved Hlast Hg Hs HT w1 w2.
  assert (w1 = mkWorld (store w) t (Some (t + SYNC_DEBOUNCE_MS, g))
                 (inflight w) (pushes w) (log w)) as Hw1
    by (by apply burst_state).
  subst w2. rewrite Hw1. split; [done|]. split; [done|].
  rewrite (advance_due ser T (t + SYNC_DEBOUNCE_MS) g) by done.
  cbn [pushes pendingSync set_now].
  destruct (invoke_pushes ser g
              (set_pending None
                 (mkWorld (store w) t (Some (t + SYNC_DEBOUNCE_MS, g))
                    (inflight w) (pushes w) (log w))) game sid s) as [Hp Hq];
    [done|done|].
  rewrite Hp, Hq. done.
Qed.

Lemma debounce_single_timer_witness :
  let w1 := run serializeGame Scenario.w0 (burstEvents [(0, "A"); (500, "B")]) in
  let w2 := advance serializeGame 5000 w1 in
  pendingSync w1 = Some (500 + SYNC_DEBOUNCE_MS, "B")
  ∧ pushes w1 = pushes Scenario.w0
  ∧ pushes w2
    = pushes Scenario.w0
        ++ [mkPush "rB" (serializeGame (set_isSaving true (store Scenario.w0)) "B")
              (default 1 (version Scenario.gameB) + 1) (game_name Scenario.gameB)]
  ∧ pendingSync w2 = None.
Proof.
  apply (debounce_single_timer serializeGame Scenario.w0 [(0, "A"); (500, "B")]
           500 "B" Scenario.gameB "rB" Scenario.me 5000).
  - vm_compute. repeat split; congruence.
  - intros t' g' Hin. apply list_elem_of_In in Hin.
    destruct Hin as [Heq | [Heq | []]]; injection Heq as <- <-;
      (split; [discriminate | eexists; vm_compute; reflexivity]).
  - reflexivity.
  - vm_compute. reflexivity.
  - reflexivity.
  - vm_compute. discriminate.
Defined.

(** C1 as stated fails: games A and B are both saved; [triggerSync] is
    called for A at time 0 and for B at time 500, inside A's window.  The
    call for B takes over the timer, A's pending push is gone, and once the
    quiet period has passed the only request sent is B's. *)
Lemma debounce_not_per_game_counterexample :
  let w1 := triggerSync (Some "A") Scenario.w0 in
  let w2 := triggerSync (Some "B") (advance serializeGame 500 w1) in
  let w3 := advance serializeGame 5000 w2 in
  pendingSync w1 = Some (1000, "A")
  ∧ pendingSync w2 = Some (1500, "B")
  ∧ pushesFor "rA" w3 = []
  ∧ length (pushesFor "rB" w3) = 1%nat
  ∧ ¬ (length (pushesFor "rA" w3) = 1%nat ∧ length (pushesFor "rB" w3) = 1%nat).
Proof.
  vm_compute. repeat split; try reflexivity. intros [H _]. discriminate.
Qed.

Section InboundFacts.

Variable ser : Store → string → SerializedGame.

Lemma mergesApplied_logw (e : LogEntry) (w : World) :
  mergesApplied (logw e w)
  = (mergesApplied w
     + if decide (log_msg e = "Applied remote update") then 1 else 0)%nat.
Proof.
  unfold mergesApplied, logw. cbn [log].
  rewrite filter_app, length_app, filter_cons, filter_nil.
  by case_decide.
Qed.



(** The two branches of [handleRemoteUpdate] for a game that is present. *)
Lemma handleRemoteUpdate_stale gameId remote w g :
  games_games (store w) !! gameId = Some g →
  row_version remote ≤ default 1 (version g) →
  handleRemoteUpdate ser gameId remote w
  = logw (mkLog subscriptionLog Debug
            "Ignoring update, local version is same or newer" [])
      (logw (mkLog subscriptionLog Info "Received remote update"
               [("gameId", LStr gameId); ("localVersion", LNum (default 1 (version g)));
                ("remoteVersion", LNum (row_version remote))]) w).
Proof.
  intros Hg Hv. unfold handleRemoteUpdate. rewrite Hg.
  by rewrite bool_decide_eq_true_2.
Qed.

Lemma handleRemoteUpdate_newer gameId remote w g :
  games_games (store w) !! gameId = Some g →
  default 1 (version g) < row_version remote →
  handleRemoteUpdate ser gameId remote w
  = let w1 :=
      logw (mkLog subscriptionLog Info "Received remote update"
              [("gameId", LStr gameId); ("localVersion", LNum (default 1 (version g)));
               ("remoteVersion", LNum (row_version remote))]) w in
    let w2 := cancelPendingSync w1 in
    let merged := mergeGameState (ser (store w2) gameId) (row_data remote) in
    logw (mkLog subscriptionLog Info "Applied remote update"
            [("gameId", LStr gameId); ("newVersion", LNum (row_version remote))])
      (applyRemoteGameUpdate gameId merged (row_version remote) w2).
Proof.
  intros Hg Hv. unfold handleRemoteUpdate. rewrite Hg.
  by rewrite bool_decide_eq_false_2 by lia.
Qed.

Lemma applyRemoteGameUpdate_present gameId merged v w g :
  games_games (store w) !! gameId = Some g →
  applyRemoteGameUpdate gameId merged v w
  = modStore (applyRemoteGameUpdate_store gameId merged v)
      (logw (mkLog gamesLog Info "Applying remote game update"
               [("gameId", LStr gameId); ("version", LNum v);
                ("factoryCount", LNum (Z.of_nat (length (factories merged))))]) w).
Proof. intros Hg. unfold applyRemoteGameUpdate. by rewrite Hg. Qed.

(** With no timer pending, the passing of time pushes nothing and leaves
    the store as it is. *)
Lemma idle_clock_is_silent (ts : list Z) :
  ∀ w, pendingSync w = None →
       store (run ser w (EvAdvance <$> ts)) = store w
       ∧ pushes (run ser w (EvAdvance <$> ts)) = pushes w
       ∧ pendingSync (run ser w (EvAdvance <$> ts)) = None.
Proof.
  induction ts as [|t ts IH]; intros w Hp; [done|].
  rewrite fmap_cons, run_cons. cbn [step]. rewrite advance_idle by done.
  destruct (IH (set_now (Z.max (now w) t) w)) as (H1 & H2 & H3); [done|].
  by rewrite H1, H2, H3.
Qed.

End InboundFacts.



(** The testable property of the spec: local version 5; versions 5 and 3 are
    discarded, version 6 is merged once. *)
Example stale_discard_5_3_6 :
  store (handleRemoteUpdate serializeGame "A" (Scenario.rowA 5) Scenario.w0) = Scenario.st0
  ∧ store (handleRemoteUpdate serializeGame "A" (Scenario.rowA 3) Scenario.w0) = Scenario.st0
  ∧ mergesApplied (handleRemoteUpdate serializeGame "A" (Scenario.rowA 3) Scenario.w0) = 0%nat
  ∧ mergesApplied (handleRemoteUpdate serializeGame "A" (Scenario.rowA 6) Scenario.w0) = 1%nat
  ∧ version <$> games_games
                  (store (handleRemoteUpdate serializeGame "A" (Scenario.rowA 6) Scenario.w0))
                  !! "A"
    = Some (Some 6).
Proof. vm_compute. done. Qed.



(** The scenario both ways: left alone, the push scheduled at time 0 goes out
    when the clock passes 1000; with the inbound update handled at time 400,
    nothing is ever sent and the store is the merge result. *)
Example pending_push_with_and_without_update :
  pendingSync Scenario.wPending = Some (1000, "A")
  ∧ length (pushes (advance serializeGame 2000 Scenario.wPending)) = 1%nat
  ∧ pushes (run serializeGame Scenario.wPending
              [EvAdvance 400; EvRemoteUpdate "A" (Scenario.rowA 6); EvAdvance 2000]) = []
  ∧ store (run serializeGame Scenario.wPending
             [EvAdvance 400; EvRemoteUpdate "A" (Scenario.rowA 6); EvAdvance 2000])
    = applyRemoteGameUpdate_store "A"
        (mergeGameState (serializeGame Scenario.st0 "A") Scenario.remoteData) 6 Scenario.st0.
Proof. vm_compute. done. Qed.

(** ** Outcome of a push *)

Section PushFacts.

Lemma savedGame_games (st st' : Store) (g : string) :
  games_games st' = games_games st → savedGame st' g = savedGame st g.
Proof. unfold savedGame. by intros ->. Qed.

Lemma setSyncError_store (g : string) (e : option string) (w : World) :
  store (setSyncError g e w) = store w.
Proof. unfold setSyncError. destruct e as [m|]; [|done]. by destruct (truthy_str _). Qed.

Lemma setSyncError_log (g m : string) (w : World) :
  m ≠ "" →
  log (setSyncError g (Some m) w)
  = log w ++ [mkLog gamesLog Error "Sync error for game"
                [("gameId", LStr g); ("error", LStr m)]].
Proof.
  intros Hm. unfold setSyncError, truthy_str.
  by rewrite bool_decide_eq_true_2.
Qed.

Lemma setGameVersion_store_lookup (gameId : string) (v : Z) (st : Store) (g : Game) :
  games_games st !! gameId = Some g →
  games_games (setGameVersion_store gameId v st) !! gameId = Some (with_version g v).
Proof.
  intros Hg. unfold setGameVersion_store. rewrite Hg. cbn. by rewrite lookup_insert_eq.
Qed.

End PushFacts.

(** C6, as the code has it.  When the update returns an error, both push
    paths hand the message to [setSyncError], which writes it to the log
    (when it is not empty) and to nothing else: the store is changed only in
    its saving flag, so the game's version is what it was and a retry targets
    the same version again.  On success the version becomes the echoed one. *)
Theorem push_failure_keeps_version (ser : Store → string → SerializedGame)
    (w : World) (gameId message : string) :
  let failed := syncGameToRemote_resume gameId (RespError message) w in
  let failedNow := syncGameImmediately_resume gameId (RespError message) w in
  let entry := mkLog gamesLog Error "Sync error for game"
                 [("gameId", LStr gameId); ("error", LStr message)] in
  store failed = set_isSaving false (store w)
  ∧ store failedNow.1 = set_isSaving false (store w)
  ∧ failedNow.2 = false
  ∧ (message ≠ "" → entry ∈ log failed ∧ entry ∈ log failedNow.1)
  ∧ (∀ game sid s,
       savedGame (store w) gameId = Some (game, sid) →
       auth_session (store w) = Some s →
       push_version <$> last (pushes (syncGameToRemote_invoke ser gameId w))
       = Some (default 1 (version game) + 1)
       ∧ push_version <$> last (pushes (syncGameToRemote_invoke ser gameId failed))
         = Some (default 1 (version game) + 1)
       ∧ push_version <$> last (pushes (syncGameImmediately_start ser gameId failedNow.1).1)
         = Some (default 1 (version game) + 1))
  ∧ (∀ v g,
       games_games (store w) !! gameId = Some g →
       games_games (store (syncGameToRemote_resume gameId (RespData v) w)) !! gameId
       = Some (with_version g v)
       ∧ games_games (store (syncGameImmediately_resume gameId (RespData v) w).1) !! gameId
         = Some (with_version g v)).
Proof.
  intros failed failedNow entry.
  assert (store failed = set_isSaving false (store w)) as Hf.
  { subst failed. unfold syncGameToRemote_resume, setSyncingState, modStore. cbn [store].
    by rewrite setSyncError_store. }
  assert (store failedNow.1 = set_isSaving false (store w)) as Hn.
  { subst failedNow. unfold syncGameImmediately_resume, setSyncingState, modStore.
    cbn [store fst]. by rewrite setSyncError_store. }
  split; [done|]. split; [done|]. split; [done|]. split; [|split].
  - intros Hm. subst failed failedNow entry.
    unfold syncGameToRemote_resume, syncGameImmediately_resume, setSyncingState, modStore.
    cbn [log fst]. rewrite !setSyncError_log by done. split.
    + apply elem_of_app. right. left.
    + apply elem_of_app. right. left.
  - intros game sid s Hg Hs.
    assert (savedGame (store failed) gameId = Some (game, sid)) as Hgf.
    { rewrite <- Hg. apply savedGame_games. by rewrite Hf. }
    assert (auth_session (store failed) = Some s) as Hsf by (by rewrite Hf).
    assert (savedGame (store failedNow.1) gameId = Some (game, sid)) as Hgn.
    { rewrite <- Hg. apply savedGame_games. by rewrite Hn. }
    assert (auth_session (store failedNow.1) = Some s) as Hsn by (by rewrite Hn).
    destruct (invoke_pushes ser gameId w game sid s Hg Hs) as [-> _].
    destruct (invoke_pushes ser gameId failed game sid s Hgf Hsf) as [-> _].
    rewrite !last_snoc. split; [done|]. split; [done|].
    unfold syncGameImmediately_start.
    cbn [store cancelPendingSync set_pending]. rewrite Hgn, Hsn.
    cbn [fst pushes send setSyncingState modStore]. by rewrite last_snoc.
  - intros v g Hg. split.
    + unfold syncGameToRemote_resume, setSyncingState, modStore. cbn [store].
      apply setGameVersion_store_lookup. done.
    + unfold syncGameImmediately_resume, setSyncingState, modStore. cbn [store fst].
      apply setGameVersion_store_lookup. done.
Qed.

Lemma push_failure_keeps_version_witness :
  let w := Scenario.w0 in
  let failed := syncGameToRemote_resume "A" (RespError "timeout") w in
  store failed = set_isSaving false (store w)
  ∧ (mkLog gamesLog Error "Sync error for game"
       [("gameId", LStr "A"); ("error", LStr "timeout")] ∈ log failed)
  ∧ push_version <$> last (pushes (syncGameToRemote_invoke serializeGame "A" w)) = Some 6
  ∧ push_version <$> last (pushes (syncGameToRemote_invoke serializeGame "A" failed)) = Some 6
  ∧ version <$> games_games (store (syncGameToRemote_resume "A" (RespData 6) w)) !! "A"
    = Some (Some 6).
Proof.
  destruct (push_failure_keeps_version serializeGame Scenario.w0 "A" "timeout")
    as (H1 & _ & _ & H4 & H5 & H6).
  split; [exact H1|]. split; [apply H4; discriminate|].
  destruct (H5 Scenario.gameA "rA" Scenario.me) as (Ha & Hb & _);
    [vm_compute; reflexivity | reflexivity |].
  split; [exact Ha|]. split; [exact Hb|].
  destruct (H6 6 Scenario.gameA) as [Hc _]; [vm_compute; reflexivity|].
  rewrite Hc. reflexivity.
Defined.

(** C6 as stated fails in its parenthesis: no sync error is kept per game.
    Two failures with different messages leave the very same store, so
    nothing read from the store can be "the error message". *)
Lemma sync_error_not_stored_counterexample :
  store (syncGameToRemote_resume "A" (RespError "network down") Scenario.w0)
  = store (syncGameToRemote_resume "A" (RespError "row locked") Scenario.w0)
  ∧ ¬ (∃ syncError : Store → string → option string,
         ∀ message,
           syncError (store (syncGameToRemote_resume "A" (RespError message) Scenario.w0)) "A"
           = Some message).
Proof.
  split; [reflexivity|].
  intros [syncError H].
  pose proof (H "network down") as H1. pose proof (H "row locked") as H2.
  change (store (syncGameToRemote_resume "A" (RespError "row locked") Scenario.w0))
    with (store (syncGameToRemote_resume "A" (RespError "network down") Scenario.w0)) in H2.
  rewrite H1 in H2. discriminate.
Qed.

(** ** Remote deletion *)

Section DeleteFacts.

Lemma delete_children_cons i ids st :
  foldl (λ st factoryId, delete_child factoryId st) st (i :: ids)
  = foldl (λ st factoryId, delete_child factoryId st) (delete_child i st) ids.
Proof. reflexivity. Qed.

Lemma delete_children_games ids st :
  games_games (foldl (λ st factoryId, delete_child factoryId st) st ids) = games_games st.
Proof.
  revert st. induction ids as [|i ids IH]; intros st; [done|].
  by rewrite delete_children_cons, IH.
Qed.

Lemma delete_children_gone ids st k :
  k ∈ ids →
  factories_factories (foldl (λ st factoryId, delete_child factoryId st) st ids) !! k = None
  ∧ solvers_instances (foldl (λ st factoryId, delete_child factoryId st) st ids) !! k = None.
Proof.
  revert st. induction ids as [|i ids IH] using rev_ind; intros st Hk.
  - by apply elem_of_nil in Hk.
  - rewrite foldl_app. cbn.
    destruct (decide (k = i)) as [->|Hne].
    + by rewrite !lookup_delete_eq.
    + rewrite !lookup_delete_ne by done. apply IH.
      apply elem_of_app in Hk as [Hk|Hk]; [done|].
      apply list_elem_of_singleton in Hk. done.
Qed.

End DeleteFacts.

(** C8, as the code has it (ownership-gated delete).  On a delete
    notification for a game that is present: with a signed-in user whose id
    is the game's [authorId] the store is left as it is; with a signed-in
    user whose id is not the game's [authorId] the game is removed from the
    store together with the factory and solver entries of its child list;
    and with nobody signed in the store is left as it is. *)
Theorem remote_delete_ownership_gate (w : World) (gameId : string) (g : Game) :
  games_games (store w) !! gameId = Some g →
  let w' := handleRemoteDelete gameId w in
  (∀ s, auth_session (store w) = Some s →
        authorId g = Some (session_user_id s) → store w' = store w)
  ∧ (∀ s, auth_session (store w) = Some s →
          authorId g ≠ Some (session_user_id s) →
          store w' = removeGame gameId (store w)
          ∧ games_games (store w') !! gameId = None
          ∧ ∀ factoryId, factoryId ∈ factoriesIds g →
              factories_factories (store w') !! factoryId = None
              ∧ solvers_instances (store w') !! factoryId = None)
  ∧ (auth_session (store w) = None → store w' = store w).
Proof.
  intros Hg w'. subst w'. unfold handleRemoteDelete, logw.
  cbn [store]. rewrite Hg. split; [|split].
  - intros s Hs Ha. rewrite Hs.
    by rewrite bool_decide_eq_false_2 by (intros H; by apply H).
  - intros s Hs Ha. rewrite Hs.
    rewrite bool_decide_eq_true_2 by done. cbn [store modStore].
    split; [done|]. unfold removeGame. rewrite Hg. cbn. split.
    + apply lookup_delete_eq.
    + intros fid Hfid. by apply delete_children_gone.
  - intros Hs. by rewrite Hs.
Qed.

Lemma remote_delete_ownership_gate_witness :
  let w' := handleRemoteDelete "A" Scenario.w0 in
  (∀ s, auth_session (store Scenario.w0) = Some s →
        authorId Scenario.gameA = Some (session_user_id s) → store w' = store Scenario.w0)
  ∧ (∀ s, auth_session (store Scenario.w0) = Some s →
          authorId Scenario.gameA ≠ Some (session_user_id s) →
          store w' = removeGame "A" (store Scenario.w0)
          ∧ games_games (store w') !! "A" = None
          ∧ ∀ factoryId, factoryId ∈ factoriesIds Scenario.gameA →
              factories_factories (store w') !! factoryId = None
              ∧ solvers_instances (store w') !! factoryId = None)
  ∧ (auth_session (store Scenario.w0) = None → store w' = store Scenario.w0).
Proof.
  apply (remote_delete_ownership_gate Scenario.w0 "A" Scenario.gameA).
  vm_compute. reflexivity.
Defined.

(** C8 as stated fails when nobody is signed in: game A's [authorId] is
    "owner", there is no current user for it to equal, and the delete
    notification still leaves A and its children in the store. *)
Lemma remote_delete_signed_out_counterexample :
  let w := Scenario.wSignedOut in
  let w' := handleRemoteDelete "A" w in
  authorId Scenario.gameA ≠ (session_user_id <$> auth_session (store w))
  ∧ games_games (store w') !! "A" = Some Scenario.gameA
  ∧ factories_factories (store w') !! "fa1" = Some Scenario.fa1
  ∧ store w' = store w.
Proof. vm_compute. repeat split; discriminate. Qed.

(** In the scenario the user "me" owns B and not A: a delete notification
    for B changes nothing, one for A removes A, fa1 and fa2. *)
Example delete_own_and_shared :
  store (handleRemoteDelete "B" Scenario.w0) = Scenario.st0
  ∧ games_games (store (handleRemoteDelete "A" Scenario.w0)) !! "A" = None
  ∧ factories_factories (store (handleRemoteDelete "A" Scenario.w0)) = ∅
  ∧ solvers_instances (store (handleRemoteDelete "A" Scenario.w0)) = ∅
  ∧ games_games (store (handleRemoteDelete "A" Scenario.w0)) !! "B" = Some Scenario.gameB.
Proof. vm_compute. done. Qed.

(** ** Token refresh scheduling *)

Section AuthFacts.

Lemma auth_inv_init t0 : auth_inv (auth_init t0).
Proof. split; intros id d H; cbn in H; by rewrite lookup_empty in H. Qed.

(** Under the invariant there is nothing left once the referenced timeout
    is cleared. *)
Lemma clearRefreshTimeout_timers a :
  auth_inv a → timers (clearRefreshTimeout a) = ∅.
Proof.
  intros [Href _]. unfold clearRefreshTimeout. apply map_eq. intros k.
  rewrite lookup_empty.
  destruct (refreshTimeoutRef a) as [id|] eqn:Hr; cbn.
  - destruct (decide (k = id)) as [->|Hne]; [by rewrite lookup_delete_eq|].
    rewrite lookup_delete_ne by done.
    destruct (timers a !! k) as [d|] eqn:Hk; [|done].
    apply Href in Hk. congruence.
  - destruct (timers a !! k) as [d|] eqn:Hk; [|done].
    apply Href in Hk. congruence.
Qed.

Lemma clearRefreshTimeout_frame a :
  clock (clearRefreshTimeout a) = clock a
  ∧ nextTimer (clearRefreshTimeout a) = nextTimer a
  ∧ refreshTimeoutRef (clearRefreshTimeout a) = refreshTimeoutRef a
  ∧ refreshing (clearRefreshTimeout a) = refreshing a.
Proof.
  unfold clearRefreshTimeout.
  destruct (refreshTimeoutRef a) as [id|] eqn:Hr; cbn; by rewrite ?Hr.
Qed.

Lemma clearRefreshTimeout_inv a : auth_inv a → auth_inv (clearRefreshTimeout a).
Proof.
  intros Hinv. split; intros id d H;
    rewrite clearRefreshTimeout_timers in H by done; by rewrite lookup_empty in H.
Qed.

Lemma scheduleTokenRefresh_spec e a :
  auth_inv a →
  timers (scheduleTokenRefresh e a)
  = {[ nextTimer a := clock a + refreshDelay e (clock a) ]}
  ∧ refreshTimeoutRef (scheduleTokenRefresh e a) = Some (nextTimer a)
  ∧ nextTimer (scheduleTokenRefresh e a) = Pos.succ (nextTimer a)
  ∧ clock (scheduleTokenRefresh e a) = clock a
  ∧ refreshing (scheduleTokenRefresh e a) = refreshing a.
Proof.
  intros Hinv. unfold scheduleTokenRefresh, setTimeout.
  destruct (clearRefreshTimeout_frame a) as (Hc & Hn & _ & Hr).
  cbn. rewrite (clearRefreshTimeout_timers a Hinv), Hc, Hn, Hr.
  by rewrite insert_empty.
Qed.

Lemma scheduleTokenRefresh_inv e a : auth_inv a → auth_inv (scheduleTokenRefresh e a).
Proof.
  intros Hinv. destruct (scheduleTokenRefresh_spec e a Hinv) as (Ht & Hr & Hn & _).
  split; intros id d H; rewrite Ht in H;
    apply lookup_singleton_Some in H as [<- _]; [done|].
  rewrite Hn. lia.
Qed.

Lemma scheduleIfExpiryKnown_inv s a : auth_inv a → auth_inv (scheduleIfExpiryKnown s a).
Proof.
  intros Hinv. unfold scheduleIfExpiryKnown.
  destruct s as [s|]; [|done]. destruct (expires_at s) as [e|]; [|done].
  destruct (truthy_num _); [|done]. by apply scheduleTokenRefresh_inv.
Qed.

Lemma scheduleIfExpiryKnown_known s e a :
  expires_at s = Some e → e ≠ 0 →
  scheduleIfExpiryKnown (Some s) a = scheduleTokenRefresh e a.
Proof.
  intros He Hz. unfold scheduleIfExpiryKnown, truthy_num. rewrite He.
  by rewrite bool_decide_eq_true_2.
Qed.

Lemma iter_start_frame n a :
  timers (Nat.iter n refreshCallback_start a) = timers a
  ∧ nextTimer (Nat.iter n refreshCallback_start a) = nextTimer a
  ∧ refreshTimeoutRef (Nat.iter n refreshCallback_start a) = refreshTimeoutRef a
  ∧ refreshing (Nat.iter n refreshCallback_start a) = (n + refreshing a)%nat
  ∧ clock (Nat.iter n refreshCallback_start a) = clock a.
Proof.
  induction n as [|n (H1 & H2 & H3 & H4 & H5)]; [done|].
  rewrite Nat.iter_succ.
  set (b := Nat.iter n refreshCallback_start a) in *.
  unfold refreshCallback_start, authLogw. cbn.
  by rewrite H1, H2, H3, H4, H5.
Qed.

Lemma fireDue_inv t a : auth_inv a → auth_inv (fireDue t a).
Proof.
  intros [Href Hfresh]. unfold fireDue.
  match goal with |- auth_inv (Nat.iter ?n _ ?a1) =>
    destruct (iter_start_frame n a1) as (H1 & H2 & H3 & _) end.
  split; intros id d H; rewrite H1 in H; cbn in H;
    apply map_lookup_filter_Some in H as [H _].
  - rewrite H3. cbn. by apply (Href id d).
  - rewrite H2. cbn. by apply (Hfresh id d).
Qed.

Lemma authLogw_inv e a : auth_inv a → auth_inv (authLogw e a).
Proof. done. Qed.

Lemma setSession_inv s a : auth_inv a → auth_inv (setSession s a).
Proof. done. Qed.

Lemma auth_step_inv a i : auth_inv a → auth_inv (auth_step a i).
Proof.
  intros Hinv. destruct i as [s|event s|t|s|]; cbn [auth_step].
  - by apply scheduleIfExpiryKnown_inv.
  - unfold onAuthStateChange.
    repeat first [ assumption
                 | apply scheduleIfExpiryKnown_inv
                 | apply clearRefreshTimeout_inv
                 | apply setSession_inv
                 | apply authLogw_inv
                 | case_decide ].
  - by apply fireDue_inv.
  - destruct (refreshing a) as [|n]; [done|].
    unfold refreshCallback_resume. destruct s as [s|]; [|done].
    by apply scheduleIfExpiryKnown_inv.
  - by apply clearRefreshTimeout_inv.
Qed.

Lemma auth_run_inv inputs : ∀ a, auth_inv a → auth_inv (auth_run a inputs).
Proof.
  induction inputs as [|i inputs IH]; intros a Hinv; [done|].
  apply IH. by apply auth_step_inv.
Qed.


Lemma onAuthStateChange_signed_in s a :
  onAuthStateChange SIGNED_IN s a
  = scheduleIfExpiryKnown s
      (setSession s (authLogw (mkLog authLogger Info "Auth state changed:" []) a)).
Proof. reflexivity. Qed.

Lemma onAuthStateChange_token_refreshed s a :
  onAuthStateChange TOKEN_REFRESHED s a
  = scheduleIfExpiryKnown s
      (setSession s
         (authLogw (mkLog authLogger Info "Token was refreshed" [])
            (authLogw (mkLog authLogger Info "Auth state changed:" []) a))).
Proof. reflexivity. Qed.

(** Signing out clears the timeout and schedules nothing. *)
Lemma onAuthStateChange_signed_out a :
  auth_inv a → timers (onAuthStateChange SIGNED_OUT None a) = ∅.
Proof.
  intros Hinv.
  change (timers (onAuthStateChange SIGNED_OUT None a))
    with (timers (clearRefreshTimeout
                    (authLogw (mkLog authLogger Info "Auth state changed:" []) a))).
  apply clearRefreshTimeout_timers. by apply authLogw_inv.
Qed.

Lemma fireDue_single t a id d :
  timers a = {[ id := d ]} →
  (t < d → timers (fireDue t a) = {[ id := d ]}
           ∧ refreshing (fireDue t a) = refreshing a)
  ∧ (d ≤ t → timers (fireDue t a) = ∅
             ∧ refreshing (fireDue t a) = S (refreshing a)).
Proof.
  intros Ht. unfold fireDue. rewrite Ht. split; intros Hd.
  - rewrite (map_filter_singleton_False (λ kv : positive * Z, kv.2 ≤ t)) by (cbn; lia).
    rewrite (map_filter_singleton_True (λ kv : positive * Z, ¬ kv.2 ≤ t)) by (cbn; lia).
    rewrite map_size_empty. done.
  - rewrite (map_filter_singleton_True (λ kv : positive * Z, kv.2 ≤ t)) by (cbn; lia).
    rewrite (map_filter_singleton_False (λ kv : positive * Z, ¬ kv.2 ≤ t)) by (cbn; lia).
    rewrite map_size_singleton. done.
Qed.

End AuthFacts.



(** The loop of the spec's testable property, run: mounted at time 0 with a
    session expiring at 3600 s, the refresh is due at 3300 s and fires once;
    the refreshed session (expiring at 7200 s) gets one new timeout, due at
    6900 s; the TOKEN_REFRESHED event that the refresh also raises only
    replaces that timeout by another. *)
Example refresh_loop_run :
  let a1 := auth_step (auth_init 0) (InGetSession (Some AuthScenario.first)) in
  let a2 := auth_step a1 (InClock 3299999) in
  let a3 := auth_step a2 (InClock 3300000) in
  let a4 := auth_step a3 (InAuthStateChange TOKEN_REFRESHED (Some AuthScenario.second)) in
  let a5 := auth_step a4 (InRefreshResult (Some AuthScenario.second)) in
  let a6 := auth_step a5 (InClock 6900000) in
  map_to_list (timers a1) = [(1%positive, 3300000)]
  ∧ (map_to_list (timers a2) = [(1%positive, 3300000)] ∧ refreshing a2 = 0%nat)
  ∧ (map_to_list (timers a3) = [] ∧ refreshing a3 = 1%nat)
  ∧ map_to_list (timers a4) = [(2%positive, 6900000)]
  ∧ (map_to_list (timers a5) = [(3%positive, 6900000)] ∧ refreshing a5 = 0%nat)
  ∧ (map_to_list (timers a6) = [] ∧ refreshing a6 = 1%nat).
Proof. vm_compute. done. Qed.


(** * Further properties of the code *)

(** ** mergeGameState.ts *)

Section MergeMore.

Lemma filter_all_accepted {A} (P : A → Prop) `{!∀ x, Decision (P x)} (l : list A) :
  (∀ x, x ∈ l → P x) → filter P l = l.
Proof.
  induction l as [|a l IH]; intros Hall; [done|].
  rewrite filter_cons_True by (apply Hall; left).
  f_equal. apply IH. intros x Hx. apply Hall. by right.
Qed.

Lemma filter_twice {A} (P : A → Prop) `{!∀ x, Decision (P x)} (l : list A) :
  filter P (filter P l) = filter P l.
Proof.
  apply filter_all_accepted. intros x Hx.
  by apply list_elem_of_filter in Hx as [Hx _].
Qed.

Lemma merged_solvers_eq (local remote : SerializedGame) :
  solvers (mergeGameState local remote)
  = solvers remote
      ++ filter (λ s, solver_id s ∉ (list_to_set (solver_id <$> solvers remote) : gset string))
           (filter (λ s, solver_id s
                           ∈ (list_to_set (getLocalOnlyFactoryIds local remote) : gset string))
              (solvers local)).
Proof. reflexivity. Qed.

Lemma merged_factoriesIds_eq (local remote : SerializedGame) :
  factoriesIds (game (mergeGameState local remote))
  = factoriesIds (game remote) ++ getLocalOnlyFactoryIds local remote.
Proof. reflexivity. Qed.

Lemma merged_factory_ids (local remote : SerializedGame) :
  factory_id <$> factories (mergeGameState local remote)
  = (factory_id <$> factories remote) ++ getLocalOnlyFactoryIds local remote.
Proof. by rewrite merged_factories_eq, fmap_app. Qed.

Lemma local_only_of_merge (local remote : SerializedGame) :
  getLocalOnlyFactoryIds (mergeGameState local remote) remote
  = getLocalOnlyFactoryIds local remote.
Proof.
  unfold getLocalOnlyFactoryIds at 1. rewrite merged_factories_eq, filter_app.
  rewrite (filter_all_rejected _ (factories remote)).
  2:{ intros f Hf Hn. apply Hn. rewrite in_factory_id_set. by apply list_elem_of_fmap_2. }
  by rewrite filter_twice.
Qed.

Lemma hasLocalChanges_false (local remote : SerializedGame) :
  hasLocalChanges local remote = false ↔
  (∀ f, f ∈ factories local → factory_id f ∈ (factory_id <$> factories remote))
  ∧ length (factories local) = length (factories remote).
Proof.
  unfold hasLocalChanges. cbv zeta.
  set (p := λ f : Factory,
         bool_decide (factory_id f
                        ∉ (list_to_set (factory_id <$> factories remote) : gset string))).
  destruct (existsb p (factories local)) eqn:Hex.
  - split; [done|]. intros [Hall _]. exfalso.
    apply existsb_exists in Hex as (f & Hf & Hb).
    apply bool_decide_eq_true in Hb. apply Hb.
    rewrite in_factory_id_set. apply Hall. by apply list_elem_of_In.
  - assert (∀ f, f ∈ factories local → factory_id f ∈ (factory_id <$> factories remote))
      as Hall.
    { intros f Hf.
      destruct (decide (factory_id f ∈ (factory_id <$> factories remote))) as [|Hn]; [done|].
      exfalso. assert (existsb p (factories local) = true) as Ht; [|congruence].
      apply existsb_exists. exists f. split; [by apply list_elem_of_In|].
      apply bool_decide_eq_true. by rewrite in_factory_id_set. }
    case_bool_decide as Hlen.
    + split; [done|]. by intros [_ ?].
    + split; [|done]. intros _. split; [done|]. lia.
Qed.

End MergeMore.

(** X1.  Merging the same remote snapshot a second time changes nothing:
    [mergeGameState (mergeGameState local remote) remote] is
    [mergeGameState local remote]. *)
Theorem merge_absorbs_remote (local remote : SerializedGame) :
  mergeGameState (mergeGameState local remote) remote = mergeGameState local remote.
Proof.
  assert (filter (λ f, factory_id f
                         ∉ (list_to_set (factory_id <$> factories remote) : gset string))
            (factories (mergeGameState local remote))
          = filter (λ f, factory_id f
                           ∉ (list_to_set (factory_id <$> factories remote) : gset string))
              (factories local)) as Hlo.
  { rewrite merged_factories_eq, filter_app.
    rewrite (filter_all_rejected _ (factories remote)).
    2:{ intros f Hf Hn. apply Hn. rewrite in_factory_id_set. by apply list_elem_of_fmap_2. }
    by rewrite filter_twice. }
  unfold mergeGameState at 1. cbv zeta. rewrite !Hlo.
  change (mergeGameState local remote)
    with (mkSerialized (game (mergeGameState local remote))
            (factories (mergeGameState local remote))
            (solvers (mergeGameState local remote))) at 2.
  f_equal.
  rewrite merged_solvers_eq at 1. unfold getLocalOnlyFactoryIds.
  rewrite merged_solvers_eq. unfold getLocalOnlyFactoryIds.
  rewrite !filter_app.
  set (Q := λ s : SolverInstance, solver_id s ∈ (list_to_set
              (factory_id <$> filter (λ f, factory_id f
                 ∉ (list_to_set (factory_id <$> factories remote) : gset string))
                 (factories local)) : gset string)).
  set (N := λ s : SolverInstance,
              solver_id s ∉ (list_to_set (solver_id <$> solvers remote) : gset string)).
  rewrite (filter_all_rejected N (filter Q (solvers remote))).
  2:{ intros s Hs Hn. apply list_elem_of_filter in Hs as [_ Hs]. apply Hn.
      rewrite in_solver_id_set. by apply list_elem_of_fmap_2. }
  rewrite (filter_all_accepted Q (filter N (filter Q (solvers local)))).
  2:{ intros s Hs. apply list_elem_of_filter in Hs as [_ Hs].
      by apply list_elem_of_filter in Hs as [Hs _]. }
  by rewrite filter_twice.
Qed.

(** X2.  The merge keeps snapshots well formed: if local and remote each
    list their factories in the game's child-id list, have no two factories
    and no two solvers with the same id, and only solvers of their own
    factories, then so does the merged snapshot. *)
Theorem merge_preserves_wellFormed (local remote : SerializedGame) :
  wellFormed local → wellFormed remote → wellFormed (mergeGameState local remote).
Proof.
  intros (_ & HLf & HLs & _) (HRi & HRf & HRs & HRo).
  assert (NoDup (getLocalOnlyFactoryIds local remote)) as Hlo.
  { unfold getLocalOnlyFactoryIds.
    apply (sublist_NoDup _ (factory_id <$> factories local)); [done|].
    apply fmap_sublist, sublist_filter. }
  repeat split.
  - by rewrite merged_factoriesIds_eq, merged_factory_ids, HRi.
  - rewrite merged_factory_ids. apply NoDup_app. split; [done|]. split; [|done].
    intros i Hi Hlocal. apply local_only_ids_elem in Hlocal as [_ Hn]. done.
  - rewrite merged_solvers_eq, fmap_app. apply NoDup_app. split; [done|]. split.
    + intros i Hi Hx. apply list_elem_of_fmap in Hx as (s & -> & Hs).
      apply list_elem_of_filter in Hs as [Hn _]. apply Hn. by rewrite in_solver_id_set.
    + apply (sublist_NoDup _ (solver_id <$> solvers local)); [done|].
      apply fmap_sublist. etrans; apply sublist_filter.
  - intros s Hs. rewrite merged_factory_ids. apply elem_of_app.
    apply merged_solvers_elem in Hs as [Hs | (_ & _ & Hs)]; [left; by apply HRo | by right].
Qed.

Lemma merge_preserves_wellFormed_witness :
  wellFormed (mergeGameState MergeExamples.local
                (mkSerialized MergeExamples.gRemote
                   [MergeExamples.fB'; MergeExamples.fC] [MergeExamples.sB])).
Proof.
  apply merge_preserves_wellFormed.
  - repeat split; try reflexivity.
    + cbn. apply NoDup_cons. split; [|apply NoDup_singleton].
      rewrite list_elem_of_singleton. discriminate.
    + cbn. apply NoDup_cons. split; [|apply NoDup_singleton].
      rewrite list_elem_of_singleton. discriminate.
    + intros s Hs. apply list_elem_of_In in Hs.
      destruct Hs as [<- | [<- | []]]; apply list_elem_of_In; cbn; tauto.
  - repeat split; try reflexivity.
    + cbn. apply NoDup_cons. split; [|apply NoDup_singleton].
      rewrite list_elem_of_singleton. discriminate.
    + cbn. apply NoDup_singleton.
    + intros s Hs. apply list_elem_of_In in Hs.
      destruct Hs as [<- | []]; apply list_elem_of_In; cbn; tauto.
Defined.

(** X3.  After a merge the local-only ids are still exactly the ones the
    merge found, and [hasLocalChanges] of the merged snapshot against the
    same remote is true exactly when there was a local-only factory. *)
Theorem merge_keeps_local_only_ids (local remote : SerializedGame) :
  getLocalOnlyFactoryIds (mergeGameState local remote) remote
  = getLocalOnlyFactoryIds local remote
  ∧ (hasLocalChanges (mergeGameState local remote) remote = true
     ↔ getLocalOnlyFactoryIds local remote ≠ []).
Proof.
  split; [apply local_only_of_merge|].
  destruct (hasLocalChanges (mergeGameState local remote) remote) eqn:Hh.
  - split; [|done]. intros _ Hnil.
    assert (hasLocalChanges (mergeGameState local remote) remote = false) as Hf; [|congruence].
    apply hasLocalChanges_false.
    assert (factories (mergeGameState local remote) = factories remote) as Heq.
    { rewrite merged_factories_eq. unfold getLocalOnlyFactoryIds in Hnil.
      apply fmap_nil_inv in Hnil. by rewrite Hnil, app_nil_r. }
    rewrite Heq. split; [|done]. intros f Hf. by apply list_elem_of_fmap_2.
  - split; [done|]. intros Hne. exfalso.
    apply hasLocalChanges_false in Hh as [_ Hlen].
    rewrite merged_factories_eq, length_app in Hlen.
    apply Hne. unfold getLocalOnlyFactoryIds.
    destruct (filter _ (factories local)); [done|]. cbn in Hlen. lia.
Qed.

(** X4.  [hasLocalChanges] compares ids and counts only.  It is false
    exactly when every local factory id occurs in remote and the two counts
    agree; so it is false whenever the two id lists are permutations of each
    other, whatever the factories contain, and true whenever some local
    factory id is unknown to remote. *)
Theorem hasLocalChanges_ids_only (local remote : SerializedGame) :
  (hasLocalChanges local remote = false ↔
     (∀ f, f ∈ factories local → factory_id f ∈ (factory_id <$> factories remote))
     ∧ length (factories local) = length (factories remote))
  ∧ ((factory_id <$> factories local) ≡ₚ (factory_id <$> factories remote) →
     hasLocalChanges local remote = false)
  ∧ (getLocalOnlyFactoryIds local remote ≠ [] → hasLocalChanges local remote = true).
Proof.
  split; [apply hasLocalChanges_false|]. split.
  - intros Hperm. apply hasLocalChanges_false. split.
    + intros f Hf. rewrite <- Hperm. by apply list_elem_of_fmap_2.
    + apply Permutation_length in Hperm. by rewrite !length_fmap in Hperm.
  - intros Hne. destruct (hasLocalChanges local remote) eqn:Hh; [done|]. exfalso.
    apply hasLocalChanges_false in Hh as [Hall _]. apply Hne.
    unfold getLocalOnlyFactoryIds. rewrite filter_all_rejected; [done|].
    intros f Hf Hn. apply Hn. rewrite in_factory_id_set. by apply Hall.
Qed.

Lemma hasLocalChanges_ids_only_witness :
  hasLocalChanges
    (mkSerialized MergeExamples.gLocal [MergeExamples.fB; MergeExamples.fA] [])
    (mkSerialized MergeExamples.gRemote
       [mkFactory "A" "edited remotely"; MergeExamples.fB'] [])
  = false.
Proof.
  apply (proj1 (proj2 (hasLocalChanges_ids_only _ _))).
  cbn. apply Permutation_swap.
Defined.

(** X5.  The empty sides.  A local snapshot without factories contributes
    nothing, not even its solvers: the merge is the remote snapshot.  A
    remote snapshot without factories and solvers removes nothing: the
    merge keeps every local factory, and the local solvers that belong to
    one of them. *)
Theorem merge_empty_sides (local remote : SerializedGame) :
  (factories local = [] → mergeGameState local remote = remote)
  ∧ (factories remote = [] → solvers remote = [] →
     factories (mergeGameState local remote) = factories local
     ∧ solvers (mergeGameState local remote)
       = filter (λ s, solver_id s ∈ (factory_id <$> factories local)) (solvers local)
     ∧ factoriesIds (game (mergeGameState local remote))
       = factoriesIds (game remote) ++ (factory_id <$> factories local)).
Proof.
  split.
  - intros Hl. destruct remote as [g fs ss]. unfold mergeGameState. cbn. rewrite Hl. cbn.
    rewrite (filter_all_rejected _ (solvers local))
      by (intros s _; apply not_elem_of_empty).
    cbn. by rewrite !app_nil_r, with_factoriesIds_same.
  - intros Hf Hs.
    assert (filter (λ f, factory_id f
                           ∉ (list_to_set (factory_id <$> factories remote) : gset string))
              (factories local) = factories local) as Hall.
    { apply filter_all_accepted. intros f _. rewrite Hf. apply not_elem_of_empty. }
    split; [|split].
    + by rewrite merged_factories_eq, Hall, Hf.
    + rewrite merged_solvers_eq, Hs. cbn [app]. unfold getLocalOnlyFactoryIds. rewrite Hall.
      rewrite filter_all_accepted
        by (intros s _; cbn; apply not_elem_of_empty).
      apply list_filter_iff. intros s. apply elem_of_list_to_set.
    + rewrite merged_factoriesIds_eq. unfold getLocalOnlyFactoryIds. by rewrite Hall.
Qed.

Lemma merge_empty_sides_witness :
  mergeGameState (mkSerialized MergeExamples.gLocal [] [MergeExamples.sA]) MergeExamples.remote
  = MergeExamples.remote.
Proof.
  apply (proj1 (merge_empty_sides _ _)). reflexivity.
Defined.


(** ** syncManager.ts *)

Section EngineMore.

Variable ser : Store → string → SerializedGame.

Lemma savedGame_Some (st : Store) (g : string) (game : Game) (sid : string) :
  savedGame st g = Some (game, sid) ↔
  games_games st !! g = Some game ∧ savedId game = Some sid ∧ sid ≠ "".
Proof.
  unfold savedGame. destruct (games_games st !! g) as [x|]; cbn.
  - destruct (savedId x) as [i|] eqn:Hi; cbn.
    + case_bool_decide as Hne.
      * split; [intros [= <- <-]; by rewrite Hi | intros ([= <-] & Hs & _); congruence].
      * split; [done|]. intros ([= <-] & Hs & Hn). congruence.
    + split; [done|]. intros ([= <-] & Hs & _). congruence.
  - split; [done|]. by intros [? _].
Qed.

Lemma invoke_skips (g : string) (w : World) :
  savedGame (store w) g = None ∨ auth_session (store w) = None →
  store (syncGameToRemote_invoke ser g w) = store w
  ∧ pushes (syncGameToRemote_invoke ser g w) = pushes w
  ∧ inflight (syncGameToRemote_invoke ser g w) = inflight w
  ∧ pendingSync (syncGameToRemote_invoke ser g w) = pendingSync w.
Proof.
  intros H. unfold syncGameToRemote_invoke.
  destruct (savedGame (store w) g) as [[game sid]|]; [|done].
  destruct H as [H|H]; [done|]. by rewrite H.
Qed.

Lemma invoke_pushes_prefix (g : string) (w : World) :
  pushes w `prefix_of` pushes (syncGameToRemote_invoke ser g w).
Proof.
  unfold syncGameToRemote_invoke.
  destruct (savedGame (store w) g) as [[game sid]|]; [|done].
  destruct (auth_session (store w)); [|done]. by apply prefix_app_r.
Qed.

Lemma triggerSync_frame (o : option string) (w : World) :
  store (triggerSync o w) = store w ∧ pushes (triggerSync o w) = pushes w
  ∧ inflight (triggerSync o w) = inflight w ∧ now (triggerSync o w) = now w.
Proof.
  unfold triggerSync. destruct (truthy_str _); [|done].
  destruct (match o with Some g => Some g | None => games_selected (store w) end)
    as [t|]; [|done].
  by destruct (savedGame (store w) t).
Qed.

Lemma setSyncError_frame (g : string) (e : option string) (w : World) :
  pushes (setSyncError g e w) = pushes w ∧ inflight (setSyncError g e w) = inflight w
  ∧ pendingSync (setSyncError g e w) = pendingSync w.
Proof. unfold setSyncError. destruct e as [m|]; [|done]. by destruct (truthy_str _). Qed.

Lemma resume_frame (g : string) (r : PushResponse) (w : World) :
  pushes (syncGameToRemote_resume g r w) = pushes w
  ∧ inflight (syncGameToRemote_resume g r w) = inflight w
  ∧ pendingSync (syncGameToRemote_resume g r w) = pendingSync w.
Proof.
  unfold syncGameToRemote_resume, setSyncingState, modStore. cbn [pushes inflight pendingSync].
  destruct r as [m|v|e]; cbn beta;
    match goal with |- context [setSyncError ?a ?b ?c] =>
      destruct (setSyncError_frame a b c) as (-> & -> & ->) end; done.
Qed.

Lemma resume_now_frame (g : string) (r : PushResponse) (w : World) :
  pushes (syncGameImmediately_resume g r w).1 = pushes w
  ∧ inflight (syncGameImmediately_resume g r w).1 = inflight w
  ∧ pendingSync (syncGameImmediately_resume g r w).1 = pendingSync w.
Proof.
  unfold syncGameImmediately_resume, setSyncingState, modStore.
  destruct r as [m|v|e]; cbn [fst pushes inflight pendingSync];
    match goal with |- context [setSyncError ?a ?b ?c] =>
      destruct (setSyncError_frame a b c) as (-> & -> & ->) end; done.
Qed.

Lemma applyRemoteGameUpdate_world_frame g merged v (w : World) :
  pushes (applyRemoteGameUpdate g merged v w) = pushes w
  ∧ inflight (applyRemoteGameUpdate g merged v w) = inflight w
  ∧ pendingSync (applyRemoteGameUpdate g merged v w) = pendingSync w.
Proof. unfold applyRemoteGameUpdate. by destruct (games_games (store w) !! g). Qed.

Lemma handleRemoteUpdate_pushes g row (w : World) :
  pushes (handleRemoteUpdate ser g row w) = pushes w
  ∧ inflight (handleRemoteUpdate ser g row w) = inflight w.
Proof.
  unfold handleRemoteUpdate. destruct (games_games (store w) !! g) as [x|]; [|done].
  case_bool_decide; [done|]. cbn [pushes inflight logw].
  match goal with |- context [applyRemoteGameUpdate ?a ?b ?c ?d] =>
    destruct (applyRemoteGameUpdate_world_frame a b c d) as (-> & -> & _) end. done.
Qed.

Lemma handleRemoteDelete_pushes g (w : World) :
  pushes (handleRemoteDelete g w) = pushes w
  ∧ inflight (handleRemoteDelete g w) = inflight w
  ∧ pendingSync (handleRemoteDelete g w) = pendingSync w.
Proof.
  unfold handleRemoteDelete, logw. cbn [store].
  destruct (games_games (store w) !! g) as [x|]; [|done].
  destruct (auth_session (store w)) as [s|]; [|done]. by case_bool_decide.
Qed.

Lemma immediately_start_pushes g (w : World) :
  pushes w `prefix_of` pushes (syncGameImmediately_start ser g w).1
  ∧ pendingSync (syncGameImmediately_start ser g w).1 = None.
Proof.
  unfold syncGameImmediately_start. cbn [store cancelPendingSync set_pending].
  destruct (savedGame (store w) g) as [[game sid]|]; [|done].
  destruct (auth_session (store w)); [|done]. split; [|done]. by apply prefix_app_r.
Qed.

Lemma advance_pushes_prefix t (w : World) :
  pushes w `prefix_of` pushes (advance ser t w).
Proof.
  unfold advance. destruct (pendingSync w) as [[d g]|]; [|done].
  case_bool_decide; [|done]. cbn [pushes set_now].
  apply (invoke_pushes_prefix g (set_pending None w)).
Qed.

Lemma step_pushes_prefix (w : World) (e : Event) :
  pushes w `prefix_of` pushes (step ser w e).
Proof.
  destruct e as [o|t| |g|n r|g row|g]; cbn [step].
  - by destruct (triggerSync_frame o w) as (_ & -> & _).
  - apply advance_pushes_prefix.
  - done.
  - apply immediately_start_pushes.
  - destruct (inflight w !! n) as [[[] g]|]; [| |done].
    + by destruct (resume_frame g r (set_inflight (delete n (inflight w)) w)) as (-> & _).
    + by destruct (resume_now_frame g r (set_inflight (delete n (inflight w)) w)) as (-> & _).
  - by destruct (handleRemoteUpdate_pushes g row w) as [-> _].
  - by destruct (handleRemoteDelete_pushes g w) as (-> & _).
Qed.

End EngineMore.

(** X6.  [triggerSync] touches nothing but the debounce timer, and it
    touches the timer only for a game that exists under a non-empty id and
    has a non-empty [savedId] (the game named in the call or, when none is
    named, the selected one); the timer is then due 1000 ms from now. *)
Theorem triggerSync_only_for_saved_games (o : option string) (w : World) :
  store (triggerSync o w) = store w
  ∧ pushes (triggerSync o w) = pushes w
  ∧ inflight (triggerSync o w) = inflight w
  ∧ (triggerSync o w = w
     ∨ ∃ g game sid,
         (o = Some g ∨ (o = None ∧ games_selected (store w) = Some g))
         ∧ g ≠ ""
         ∧ games_games (store w) !! g = Some game
         ∧ savedId game = Some sid ∧ sid ≠ ""
         ∧ pendingSync (triggerSync o w) = Some (now w + SYNC_DEBOUNCE_MS, g)).
Proof.
  destruct (triggerSync_frame o w) as (H1 & H2 & H3 & _).
  repeat (split; [done|]).
  unfold triggerSync.
  set (target := match o with Some g => Some g | None => games_selected (store w) end).
  assert (∀ g, target = Some g →
               o = Some g ∨ (o = None ∧ games_selected (store w) = Some g)) as Ht.
  { intros g Hg. subst target. destruct o; [left; congruence | right; done]. }
  destruct target as [g|]; cbn; [|by left].
  case_bool_decide as Hne; [|by left].
  destruct (savedGame (store w) g) as [[game sid]|] eqn:Hs; [|by left].
  apply savedGame_Some in Hs as (Hg & Hsid & Hn).
  right. exists g, game, sid. repeat split; try done. by apply Ht.
Qed.

(** X7.  A debounce timer that comes due when nobody is signed in, or when
    its game is gone or no longer saved, is used up without sending
    anything: no request, no change to the store, and no timer left. *)
Theorem due_timer_without_session_or_game (ser : Store → string → SerializedGame)
    (w : World) (d t : Z) (g : string) :
  pendingSync w = Some (d, g) → d ≤ t →
  savedGame (store w) g = None ∨ auth_session (store w) = None →
  store (advance ser t w) = store w
  ∧ pushes (advance ser t w) = pushes w
  ∧ inflight (advance ser t w) = inflight w
  ∧ pendingSync (advance ser t w) = None.
Proof.
  intros Hp Hd Hskip. rewrite (advance_due ser t d g) by done.
  cbn [store pushes inflight pendingSync set_now].
  destruct (invoke_skips ser g (set_pending None w)) as (-> & -> & -> & ->); done.
Qed.

Lemma due_timer_without_session_or_game_witness :
  let w := triggerSync (Some "A") Scenario.w0 in
  let w' := modStore (λ _, Scenario.stSignedOut) w in
  store (advance serializeGame 1000 w') = store w'
  ∧ pushes (advance serializeGame 1000 w') = pushes w'
  ∧ inflight (advance serializeGame 1000 w') = inflight w'
  ∧ pendingSync (advance serializeGame 1000 w') = None.
Proof.
  apply (due_timer_without_session_or_game serializeGame _ 1000 1000 "A").
  - reflexivity.
  - lia.
  - right. reflexivity.
Defined.

(** X8.  No event ever takes back a request: along any run the requests
    sent so far stay a prefix of the requests sent later.  Only the clock
    (a due timer) and [syncGameImmediately] can add one; calls of
    [triggerSync], cancellations, responses and inbound notifications send
    nothing. *)
Theorem requests_only_grow (ser : Store → string → SerializedGame)
    (w : World) (es : list Event) :
  pushes w `prefix_of` pushes (run ser w es)
  ∧ (∀ e, (∀ t, e ≠ EvAdvance t) → (∀ g, e ≠ EvSyncImmediately g) →
          pushes (step ser w e) = pushes w).
Proof.
  split.
  - revert w. induction es as [|e es IH]; intros w; [done|].
    rewrite run_cons. etrans; [apply (step_pushes_prefix ser w e)|apply IH].
  - intros e Ht Hg. destruct e as [o|t| |g|n r|g row|g]; cbn [step].
    + by destruct (triggerSync_frame o w) as (_ & -> & _).
    + by destruct (Ht t).
    + done.
    + by destruct (Hg g).
    + destruct (inflight w !! n) as [[[] g]|]; [| |done].
      * by destruct (resume_frame g r (set_inflight (delete n (inflight w)) w)) as (-> & _).
      * by destruct (resume_now_frame g r (set_inflight (delete n (inflight w)) w))
          as (-> & _).
    + by destruct (handleRemoteUpdate_pushes ser g row w) as [-> _].
    + by destruct (handleRemoteDelete_pushes g w) as (-> & _).
Qed.

Lemma requests_only_grow_witness :
  pushes (step serializeGame Scenario.wPending (EvTriggerSync (Some "B")))
  = pushes Scenario.wPending.
Proof.
  destruct (requests_only_grow serializeGame Scenario.wPending []) as [_ H].
  apply H; discriminate.
Defined.


Section ApplyMore.

Lemma applyRemoteGameUpdate_store_other_game gameId merged v st k :
  k ≠ gameId →
  games_games (applyRemoteGameUpdate_store gameId merged v st) !! k = games_games st !! k.
Proof.
  intros Hk. unfold applyRemoteGameUpdate_store.
  destruct (games_games st !! gameId) as [localGame|]; [|done].
  rewrite applySolvers_games, applyFactories_games. cbn.
  rewrite lookup_insert_ne by done. by rewrite clearOldFactories_games.
Qed.

Lemma applyFactories_stored fs st f :
  NoDup (factory_id <$> fs) → f ∈ fs →
  factories_factories (applyFactories fs st) !! factory_id f = Some f.
Proof.
  revert st. induction fs as [|x fs IH]; intros st Hnd Hf; [by apply elem_of_nil in Hf|].
  rewrite fmap_cons in Hnd. apply NoDup_cons in Hnd as [Hx Hnd].
  rewrite applyFactories_cons. apply elem_of_cons in Hf as [->|Hf].
  - rewrite applyFactories_other by done. cbn. by rewrite lookup_insert_eq.
  - by apply IH.
Qed.

Lemma applySolvers_stored ss st x :
  NoDup (solver_id <$> ss) → x ∈ ss →
  solvers_instances (applySolvers ss st) !! solver_id x = Some x.
Proof.
  revert st. induction ss as [|y ss IH]; intros st Hnd Hx; [by apply elem_of_nil in Hx|].
  rewrite fmap_cons in Hnd. apply NoDup_cons in Hnd as [Hy Hnd].
  rewrite applySolvers_cons. apply elem_of_cons in Hx as [->|Hx].
  - rewrite applySolvers_other by done. cbn. by rewrite lookup_insert_eq.
  - by apply IH.
Qed.

Lemma clearOldFactories_rest S ids st :
  games_selected (clearOldFactories S ids st) = games_selected st
  ∧ auth_session (clearOldFactories S ids st) = auth_session st
  ∧ gameSave_isSaving (clearOldFactories S ids st) = gameSave_isSaving st.
Proof.
  revert st. induction ids as [|i ids IH]; intros st; [done|].
  rewrite clearOldFactories_cons. destruct (IH (if decide (i ∈ S) then st else delete_child i st))
    as (-> & -> & ->). by case_decide.
Qed.

Lemma applyFactories_rest fs st :
  games_selected (applyFactories fs st) = games_selected st
  ∧ auth_session (applyFactories fs st) = auth_session st
  ∧ gameSave_isSaving (applyFactories fs st) = gameSave_isSaving st.
Proof.
  revert st. induction fs as [|f fs IH]; intros st; [done|].
  rewrite applyFactories_cons.
  by destruct (IH (set_factories (<[factory_id f:=f]> (factories_factories st)) st))
    as (-> & -> & ->).
Qed.

Lemma applySolvers_rest ss st :
  games_selected (applySolvers ss st) = games_selected st
  ∧ auth_session (applySolvers ss st) = auth_session st
  ∧ gameSave_isSaving (applySolvers ss st) = gameSave_isSaving st.
Proof.
  revert st. induction ss as [|x ss IH]; intros st; [done|].
  rewrite applySolvers_cons.
  by destruct (IH (set_instances (<[solver_id x:=x]> (solvers_instances st)) st))
    as (-> & -> & ->).
Qed.

End ApplyMore.

(** ** gameCollaborationActions.ts *)

(** X9.  [applyRemoteGameUpdate] puts the merged snapshot into the store:
    when no two factories (solvers) of [merged] share an id, every factory
    (solver) of [merged] is afterwards found under its id. *)
Theorem applyRemoteGameUpdate_stores_merged (gameId : string) (merged : SerializedGame)
    (v : Z) (st : Store) (localGame : Game) :
  games_games st !! gameId = Some localGame →
  let st' := applyRemoteGameUpdate_store gameId merged v st in
  (NoDup (factory_id <$> factories merged) →
   ∀ f, f ∈ factories merged → factories_factories st' !! factory_id f = Some f)
  ∧ (NoDup (solver_id <$> solvers merged) →
     ∀ x, x ∈ solvers merged → solvers_instances st' !! solver_id x = Some x).
Proof.
  intros Hg st'. subst st'. unfold applyRemoteGameUpdate_store. rewrite Hg. split.
  - intros Hnd f Hf. rewrite applySolvers_factories. by apply applyFactories_stored.
  - intros Hnd x Hx. by apply applySolvers_stored.
Qed.

Lemma applyRemoteGameUpdate_stores_merged_witness :
  let st' := applyRemoteGameUpdate_store "A" Scenario.remoteData 6 Scenario.st0 in
  (NoDup (factory_id <$> factories Scenario.remoteData) →
   ∀ f, f ∈ factories Scenario.remoteData →
        factories_factories st' !! factory_id f = Some f)
  ∧ (NoDup (solver_id <$> solvers Scenario.remoteData) →
     ∀ x, x ∈ solvers Scenario.remoteData →
          solvers_instances st' !! solver_id x = Some x).
Proof.
  apply (applyRemoteGameUpdate_stores_merged "A" Scenario.remoteData 6 Scenario.st0
           Scenario.gameA).
  vm_compute. reflexivity.
Defined.

(** X10.  What [applyRemoteGameUpdate] leaves alone: every other game
    record, the selection, the session and the saving flag; and every
    factory (solver) entry whose id is neither in the local game's child
    list nor the id of a factory (solver) of [merged]. *)
Theorem applyRemoteGameUpdate_leaves_rest (gameId : string) (merged : SerializedGame)
    (v : Z) (st : Store) :
  let st' := applyRemoteGameUpdate_store gameId merged v st in
  (∀ k, k ≠ gameId → games_games st' !! k = games_games st !! k)
  ∧ games_selected st' = games_selected st
  ∧ auth_session st' = auth_session st
  ∧ gameSave_isSaving st' = gameSave_isSaving st
  ∧ (∀ localGame k,
       games_games st !! gameId = Some localGame →
       k ∉ factoriesIds localGame →
       (k ∉ (factory_id <$> factories merged) →
        factories_factories st' !! k = factories_factories st !! k)
       ∧ (k ∉ (solver_id <$> solvers merged) →
          solvers_instances st' !! k = solvers_instances st !! k)).
Proof.
  intros st'. split; [intros k Hk; by apply applyRemoteGameUpdate_store_other_game|].
  subst st'. unfold applyRemoteGameUpdate_store.
  destruct (games_games st !! gameId) as [localGame|] eqn:Hg.
  - match goal with |- context [applySolvers ?ss ?x] =>
      destruct (applySolvers_rest ss x) as (-> & -> & ->) end.
    match goal with |- context [applyFactories ?fs ?x] =>
      destruct (applyFactories_rest fs x) as (-> & -> & ->) end.
    cbn [games_selected auth_session gameSave_isSaving set_games].
    match goal with |- context [clearOldFactories ?S ?ids ?x] =>
      destruct (clearOldFactories_rest S ids x) as (-> & -> & ->) end.
    repeat (split; [done|]).
    intros lg k [= <-] Hk. split.
    + intros Hm. rewrite applySolvers_factories, applyFactories_other by done. cbn.
      rewrite clearOldFactories_factories. rewrite decide_False; [done|]. by intros [? _].
    + intros Hm. rewrite applySolvers_other by done. rewrite applyFactories_instances. cbn.
      rewrite clearOldFactories_instances. rewrite decide_False; [done|]. by intros [? _].
  - split; [done|]. split; [done|]. split; [done|]. intros lg k [=].
Qed.

Lemma applyRemoteGameUpdate_leaves_rest_witness :
  games_games (applyRemoteGameUpdate_store "A" Scenario.remoteData 7 Scenario.st0) !! "B"
  = games_games Scenario.st0 !! "B".
Proof.
  destruct (applyRemoteGameUpdate_leaves_rest "A" Scenario.remoteData 7 Scenario.st0)
    as [H _].
  apply H. discriminate.
Defined.

(** X11.  Actions aimed at a game that is not in the store do not create
    it.  [applyRemoteGameUpdate] then leaves the store as it is, and a push
    response, whatever it carries, leaves the set of games as it is: a
    response that arrives after its game was removed does not bring the
    game back. *)
Theorem missing_game_is_not_created (w : World) (gameId : string) :
  (∀ merged v, games_games (store w) !! gameId = None →
     store (applyRemoteGameUpdate gameId merged v w) = store w)
  ∧ (∀ r, dom (games_games (store (syncGameToRemote_resume gameId r w)))
          = dom (games_games (store w))
          ∧ dom (games_games (store (syncGameImmediately_resume gameId r w).1))
            = dom (games_games (store w))).
Proof.
  split.
  - intros merged v Hg. unfold applyRemoteGameUpdate. by rewrite Hg.
  - assert (∀ v st, dom (games_games (setGameVersion_store gameId v st))
                    = dom (games_games st)) as Hset.
    { intros v st. unfold setGameVersion_store.
      destruct (games_games st !! gameId) as [g|] eqn:Hg; [|done]. cbn.
      rewrite dom_insert_L. apply elem_of_dom_2 in Hg.
      apply subseteq_union_1_L. by apply singleton_subseteq_l. }
    intros r. split.
    + unfold syncGameToRemote_resume, setSyncingState, modStore. cbn [store].
      destruct r as [m|v|e]; cbn beta; rewrite setSyncError_store; cbn [store logw];
        [done| |done].
      unfold setGameVersion, modStore. cbn [store]. apply Hset.
    + unfold syncGameImmediately_resume, setSyncingState, modStore.
      destruct r as [m|v|e]; cbn [fst store]; rewrite setSyncError_store; [done| |done].
      unfold setGameVersion, modStore. cbn [store]. apply Hset.
Qed.

Lemma missing_game_is_not_created_witness :
  store (applyRemoteGameUpdate "Z" Scenario.remoteData 7 Scenario.w0) = store Scenario.w0.
Proof.
  destruct (missing_game_is_not_created Scenario.w0 "Z") as [H _].
  apply H. vm_compute. reflexivity.
Defined.


(** ** useGameSubscription.ts *)

Section InboundMore.

Variable ser : Store → string → SerializedGame.

Lemma localVersion_present st g game :
  games_games st !! g = Some game → localVersion st g = default 1 (version game).
Proof. intros H. unfold localVersion. by rewrite H. Qed.

(** One notification, seen from the game stored under [gameId]. *)
Lemma handleRemoteUpdate_version g row w gameId :
  is_Some (games_games (store w) !! gameId) →
  is_Some (games_games (store (handleRemoteUpdate ser g row w)) !! gameId)
  ∧ localVersion (store (handleRemoteUpdate ser g row w)) gameId
    = if decide (g = gameId)
      then Z.max (localVersion (store w) gameId) (row_version row)
      else localVersion (store w) gameId.
Proof.
  intros [game Hgame].
  destruct (games_games (store w) !! g) as [lg|] eqn:Hlg.
  - destruct (decide (row_version row ≤ default 1 (version lg))) as [Hle|Hgt].
    + rewrite (handleRemoteUpdate_stale ser g row w lg) by done. cbn [store logw].
      split; [by eexists|]. case_decide as Hg; [|done]. subst g.
      rewrite (localVersion_present _ _ lg) by done. lia.
    + rewrite (handleRemoteUpdate_newer ser g row w lg) by (done || lia). cbv zeta.
      rewrite (applyRemoteGameUpdate_present g _ _ _ lg) by done.
      cbn [store logw modStore cancelPendingSync set_pending].
      case_decide as Hg.
      * subst g. rewrite Hlg in Hgame. injection Hgame as ->.
        match goal with |- context [applyRemoteGameUpdate_store gameId ?m ?v ?st] =>
          pose proof (applyRemoteGameUpdate_store_game gameId m v st game Hlg) as Happ end.
        split; [by eexists|].
        rewrite (localVersion_present _ _ _ Happ), (localVersion_present _ _ game) by done.
        cbn. lia.
      * unfold localVersion.
        rewrite applyRemoteGameUpdate_store_other_game by done.
        split; [by eexists|done].
  - assert (g ≠ gameId) as Hne by (intros ->; congruence).
    unfold handleRemoteUpdate. rewrite Hlg. cbn [store logw].
    split; [by eexists|]. by rewrite decide_False.
Qed.

(** A notification that is not applied changes nothing but the log. *)
Lemma handleRemoteUpdate_ignored g row w :
  games_games (store w) !! g = None
  ∨ (∃ lg, games_games (store w) !! g = Some lg ∧ row_version row ≤ default 1 (version lg)) →
  ∃ l, handleRemoteUpdate ser g row w = set_log l w.
Proof.
  intros [Hn | (lg & Hlg & Hle)].
  - unfold handleRemoteUpdate. rewrite Hn. by eexists.
  - rewrite (handleRemoteUpdate_stale ser g row w lg) by done. by eexists.
Qed.

Lemma invoke_set_log g l w :
  ∃ l', syncGameToRemote_invoke ser g (set_log l w)
        = set_log l' (syncGameToRemote_invoke ser g w).
Proof.
  unfold syncGameToRemote_invoke. cbn [store set_log].
  destruct (savedGame (store w) g) as [[game sid]|]; [|by eexists].
  destruct (auth_session (store w)); by eexists.
Qed.

Lemma advance_set_log t l w :
  ∃ l', advance ser t (set_log l w) = set_log l' (advance ser t w).
Proof.
  unfold advance. cbn [pendingSync set_log now].
  destruct (pendingSync w) as [[d g]|]; [|by eexists].
  case_bool_decide; [|by eexists].
  destruct (invoke_set_log g l (set_pending None w)) as [l' Hl'].
  change (set_pending None (set_log l w)) with (set_log l (set_pending None w)).
  rewrite Hl'. by eexists.
Qed.

End InboundMore.

(** X12.  Inbound updates never lower a version, and their order does not
    matter for it: after any sequence of 'row updated' notifications, for
    whatever games, a game that was in the store is still there and its
    version ([?? 1]) is the greatest of its earlier version and the
    versions delivered for it. *)
Theorem inbound_version_is_max (ser : Store → string → SerializedGame)
    (rows : list (string * RemoteGameRow)) (w : World) (gameId : string) :
  is_Some (games_games (store w) !! gameId) →
  let w' := run ser w ((λ p, EvRemoteUpdate p.1 p.2) <$> rows) in
  is_Some (games_games (store w') !! gameId)
  ∧ localVersion (store w') gameId
    = foldl Z.max (localVersion (store w) gameId) (deliveredVersions gameId rows).
Proof.
  revert w. induction rows as [|[g row] rows IH]; intros w Hg; [done|].
  cbn zeta. rewrite fmap_cons, run_cons. cbn [step fst snd].
  destruct (handleRemoteUpdate_version ser g row w gameId Hg) as [Hs Hv].
  destruct (IH _ Hs) as [IH1 IH2]. split; [exact IH1|].
  rewrite IH2, Hv. unfold deliveredVersions.
  destruct (decide (g = gameId)) as [->|Hne].
  - by rewrite filter_cons_True by done.
  - by rewrite filter_cons_False by done.
Qed.

Lemma inbound_version_is_max_witness :
  let rows := [("A", Scenario.rowA 7); ("B", Scenario.rowA 9); ("A", Scenario.rowA 6)] in
  let w' := run serializeGame Scenario.w0 ((λ p, EvRemoteUpdate p.1 p.2) <$> rows) in
  is_Some (games_games (store w') !! "A")
  ∧ localVersion (store w') "A"
    = foldl Z.max (localVersion (store Scenario.w0) "A") (deliveredVersions "A" rows).
Proof.
  apply (inbound_version_is_max serializeGame
           [("A", Scenario.rowA 7); ("B", Scenario.rowA 9); ("A", Scenario.rowA 6)]
           Scenario.w0 "A").
  eexists. vm_compute. reflexivity.
Defined.

(** X13.  The echo of one's own write is not merged.  Once a push has
    succeeded and the remote has echoed version [v], a notification for that
    game carrying [v] (or less) leaves the store and the timer as they are. *)
Theorem own_echo_is_discarded (ser : Store → string → SerializedGame)
    (w : World) (gameId : string) (g : Game) (v : Z) (row : RemoteGameRow) :
  games_games (store w) !! gameId = Some g →
  row_version row ≤ v →
  let w1 := syncGameToRemote_resume gameId (RespData v) w in
  store (handleRemoteUpdate ser gameId row w1) = store w1
  ∧ pendingSync (handleRemoteUpdate ser gameId row w1) = pendingSync w1
  ∧ mergesApplied (handleRemoteUpdate ser gameId row w1) = mergesApplied w1.
Proof.
  intros Hg Hle w1.
  assert (games_games (store w1) !! gameId = Some (with_version g v)) as Hg1.
  { subst w1. unfold syncGameToRemote_resume, setSyncingState, modStore. cbn [store].
    by apply setGameVersion_store_lookup. }
  rewrite (handleRemoteUpdate_stale ser gameId row w1 (with_version g v)) by done.
  repeat split. rewrite !mergesApplied_logw. cbn [log_msg].
  rewrite !decide_False by discriminate. lia.
Qed.

Lemma own_echo_is_discarded_witness :
  let w1 := syncGameToRemote_resume "A" (RespData 6) Scenario.w0 in
  store (handleRemoteUpdate serializeGame "A" (Scenario.rowA 6) w1) = store w1
  ∧ pendingSync (handleRemoteUpdate serializeGame "A" (Scenario.rowA 6) w1) = pendingSync w1
  ∧ mergesApplied (handleRemoteUpdate serializeGame "A" (Scenario.rowA 6) w1)
    = mergesApplied w1.
Proof.
  apply (own_echo_is_discarded serializeGame Scenario.w0 "A" Scenario.gameA 6
           (Scenario.rowA 6)).
  - vm_compute. reflexivity.
  - vm_compute. discriminate.
Defined.


(** X14.  A notification that is not applied (its game is not in the store,
    or its version is not above the local one) does not disturb a scheduled
    push: whenever the clock then runs on, the store, the requests sent and
    the timer are what they would have been without the notification. *)
Theorem ignored_update_keeps_pending_push (ser : Store → string → SerializedGame)
    (w : World) (gameId : string) (row : RemoteGameRow) (t : Z) :
  games_games (store w) !! gameId = None
  ∨ (∃ lg, games_games (store w) !! gameId = Some lg
           ∧ row_version row ≤ default 1 (version lg)) →
  let w' := handleRemoteUpdate ser gameId row w in
  pendingSync w' = pendingSync w
  ∧ store (advance ser t w') = store (advance ser t w)
  ∧ pushes (advance ser t w') = pushes (advance ser t w)
  ∧ inflight (advance ser t w') = inflight (advance ser t w)
  ∧ pendingSync (advance ser t w') = pendingSync (advance ser t w).
Proof.
  intros Hign w'. subst w'.
  destruct (handleRemoteUpdate_ignored ser gameId row w Hign) as [l ->].
  destruct (advance_set_log ser t l w) as [l' ->]. done.
Qed.

Lemma ignored_update_keeps_pending_push_witness :
  let w := Scenario.wPending in
  let w' := handleRemoteUpdate serializeGame "A" (Scenario.rowA 5) w in
  pendingSync w' = pendingSync w
  ∧ store (advance serializeGame 1000 w') = store (advance serializeGame 1000 w)
  ∧ pushes (advance serializeGame 1000 w') = pushes (advance serializeGame 1000 w)
  ∧ inflight (advance serializeGame 1000 w') = inflight (advance serializeGame 1000 w)
  ∧ pendingSync (advance serializeGame 1000 w')
    = pendingSync (advance serializeGame 1000 w).
Proof.
  apply (ignored_update_keeps_pending_push serializeGame Scenario.wPending "A"
           (Scenario.rowA 5) 1000).
  right. exists Scenario.gameA. split; [vm_compute; reflexivity | vm_compute; discriminate].
Defined.

(** X15.  [syncGameImmediately] always clears the debounce timer, whichever
    game the timer was for.  Without a saved game or without a session it
    returns false at once and sends nothing; otherwise it sends one request,
    for the local version plus one; and in either case no request follows
    from the timer it cleared, however far the clock runs. *)
Theorem syncGameImmediately_supersedes_timer (ser : Store → string → SerializedGame)
    (w : World) (g : string) :
  let w1 := (syncGameImmediately_start ser g w).1 in
  let result := (syncGameImmediately_start ser g w).2 in
  pendingSync w1 = None
  ∧ (savedGame (store w) g = None ∨ auth_session (store w) = None →
     result = Some false ∧ pushes w1 = pushes w ∧ store w1 = store w)
  ∧ (∀ game sid s,
       savedGame (store w) g = Some (game, sid) → auth_session (store w) = Some s →
       result = None
       ∧ pushes w1 = pushes w ++ [mkPush sid (ser (set_isSaving true (store w)) g)
                                    (default 1 (version game) + 1) (game_name game)])
  ∧ (∀ ts : list Z, pushes (run ser w1 (EvAdvance <$> ts)) = pushes w1).
Proof.
  intros w1 result.
  assert (pendingSync w1 = None) as Hp by apply immediately_start_pushes.
  split; [done|]. split; [|split].
  - intros Hskip. subst w1 result. unfold syncGameImmediately_start.
    cbn [store cancelPendingSync set_pending].
    destruct (savedGame (store w) g) as [[game sid]|]; [|done].
    destruct Hskip as [?|Hs]; [done|]. by rewrite Hs.
  - intros game sid s Hg Hs. subst w1 result. unfold syncGameImmediately_start.
    cbn [store cancelPendingSync set_pending]. by rewrite Hg, Hs.
  - intros ts. by destruct (idle_clock_is_silent ser ts w1 Hp) as (_ & -> & _).
Qed.

Lemma syncGameImmediately_supersedes_timer_witness :
  (syncGameImmediately_start serializeGame "A" Scenario.wSignedOut).2 = Some false.
Proof.
  destruct (syncGameImmediately_supersedes_timer serializeGame Scenario.wSignedOut "A")
    as (_ & H & _).
  apply H. right. reflexivity.
Defined.

(** X16.  The saving flag is one flag, not a count: the response to any
    in-flight push, successful or not, switches it off and takes that push
    (and no other) off the list, so with two pushes in flight the flag is
    off while one of them is still under way. *)
Theorem any_response_clears_saving_flag (ser : Store → string → SerializedGame)
    (w : World) (n : nat) (k : PushKind) (g : string) (r : PushResponse) :
  inflight w !! n = Some (k, g) →
  let w' := step ser w (EvPushResponse n r) in
  gameSave_isSaving (store w') = false
  ∧ inflight w' = delete n (inflight w)
  ∧ ((2 ≤ length (inflight w))%nat → inflight w' ≠ []).
Proof.
  intros Hn w'. subst w'. cbn [step]. rewrite Hn.
  assert (length (delete n (inflight w)) = pred (length (inflight w))) as Hlen.
  { rewrite length_delete; [lia|]. by eexists. }
  assert ((2 ≤ length (inflight w))%nat → delete n (inflight w) ≠ []) as Hne.
  { intros H2 Hnil. rewrite Hnil in Hlen. cbn in Hlen. lia. }
  destruct k.
  - destruct (resume_frame g r (set_inflight (delete n (inflight w)) w)) as (_ & -> & _).
    split; [done|]. split; done.
  - destruct (resume_now_frame g r (set_inflight (delete n (inflight w)) w)) as (_ & -> & _).
    split; [|split; done].
    unfold syncGameImmediately_resume. by destruct r.
Qed.

Lemma any_response_clears_saving_flag_witness :
  let w :=
    run serializeGame Scenario.w0
      [EvTriggerSync (Some "A"); EvAdvance 1000; EvSyncImmediately "B"] in
  let w' := step serializeGame w (EvPushResponse 0 (RespData 6)) in
  gameSave_isSaving (store w) = true
  ∧ gameSave_isSaving (store w') = false
  ∧ inflight w' = [(Immediate, "B")].
Proof.
  destruct (any_response_clears_saving_flag serializeGame
              (run serializeGame Scenario.w0
                 [EvTriggerSync (Some "A"); EvAdvance 1000; EvSyncImmediately "B"])
              0 Debounced "A" (RespData 6)) as (H1 & H2 & _); [reflexivity|].
  split; [reflexivity|]. split; [exact H1 | exact H2].
Defined.


(** ** AuthSessionManager.tsx *)

Section AuthMore.

Lemma fireDue_none t a :
  timers a = ∅ → timers (fireDue t a) = ∅ ∧ refreshing (fireDue t a) = refreshing a
                 ∧ nextTimer (fireDue t a) = nextTimer a
                 ∧ refreshTimeoutRef (fireDue t a) = refreshTimeoutRef a.
Proof.
  intros He. unfold fireDue. rewrite He, !map_filter_empty, map_size_empty. done.
Qed.

Lemma clocks_without_timer ts : ∀ a,
  timers a = ∅ →
  timers (auth_run a (InClock <$> ts)) = ∅
  ∧ refreshing (auth_run a (InClock <$> ts)) = refreshing a.
Proof.
  induction ts as [|t ts IH]; intros a He; [done|].
  rewrite fmap_cons. change (auth_run a (InClock t :: (InClock <$> ts)))
    with (auth_run (fireDue t a) (InClock <$> ts)).
  destruct (fireDue_none t a He) as (H1 & H2 & _).
  destruct (IH _ H1) as [-> ->]. done.
Qed.

Lemma iter_start_session n a :
  observedSession (Nat.iter n refreshCallback_start a) = observedSession a.
Proof. induction n as [|n IH]; [done|]. by rewrite Nat.iter_succ. Qed.

Lemma onAuthStateChange_signed_out_eq s a :
  onAuthStateChange SIGNED_OUT s a
  = setSession s (clearRefreshTimeout
                    (authLogw (mkLog authLogger Info "Auth state changed:" []) a)).
Proof. reflexivity. Qed.

Lemma onAuthStateChange_other s a :
  onAuthStateChange OTHER_CHANGE s a
  = setSession s (authLogw (mkLog authLogger Info "Auth state changed:" []) a).
Proof. reflexivity. Qed.

Lemma scheduleIfExpiryKnown_unknown s a :
  (∀ session, s = Some session → truthy_num (expires_at session) = false) →
  scheduleIfExpiryKnown s a = a.
Proof.
  intros H. unfold scheduleIfExpiryKnown. destruct s as [session|]; [|done].
  specialize (H session eq_refl). destruct (expires_at session) as [e|]; [|done].
  by rewrite H.
Qed.

End AuthMore.

(** X17.  Sign-out and unmount tear the timer down: in any state the
    component can reach, after a SIGNED_OUT event (whatever session it
    carries) or after the effect's cleanup no timeout is outstanding, and
    however far the clock runs afterwards no refresh callback starts. *)
Theorem teardown_clears_refresh_timer (t0 : Z) (inputs : list AuthInput)
    (s : option Session) (ts : list Z) :
  let a := auth_run (auth_init t0) inputs in
  let out := onAuthStateChange SIGNED_OUT s a in
  let gone := onUnmount a in
  timers out = ∅ ∧ observedSession out = s ∧ timers gone = ∅
  ∧ refreshing (auth_run out (InClock <$> ts)) = refreshing a
  ∧ refreshing (auth_run gone (InClock <$> ts)) = refreshing a.
Proof.
  intros a out gone.
  assert (auth_inv a) as Hinv by (apply auth_run_inv, auth_inv_init).
  assert (timers out = ∅) as Ho.
  { subst out. rewrite onAuthStateChange_signed_out_eq.
    change (timers (setSession s ?x)) with (timers x).
    apply clearRefreshTimeout_timers. by apply authLogw_inv. }
  assert (timers gone = ∅) as Hg by (by apply clearRefreshTimeout_timers).
  split; [done|]. split; [done|]. split; [done|].
  destruct (clocks_without_timer ts out Ho) as [_ ->].
  destruct (clocks_without_timer ts gone Hg) as [_ ->].
  split.
  - subst out. rewrite onAuthStateChange_signed_out_eq.
    change (refreshing (setSession s ?x)) with (refreshing x).
    by destruct (clearRefreshTimeout_frame
                   (authLogw (mkLog authLogger Info "Auth state changed:" []) a))
      as (_ & _ & _ & ->).
  - subst gone. unfold onUnmount.
    by destruct (clearRefreshTimeout_frame a) as (_ & _ & _ & ->).
Qed.

(** X18.  Teardown does not reach a refresh that is already under way: if a
    refresh call is in flight at sign-out or unmount and then succeeds with
    a session of known expiry, its continuation schedules a new timeout all
    the same. *)
Theorem inflight_refresh_reschedules_after_teardown (t0 : Z) (inputs : list AuthInput)
    (n : nat) (s : Session) (e : Z) :
  let a := auth_run (auth_init t0) inputs in
  refreshing a = S n → expires_at s = Some e → e ≠ 0 →
  let due := clock a + refreshDelay e (clock a) in
  timers (auth_run a [InAuthStateChange SIGNED_OUT None; InRefreshResult (Some s)])
  = {[ nextTimer a := due ]}
  ∧ timers (auth_run a [InUnmount; InRefreshResult (Some s)]) = {[ nextTimer a := due ]}.
Proof.
  intros a Hr He Hz due.
  assert (auth_inv a) as Hinv by (apply auth_run_inv, auth_inv_init).
  assert (∀ b, auth_inv b → refreshing b = S n → clock b = clock a →
               nextTimer b = nextTimer a →
               timers (auth_step b (InRefreshResult (Some s))) = {[ nextTimer a := due ]})
    as Hres.
  { intros b Hb Hrb Hc Hn. cbn [auth_step]. rewrite Hrb. unfold refreshCallback_resume.
    rewrite (scheduleIfExpiryKnown_known s e) by done.
    match goal with |- timers (scheduleTokenRefresh e ?x) = _ =>
      destruct (scheduleTokenRefresh_spec e x) as (-> & _) end; [exact Hb|].
    cbn [clock nextTimer setSession authLogw]. subst due. by rewrite Hc, Hn. }
  split.
  - change (auth_run a [InAuthStateChange SIGNED_OUT None; InRefreshResult (Some s)])
      with (auth_step (onAuthStateChange SIGNED_OUT None a) (InRefreshResult (Some s))).
    rewrite onAuthStateChange_signed_out_eq.
    destruct (clearRefreshTimeout_frame
                (authLogw (mkLog authLogger Info "Auth state changed:" []) a))
      as (Hc & Hn & _ & Hrr).
    apply Hres.
    + apply setSession_inv, clearRefreshTimeout_inv. by apply authLogw_inv.
    + cbn [refreshing setSession]. by rewrite Hrr.
    + cbn [clock setSession]. by rewrite Hc.
    + cbn [nextTimer setSession]. by rewrite Hn.
  - change (auth_run a [InUnmount; InRefreshResult (Some s)])
      with (auth_step (onUnmount a) (InRefreshResult (Some s))).
    destruct (clearRefreshTimeout_frame a) as (Hc & Hn & _ & Hrr).
    apply Hres; [by apply clearRefreshTimeout_inv | by rewrite <- Hr | done | done].
Qed.

Lemma inflight_refresh_reschedules_after_teardown_witness :
  let a := auth_run (auth_init 0) AuthScenario.inputs in
  timers (auth_run a [InAuthStateChange SIGNED_OUT None;
                      InRefreshResult (Some AuthScenario.second)])
  = {[ nextTimer a := clock a + refreshDelay 7200 (clock a) ]}
  ∧ timers (auth_run a [InUnmount; InRefreshResult (Some AuthScenario.second)])
    = {[ nextTimer a := clock a + refreshDelay 7200 (clock a) ]}.
Proof.
  apply (inflight_refresh_reschedules_after_teardown 0 AuthScenario.inputs 0
           AuthScenario.second 7200).
  - vm_compute. reflexivity.
  - reflexivity.
  - discriminate.
Defined.

(** X19.  A failed refresh ends the loop: the continuation with no session
    schedules nothing and keeps the session it had; so once the timeout has
    fired and the refresh has failed, nothing is outstanding and no later
    clock tick starts another refresh. *)
Theorem failed_refresh_is_not_retried (t0 : Z) (inputs : list AuthInput)
    (e t : Z) (ts : list Z) :
  let a := scheduleTokenRefresh e (auth_run (auth_init t0) inputs) in
  clock a + refreshDelay e (clock a) ≤ t →
  let fired := auth_step a (InClock t) in
  let failed := auth_step fired (InRefreshResult None) in
  refreshing fired = S (refreshing a)
  ∧ timers failed = ∅
  ∧ refreshing failed = refreshing a
  ∧ observedSession failed = observedSession a
  ∧ refreshing (auth_run failed (InClock <$> ts)) = refreshing a
  ∧ timers (auth_run failed (InClock <$> ts)) = ∅.
Proof.
  intros a Hdue fired failed.
  assert (auth_inv (auth_run (auth_init t0) inputs)) as Hinv
    by (apply auth_run_inv, auth_inv_init).
  destruct (scheduleTokenRefresh_spec e _ Hinv) as (Ht & _ & _ & Hc & _).
  fold a in Ht, Hc.
  destruct (fireDue_single t a _ _ Ht) as [_ Hfire].
  destruct Hfire as [Hf1 Hf2]; [by rewrite <- Hc|].
  assert (failed = authLogw (mkLog authLogger Warn
                     "Failed to refresh token, user may need to re-login" [])
                     (mkAuth (clock fired) (timers fired) (nextTimer fired)
                        (refreshTimeoutRef fired) (refreshing a)
                        (observedSession fired) (authLog fired))) as Hfail.
  { subst failed. cbn [auth_step]. subst fired. cbn [auth_step]. by rewrite Hf2. }
  assert (timers failed = ∅) as Hte by (by rewrite Hfail).
  assert (refreshing failed = refreshing a) as Hre by (by rewrite Hfail).
  split; [exact Hf2|]. split; [done|]. split; [done|]. split.
  - rewrite Hfail. cbn [observedSession authLogw]. subst fired. cbn [auth_step].
    unfold fireDue. by rewrite iter_start_session.
  - destruct (clocks_without_timer ts failed Hte) as [-> ->]. done.
Qed.

Lemma failed_refresh_is_not_retried_witness :
  let a := scheduleTokenRefresh 3600 (auth_run (auth_init 0) []) in
  let failed := auth_step (auth_step a (InClock 3300000)) (InRefreshResult None) in
  timers failed = ∅
  ∧ refreshing (auth_run failed (InClock <$> [4000000; 9000000])) = refreshing a.
Proof.
  destruct (failed_refresh_is_not_retried 0 [] 3600 3300000 [4000000; 9000000])
    as (_ & H2 & _ & _ & H5 & _); [vm_compute; discriminate|].
  split; [exact H2 | exact H5].
Defined.



(** X21.  What does not reschedule.  An auth event other than SIGNED_IN,
    TOKEN_REFRESHED and SIGNED_OUT, and a session without a usable expiry
    (missing, or 0) arriving at load, sign-in or token refresh, are recorded
    as the current session but leave the timeouts exactly as they were: the
    timeout of the previous session keeps running. *)
Theorem session_without_reschedule (a : AuthManager) (s : option Session) :
  (timers (onAuthStateChange OTHER_CHANGE s a) = timers a
   ∧ observedSession (onAuthStateChange OTHER_CHANGE s a) = s)
  ∧ ((∀ session, s = Some session → truthy_num (expires_at session) = false) →
     timers (onGetSession s a) = timers a
     ∧ observedSession (onGetSession s a) = s
     ∧ timers (onAuthStateChange SIGNED_IN s a) = timers a
     ∧ observedSession (onAuthStateChange SIGNED_IN s a) = s
     ∧ timers (onAuthStateChange TOKEN_REFRESHED s a) = timers a
     ∧ observedSession (onAuthStateChange TOKEN_REFRESHED s a) = s).
Proof.
  split; [by rewrite onAuthStateChange_other|].
  intros Hunknown. unfold onGetSession.
  rewrite onAuthStateChange_signed_in, onAuthStateChange_token_refreshed.
  rewrite !scheduleIfExpiryKnown_unknown by done. done.
Qed.

Lemma session_without_reschedule_witness :
  let a := auth_run (auth_init 0) [InGetSession (Some AuthScenario.first)] in
  let s := Some (mkSession "me" (Some 0)) in
  timers (onAuthStateChange SIGNED_IN s a) = timers a
  ∧ observedSession (onAuthStateChange SIGNED_IN s a) = s.
Proof.
  destruct (session_without_reschedule
              (auth_run (auth_init 0) [InGetSession (Some AuthScenario.first)])
              (Some (mkSession "me" (Some 0)))) as [_ H].
  destruct H as (_ & _ & H3 & H4 & _).
  - intros session [= <-]. reflexivity.
  - split; [exact H3 | exact H4].
Defined.


(** ** loadRemoteGamesList.ts *)

Section LoadMore.

Context {V : Type}.

Lemma jsMapSet_new (k : string) (v : V) (m : list (string * V)) :
  k ∉ m.*1 → jsMapSet k v m = m ++ [(k, v)].
Proof.
  induction m as [|[k0 v0] m IH]; intros Hk; [done|].
  rewrite fmap_cons in Hk. apply not_elem_of_cons in Hk as [Hne Hk].
  cbn. rewrite decide_False by done. by rewrite IH.
Qed.

Lemma jsMapSet_keys_old (k : string) (v : V) (m : list (string * V)) :
  k ∈ m.*1 → (jsMapSet k v m).*1 = m.*1.
Proof.
  induction m as [|[k0 v0] m IH]; intros Hk; [by apply elem_of_nil in Hk|].
  cbn. destruct (decide (k0 = k)) as [->|Hne]; [done|].
  rewrite fmap_cons in Hk. apply elem_of_cons in Hk as [->|Hk]; [done|].
  cbn. by rewrite IH.
Qed.

Lemma jsMapSet_NoDup (k : string) (v : V) (m : list (string * V)) :
  NoDup m.*1 → NoDup (jsMapSet k v m).*1.
Proof.
  intros Hnd. destruct (decide (k ∈ m.*1)) as [Hin|Hout].
  - by rewrite jsMapSet_keys_old.
  - rewrite jsMapSet_new, fmap_app by done. apply NoDup_app.
    split; [done|]. split; [|apply NoDup_singleton].
    intros x Hx Hx'. apply list_elem_of_singleton in Hx'. by subst.
Qed.

Lemma jsMapSet_elem (k k' : string) (v v' : V) (m : list (string * V)) :
  NoDup m.*1 →
  (k', v') ∈ jsMapSet k v m ↔ (k' = k ∧ v' = v) ∨ (k' ≠ k ∧ (k', v') ∈ m).
Proof.
  induction m as [|[k0 v0] m IH]; intros Hnd.
  - cbn. rewrite list_elem_of_singleton. split.
    + intros [= -> ->]. by left.
    + intros [[-> ->]|[_ H]]; [done|by apply elem_of_nil in H].
  - rewrite fmap_cons in Hnd. apply NoDup_cons in Hnd as [Hk0 Hnd]. cbn in Hk0.
    cbn. destruct (decide (k0 = k)) as [->|Hne].
    + rewrite !elem_of_cons. split.
      * intros [[= -> ->]|Hin]; [by left|]. right. split; [|by right].
        intros ->. apply Hk0. apply list_elem_of_fmap. by exists (k, v').
      * intros [[-> ->]|[Hn [[= -> ->]|Hin]]]; [by left|done|by right].
    + rewrite !elem_of_cons, IH by done. split.
      * intros [[= -> ->]|[[-> ->]|[Hn Hin]]];
          [right; split; [done|by left] | by left | right; split; [done|by right]].
      * intros [[-> ->]|[Hn [[= -> ->]|Hin]]];
          [right; by left | by left | right; right; done].
Qed.

End LoadMore.

Section CombineMore.

Local Abbreviation foldGames l :=
  (foldl (λ m (g : RemoteLoadedGame), jsMapSet (rg_id g) g m) [] l).

Lemma foldGames_snoc (l : list RemoteLoadedGame) (g : RemoteLoadedGame) :
  foldGames (l ++ [g]) = jsMapSet (rg_id g) g (foldGames l).
Proof. by rewrite foldl_app. Qed.

Lemma foldGames_NoDup (l : list RemoteLoadedGame) : NoDup (foldGames l).*1.
Proof.
  induction l as [|g l IH] using rev_ind; [apply NoDup_nil_2|].
  rewrite foldGames_snoc. by apply jsMapSet_NoDup.
Qed.

Lemma last_with_id_snoc (l : list RemoteLoadedGame) (g v : RemoteLoadedGame) :
  (∃ l1 l2, l ++ [g] = l1 ++ v :: l2 ∧ rg_id v ∉ (rg_id <$> l2))
  ↔ v = g ∨ (rg_id v ≠ rg_id g
             ∧ ∃ l1 l2, l = l1 ++ v :: l2 ∧ rg_id v ∉ (rg_id <$> l2)).
Proof.
  split.
  - intros (l1 & l2 & Heq & Hlast).
    destruct l2 as [|x l2 _] using rev_ind.
    + left. apply (app_inj_tail l l1 g v) in Heq as [_ ?]. done.
    + right. rewrite app_comm_cons, app_assoc in Heq.
      apply app_inj_tail in Heq as [-> ->].
      rewrite fmap_app, not_elem_of_app in Hlast. destruct Hlast as [Hl2 Hx].
      split; [|by exists l1, l2].
      intros Heq. apply Hx. rewrite Heq. cbn. apply list_elem_of_singleton. done.
  - intros [->|(Hne & l1 & l2 & -> & Hlast)].
    + exists l, []. split; [done|]. cbn. apply not_elem_of_nil.
    + exists l1, (l2 ++ [g]). split; [by rewrite <- app_assoc|].
      rewrite fmap_app, not_elem_of_app. split; [done|].
      cbn. rewrite list_elem_of_singleton. done.
Qed.

Lemma foldGames_elem (l : list RemoteLoadedGame) (k : string) (v : RemoteLoadedGame) :
  (k, v) ∈ foldGames l
  ↔ k = rg_id v ∧ ∃ l1 l2, l = l1 ++ v :: l2 ∧ rg_id v ∉ (rg_id <$> l2).
Proof.
  revert k v. induction l as [|g l IH] using rev_ind; intros k v.
  - cbn. split; [intros H; by apply elem_of_nil in H|].
    intros (_ & l1 & l2 & Heq & _). by destruct l1.
  - rewrite foldGames_snoc, jsMapSet_elem by apply foldGames_NoDup.
    rewrite IH, last_with_id_snoc. split.
    + intros [[-> ->]|(Hne & -> & Hl)]; [split; [done|by left]|].
      split; [done|]. right. split; [|done]. done.
    + intros (-> & [->|(Hne & Hl)]); [by left|]. right. done.
Qed.

Lemma foldGames_distinct (l : list RemoteLoadedGame) :
  NoDup (rg_id <$> l) → foldGames l = (λ g, (rg_id g, g)) <$> l.
Proof.
  induction l as [|g l IH] using rev_ind; intros Hnd; [done|].
  rewrite fmap_app in Hnd. apply NoDup_app in Hnd as (Hl & Hdisj & _).
  rewrite foldGames_snoc, IH by done. rewrite jsMapSet_new.
  - by rewrite fmap_app.
  - rewrite <- list_fmap_compose. intros Hin. apply (Hdisj _ Hin). cbn. left.
Qed.

Lemma combineGames_NoDup (owned shared : list RemoteLoadedGame) :
  NoDup (rg_id <$> combineGames owned shared).
Proof.
  unfold combineGames, jsMapValues.
  assert (rg_id <$> (foldGames (owned ++ shared)).*2 = (foldGames (owned ++ shared)).*1)
    as ->; [|apply foldGames_NoDup].
  rewrite <- list_fmap_compose. apply list_fmap_ext.
  intros i [k v] Hi. cbn. apply list_elem_of_lookup_2 in Hi.
  by apply foldGames_elem in Hi as [-> _].
Qed.

End CombineMore.

(** X22.  Combining the owned and the shared games keeps one entry per id.
    The result has no two games with the same id; it holds exactly the games
    that are the last of their id in [owned ++ shared] (so where a game comes
    back from both queries the shared copy is the one kept); and when all ids
    are different it is [owned ++ shared] itself, in that order. *)
Theorem combineGames_dedupes (owned shared : list RemoteLoadedGame) :
  NoDup (rg_id <$> combineGames owned shared)
  ∧ (∀ g, g ∈ combineGames owned shared
          ↔ ∃ l1 l2, owned ++ shared = l1 ++ g :: l2 ∧ rg_id g ∉ (rg_id <$> l2))
  ∧ (∀ i, i ∈ (rg_id <$> combineGames owned shared)
          ↔ i ∈ (rg_id <$> owned ++ shared))
  ∧ (NoDup (rg_id <$> owned ++ shared) → combineGames owned shared = owned ++ shared).
Proof.
  unfold combineGames, jsMapValues.
  set (m := foldl (λ m (g : RemoteLoadedGame), jsMapSet (rg_id g) g m) [] (owned ++ shared)).
  assert (∀ g, g ∈ m.*2
               ↔ ∃ l1 l2, owned ++ shared = l1 ++ g :: l2 ∧ rg_id g ∉ (rg_id <$> l2)) as Hel.
  { intros g. rewrite list_elem_of_fmap. split.
    - intros ([k v] & -> & Hin). by apply foldGames_elem in Hin as [_ ?].
    - intros Hl. exists (rg_id g, g). split; [done|]. by apply foldGames_elem. }
  assert (rg_id <$> m.*2 = m.*1) as Hkeys.
  { rewrite <- list_fmap_compose. apply list_fmap_ext.
    intros i [k v] Hi. cbn. apply list_elem_of_lookup_2 in Hi.
    by apply foldGames_elem in Hi as [-> _]. }
  split; [rewrite Hkeys; apply foldGames_NoDup|]. split; [exact Hel|]. split.
  - intros i. rewrite !list_elem_of_fmap. split.
    + intros (g & -> & Hg). apply Hel in Hg as (l1 & l2 & Heq & _).
      exists g. split; [done|]. rewrite Heq. apply elem_of_app. right. left.
    + intros (g & -> & Hg).
      induction (owned ++ shared) as [|x l IH] using rev_ind in m, Hel, Hg |- *;
        [by apply elem_of_nil in Hg|].
      clear IH.
      assert (∃ g', rg_id g' = rg_id g
                    ∧ ∃ l1 l2, l ++ [x] = l1 ++ g' :: l2 ∧ rg_id g' ∉ (rg_id <$> l2))
        as (g' & Hid & Hlast).
      { clear Hel m. revert Hg. generalize (l ++ [x]). intros all Hg.
        induction all as [|y all IH] using rev_ind; [by apply elem_of_nil in Hg|].
        destruct (decide (rg_id y = rg_id g)) as [Hy|Hy].
        - exists y. split; [done|]. exists all, []. split; [done|]. apply not_elem_of_nil.
        - apply elem_of_app in Hg as [Hg|Hg].
          + destruct (IH Hg) as (g' & Hid & l1 & l2 & -> & Hl).
            exists g'. split; [done|]. exists l1, (l2 ++ [y]).
            split; [by rewrite <- app_assoc|].
            rewrite fmap_app, not_elem_of_app. split; [done|]. cbn.
            rewrite list_elem_of_singleton. congruence.
          + apply list_elem_of_singleton in Hg. by subst. }
      exists g'. split; [done|]. by apply Hel.
  - intros Hnd. subst m. rewrite foldGames_distinct by done.
    rewrite <- list_fmap_compose. apply list_fmap_id.
Qed.

Lemma combineGames_dedupes_witness :
  let g1 := mkRemoteLoaded "r1" (Some "mine") "me" None None None None 3 in
  let g2 := mkRemoteLoaded "r2" (Some "theirs") "you" None None None None 1 in
  combineGames [g1] [g2] = [g1] ++ [g2].
Proof.
  apply (proj2 (proj2 (proj2 (combineGames_dedupes _ _)))).
  cbn. apply NoDup_cons. split; [|apply NoDup_singleton].
  rewrite list_elem_of_singleton. discriminate.
Defined.


Ltac not_in_effects :=
  intros; rewrite ?elem_of_app, ?elem_of_cons, ?elem_of_nil; intuition discriminate.

(** X23.  A run of [loadRemoteGamesList].  Without a session it only logs:
    the loading flag is not touched and nothing is requested.  With a
    session the loading flag is switched on first and off last, on every
    path; the run ends either with the remote list being replaced, by a list
    without duplicate ids, or with one error notification, never both; the
    games of the shared ids are requested only when there are such ids; and
    an error in the first query stops the run before the second is made. *)
Theorem loadRemoteGamesList_outcomes (session : option Session)
    (owned : Response (list RemoteLoadedGame)) (sharedIds : Response (list string))
    (sharedGames : list string → Response (list RemoteLoadedGame)) :
  let trace := loadRemoteGamesList session owned sharedIds sharedGames in
  match session with
  | None => trace = [LConsoleLog "No session, skipping load"]
  | Some s =>
      ∃ body,
        trace = [LSetIsLoading true] ++ body ++ [LSetIsLoading false]
        ∧ (∀ b, LSetIsLoading b ∉ body)
        ∧ ((∃ gs, LSetRemoteGames gs ∈ body) ∨ (∃ m, LNotifyError "Error loading games" m ∈ body))
        ∧ (∀ gs m, LSetRemoteGames gs ∈ body → LNotifyError "Error loading games" m ∉ body)
        ∧ (∀ gs, LSetRemoteGames gs ∈ body → NoDup (rg_id <$> gs))
        ∧ (∀ ids, LSelectGamesByIds ids ∈ body → ids ≠ [] ∧ resp_data sharedIds = Some ids)
        ∧ (∀ m, resp_error owned = Some m →
                body = [LSelectOwnedGames (session_user_id s);
                        LConsoleError "Error loading games:";
                        LNotifyError "Error loading games" m])
  end.
Proof.
  intros trace. destruct session as [s|]; [|done].
  subst trace. unfold loadRemoteGamesList, loadRemoteGamesList_try.
  set (u := session_user_id s).
  assert (∀ (e : list LoadEffect) m,
            (∀ b, LSetIsLoading b ∉ e) → (∀ gs, LSetRemoteGames gs ∉ e) →
            let body := e ++ [LConsoleError "Error loading games:";
                              LNotifyError "Error loading games" m] in
            (∀ b, LSetIsLoading b ∉ body)
            ∧ ((∃ gs, LSetRemoteGames gs ∈ body)
               ∨ (∃ m, LNotifyError "Error loading games" m ∈ body))
            ∧ (∀ gs m, LSetRemoteGames gs ∈ body → LNotifyError "Error loading games" m ∉ body)
            ∧ (∀ gs, LSetRemoteGames gs ∈ body → NoDup (rg_id <$> gs))) as Herr.
  { intros e m He1 He2 body. subst body. repeat split.
    - intros b. rewrite elem_of_app, !elem_of_cons, elem_of_nil.
      intros [H|[H|[H|[]]]]; try discriminate. by apply He1 in H.
    - right. exists m. apply elem_of_app. right. right. left.
    - intros gs m'. rewrite elem_of_app, !elem_of_cons, elem_of_nil.
      intros [H|[H|[H|[]]]]; try discriminate. by apply He2 in H.
    - intros gs. rewrite elem_of_app, !elem_of_cons, elem_of_nil.
      intros [H|[H|[H|[]]]]; try discriminate. by apply He2 in H. }
  assert (∀ od shared (e : list LoadEffect),
            (∀ b, LSetIsLoading b ∉ e) → (∀ gs, LSetRemoteGames gs ∉ e) →
            (∀ t m, LNotifyError t m ∉ e) →
            let body := e ++ [LConsoleLog "Loaded games:";
                              LSetRemoteGames (combineGames (default [] od) shared)] in
            (∀ b, LSetIsLoading b ∉ body)
            ∧ ((∃ gs, LSetRemoteGames gs ∈ body)
               ∨ (∃ m, LNotifyError "Error loading games" m ∈ body))
            ∧ (∀ gs m, LSetRemoteGames gs ∈ body → LNotifyError "Error loading games" m ∉ body)
            ∧ (∀ gs, LSetRemoteGames gs ∈ body → NoDup (rg_id <$> gs))) as Hok.
  { intros od shared e He1 He2 He3 body. subst body. repeat split.
    - intros b. rewrite elem_of_app, !elem_of_cons, elem_of_nil.
      intros [H|[H|[H|[]]]]; try discriminate. by apply He1 in H.
    - left. eexists. apply elem_of_app. right. right. left.
    - intros gs m _. rewrite elem_of_app, !elem_of_cons, elem_of_nil.
      intros [H|[H|[H|[]]]]; try discriminate. by apply He3 in H.
    - intros gs. rewrite elem_of_app, !elem_of_cons, elem_of_nil.
      intros [Hin|[[=]|[[= ->]|[]]]]; [by apply He2 in Hin|]. apply combineGames_NoDup. }
  assert (∀ b, LSetIsLoading b ∉ [LSelectOwnedGames u]) as Hq1 by not_in_effects.
  assert (∀ gs, LSetRemoteGames gs ∉ [LSelectOwnedGames u]) as Hq1' by not_in_effects.
  assert (∀ b, LSetIsLoading b ∉ [LSelectOwnedGames u; LSelectSharedGameIds u]) as Hq2
    by not_in_effects.
  assert (∀ gs, LSetRemoteGames gs ∉ [LSelectOwnedGames u; LSelectSharedGameIds u]) as Hq2'
    by not_in_effects.
  assert (∀ t m, LNotifyError t m ∉ [LSelectOwnedGames u; LSelectSharedGameIds u]) as Hq2''
    by not_in_effects.
  destruct owned as [od [oe|]]; cbn [resp_error resp_data].
  { exists ([LSelectOwnedGames u] ++ [LConsoleError "Error loading games:";
                                       LNotifyError "Error loading games" oe]).
    split; [reflexivity|].
    destruct (Herr [LSelectOwnedGames u] oe Hq1 Hq1') as (H1 & H2 & H3 & H4).
    repeat (split; [done|]). split.
    - intros ids. cbn. rewrite !elem_of_cons, elem_of_nil. intuition discriminate.
    - by intros m [= ->]. }
  destruct sharedIds as [sd [se|]]; cbn [resp_error resp_data].
  { exists ([LSelectOwnedGames u; LSelectSharedGameIds u]
              ++ [LConsoleError "Error loading games:";
                  LNotifyError "Error loading games" se]).
    split; [reflexivity|].
    destruct (Herr [LSelectOwnedGames u; LSelectSharedGameIds u] se Hq2 Hq2')
      as (H1 & H2 & H3 & H4).
    repeat (split; [done|]). split; [|done].
    intros ids. cbn. rewrite !elem_of_cons, elem_of_nil. intuition discriminate. }
  assert (∀ shared,
    ∃ body,
      [LSetIsLoading true]
        ++ ([LSelectOwnedGames u] ++ [LSelectSharedGameIds u])
        ++ [LConsoleLog "Loaded games:";
            LSetRemoteGames (combineGames (default [] od) shared)]
        ++ [] ++ [LSetIsLoading false]
      = [LSetIsLoading true] ++ body ++ [LSetIsLoading false]
      ∧ (∀ b, LSetIsLoading b ∉ body)
      ∧ ((∃ gs, LSetRemoteGames gs ∈ body)
         ∨ (∃ m, LNotifyError "Error loading games" m ∈ body))
      ∧ (∀ gs m, LSetRemoteGames gs ∈ body → LNotifyError "Error loading games" m ∉ body)
      ∧ (∀ gs, LSetRemoteGames gs ∈ body → NoDup (rg_id <$> gs))
      ∧ (∀ ids, LSelectGamesByIds ids ∉ body)) as Hnoshared.
  { intros shared.
    exists ([LSelectOwnedGames u; LSelectSharedGameIds u]
              ++ [LConsoleLog "Loaded games:";
                  LSetRemoteGames (combineGames (default [] od) shared)]).
    split; [reflexivity|].
    destruct (Hok od shared [LSelectOwnedGames u; LSelectSharedGameIds u] Hq2 Hq2' Hq2'')
      as (H1 & H2 & H3 & H4).
    repeat (split; [done|]).
    intros ids. cbn. rewrite !elem_of_cons, elem_of_nil. intuition discriminate. }
  assert (∀ i ids, (∀ b, LSetIsLoading b ∉ [LSelectOwnedGames u; LSelectSharedGameIds u;
                                             LSelectGamesByIds (i :: ids)])
                   ∧ (∀ gs, LSetRemoteGames gs ∉ [LSelectOwnedGames u; LSelectSharedGameIds u;
                                                  LSelectGamesByIds (i :: ids)])
                   ∧ (∀ t m, LNotifyError t m ∉ [LSelectOwnedGames u; LSelectSharedGameIds u;
                                                 LSelectGamesByIds (i :: ids)])) as Hq3.
  { intros i ids. repeat split; not_in_effects. }
  destruct sd as [[|i ids]|].
  - destruct (Hnoshared []) as (body & Heq & H1 & H2 & H3 & H4 & H5).
    exists body. split; [exact Heq|]. repeat (split; [done|]).
    split; [|done]. intros ids Hin. by apply H5 in Hin.
  - destruct (Hq3 i ids) as (Hq3a & Hq3b & Hq3c).
    destruct (sharedGames (i :: ids)) as [gd [ge|]] eqn:Hr; cbn [resp_error resp_data].
    + exists ([LSelectOwnedGames u; LSelectSharedGameIds u; LSelectGamesByIds (i :: ids)]
                ++ [LConsoleError "Error loading games:";
                    LNotifyError "Error loading games" ge]).
      split; [reflexivity|].
      destruct (Herr [LSelectOwnedGames u; LSelectSharedGameIds u;
                      LSelectGamesByIds (i :: ids)] ge Hq3a Hq3b) as (H1 & H2 & H3 & H4).
      repeat (split; [done|]). split; [|done].
      intros ids'. cbn. rewrite !elem_of_cons, elem_of_nil.
      intros [H|[H|[H|[H|[H|[]]]]]]; try discriminate. by injection H as ->.
    + exists ([LSelectOwnedGames u; LSelectSharedGameIds u; LSelectGamesByIds (i :: ids)]
                ++ [LConsoleLog "Loaded games:";
                    LSetRemoteGames (combineGames (default [] od) (default [] gd))]).
      split; [reflexivity|].
      destruct (Hok od (default [] gd)
                  [LSelectOwnedGames u; LSelectSharedGameIds u;
                   LSelectGamesByIds (i :: ids)] Hq3a Hq3b Hq3c) as (H1 & H2 & H3 & H4).
      repeat (split; [done|]). split; [|done].
      intros ids'. cbn. rewrite !elem_of_cons, elem_of_nil.
      intros [H|[H|[H|[H|[H|[]]]]]]; try discriminate. by injection H as ->.
  - destruct (Hnoshared []) as (body & Heq & H1 & H2 & H3 & H4 & H5).
    exists body. split; [exact Heq|]. repeat (split; [done|]).
    split; [|done]. intros ids Hin. by apply H5 in Hin.
Qed.

Lemma loadRemoteGamesList_outcomes_witness :
  loadRemoteGamesList (Some Scenario.me) (mkResponse None (Some "offline"))
    (mkResponse None None) (λ _, mkResponse None None)
  = [LSetIsLoading true; LSelectOwnedGames "me"; LConsoleError "Error loading games:";
     LNotifyError "Error loading games" "offline"; LSetIsLoading false].
Proof.
  pose proof (loadRemoteGamesList_outcomes (Some Scenario.me)
                (mkResponse None (Some "offline")) (mkResponse None None)
                (λ _, mkResponse None None)) as H.
  cbv zeta in H. cbn iota in H.
  destruct H as (body & Ht & _ & _ & _ & _ & _ & Hb).
  rewrite Ht, (Hb "offline" eq_refl). reflexivity.
Defined.


(** ** saveRemoteGame.ts *)

Section SaveMore.

Variable ser : Store → string → SerializedGame.

Lemma ensureProfile_quiet userId profile user :
  filter (λ e, isGameWrite e) (ensureProfile userId profile user) = []
  ∧ (∀ b, SSetIsSaving b ∉ ensureProfile userId profile user)
  ∧ (∀ g v, SSetGameVersion g v ∉ ensureProfile userId profile user)
  ∧ (∀ g r, SSetRemoteGameData g r ∉ ensureProfile userId profile user)
  ∧ (∀ t m c, SNotify t m c ∉ ensureProfile userId profile user).
Proof.
  unfold ensureProfile. destruct profile as [p|]; [|destruct user as [u|]]; cbn;
    (split; [reflexivity|]);
    repeat split; intros; rewrite ?elem_of_cons, ?elem_of_nil; intuition discriminate.
Qed.

Lemma savedGame_None_present (st : Store) (key : string) (game : Game) :
  games_games st !! key = Some game →
  savedGame st key = None ↔ truthy_str (savedId game) = false.
Proof.
  intros Hg. unfold savedGame, truthy_str. rewrite Hg. cbn.
  destruct (savedId game) as [sid|]; cbn; [|done].
  by case_bool_decide.
Qed.

Lemma savedGame_Some_present (st : Store) (key : string) (game g' : Game) (sid : string) :
  games_games st !! key = Some game →
  savedGame st key = Some (g', sid) →
  g' = game ∧ savedId game = Some sid ∧ truthy_str (savedId game) = true.
Proof.
  intros Hg Hs. apply savedGame_Some in Hs as (Hg' & Hsid & Hne).
  rewrite Hg in Hg'. injection Hg' as <-. repeat split; [done|].
  unfold truthy_str. rewrite Hsid. by apply bool_decide_eq_true.
Qed.

End SaveMore.

(** X24.  A run of [saveRemoteGame] switches the saving flag on first and
    off last on every path, also when nobody is signed in; it sends at most
    one insert or update, and none without a session or without a game; and
    it sets the local version only after a successful write, to the version
    that write returned. *)
Theorem saveRemoteGame_brackets (ser : Store → string → SerializedGame)
    (gameId : option string) (session : option Session) (st : Store) (nowIso : string)
    (profile : option string) (user : option AuthUser) (write : WriteResult) :
  let key :=
    default "" (match gameId with Some g => Some g | None => games_selected st end) in
  ∃ body,
    saveRemoteGame ser gameId session st nowIso profile user write
    = [SSetIsSaving true] ++ body ++ [SSetIsSaving false]
    ∧ (∀ b, SSetIsSaving b ∉ body)
    ∧ (length (filter (λ e, isGameWrite e) body) ≤ 1)%nat
    ∧ (session = None ∨ games_games st !! key = None →
       filter (λ e, isGameWrite e) body = [])
    ∧ (∀ g v, SSetGameVersion g v ∈ body →
         ∃ row, write = WriteOk row ∧ v = saved_version row).
Proof.
  intros key. unfold saveRemoteGame.
  destruct session as [s|].
  2:{ exists [SConsoleLog "No session, skipping save, previous at "].
      split; [reflexivity|]. repeat split.
      - intros b Hb. apply list_elem_of_singleton in Hb. discriminate.
      - vm_compute. lia.
      - intros g v Hb. apply list_elem_of_singleton in Hb. discriminate. }
  unfold saveRemoteGame_try. fold key.
  destruct (ensureProfile_quiet (session_user_id s) profile user)
    as (Hw & Hf & Hv & _).
  set (e0 := ensureProfile (session_user_id s) profile user) in *.
  destruct (games_games st !! key) as [game|] eqn:Hg.
  - set (request :=
           if negb (truthy_str (savedId game))
           then SInsertGame (session_user_id s) (game_name game) (ser st key)
                  (default 1 (version game) + 1) nowIso
           else SUpdateGame (default "" (savedId game)) (game_name game) (ser st key)
                  (default 1 (version game) + 1) nowIso).
    assert (isGameWrite request = true) as Hreq
      by (subst request; by destruct (negb _)).
    assert (∀ b, request ≠ SSetIsSaving b) as Hreq1
      by (intros b; subst request; by destruct (negb _)).
    assert (∀ g v, request ≠ SSetGameVersion g v) as Hreq2
      by (intros g v; subst request; by destruct (negb _)).
    destruct write as [row|m].
    + set (note := if negb (truthy_str (savedId game))
                   then [SNotify "Game saved"
                           (dquote +:+ game_name game +:+ dquote
                            +:+ " has been saved to the cloud") (Some "green")]
                   else []).
      assert (filter (λ e, isGameWrite e) note = []) as Hn0
        by (subst note; by destruct (negb _)).
      assert (∀ e, e ∈ note → ∃ t m c, e = SNotify t m c) as Hn1.
      { intros e He. subst note. destruct (negb _); [|by apply elem_of_nil in He].
        apply list_elem_of_singleton in He. by eexists _, _, _. }
      exists (e0 ++ [request; SConsoleLog "Saved game to remote:";
                     SSetRemoteGameData (game_id game) row;
                     SSetGameVersion (game_id game) (saved_version row)] ++ note).
      split; [cbn beta iota; by rewrite <- !app_assoc|]. repeat split.
      * intros b. rewrite !elem_of_app, !elem_of_cons, elem_of_nil.
        intros [H|[[H|[H|[H|[H|[]]]]]|H]]; try discriminate.
        -- by apply Hf in H.
        -- by apply (Hreq1 b).
        -- apply Hn1 in H as (? & ? & ? & ?). discriminate.
      * rewrite !filter_app, Hw, Hn0, app_nil_r. cbn [app].
        rewrite filter_cons_True by (by rewrite Hreq). vm_compute. lia.
      * intros [?|?]; congruence.
      * intros g v. rewrite !elem_of_app, !elem_of_cons, elem_of_nil.
        intros [H|[[H|[H|[H|[H|[]]]]]|H]]; try discriminate.
        -- by apply Hv in H.
        -- by destruct (Hreq2 g v).
        -- injection H as -> ->. by exists row.
        -- apply Hn1 in H as (? & ? & ? & ?). discriminate.
    + exists (e0 ++ [request; SConsoleError "Error syncing factories:"]
                ++ [SConsoleError "Error saving game:";
                    SNotify "Error saving game" m (Some "red")]).
      split; [cbn beta iota; by rewrite <- !app_assoc|]. repeat split.
      * intros b. rewrite !elem_of_app, !elem_of_cons, elem_of_nil.
        intros [H|[[H|[H|[]]]|[H|[H|[]]]]]; try discriminate.
        -- by apply Hf in H.
        -- by apply (Hreq1 b).
      * rewrite !filter_app, Hw. cbn [app].
        rewrite filter_cons_True by (by rewrite Hreq). vm_compute. lia.
      * intros [?|?]; congruence.
      * intros g v. rewrite !elem_of_app, !elem_of_cons, elem_of_nil.
        intros [H|[[H|[H|[]]]|[H|[H|[]]]]]; try discriminate.
        -- by apply Hv in H.
        -- by destruct (Hreq2 g v).
  - exists (e0 ++ [SConsoleError "No game, skipping save";
                   SNotify "Error saving game" "No game selected" None]).
    split; [cbn beta iota; by rewrite <- !app_assoc|]. repeat split.
    + intros b. rewrite !elem_of_app, !elem_of_cons, elem_of_nil.
      intros [H|[H|[H|[]]]]; try discriminate. by apply Hf in H.
    + rewrite !filter_app, Hw. vm_compute. lia.
    + intros _. by rewrite !filter_app, Hw.
    + intros g v. rewrite !elem_of_app, !elem_of_cons, elem_of_nil.
      intros [H|[H|[H|[]]]]; try discriminate. by apply Hv in H.
Qed.

Lemma saveRemoteGame_brackets_witness :
  ∃ body,
    saveRemoteGame serializeGame (Some "A") None Scenario.st0 "2024-05-05" None None
      (WriteError "offline")
    = [SSetIsSaving true] ++ body ++ [SSetIsSaving false]
    ∧ filter (λ e, isGameWrite e) body = [].
Proof.
  destruct (saveRemoteGame_brackets serializeGame (Some "A") None Scenario.st0 "2024-05-05"
              None None (WriteError "offline")) as (body & Ht & _ & _ & H & _).
  exists body. split; [exact Ht|]. apply H. by left.
Defined.


(** X25.  Manual save and background sync agree on the target.  For a game
    that is in the store, with a user signed in: when the game has no
    (non-empty) [savedId], which is when [triggerSync] skips it, the save
    inserts a new row authored by the user; when it has one, the save
    updates that row, and row id, name and version (local version plus one)
    are those the debounced push sends.  A failed write notifies the error
    and sets no version; a successful one sets the version under the game's
    own id to the one returned. *)
Theorem saveRemoteGame_targets (ser : Store → string → SerializedGame)
    (gameId : option string) (s : Session) (st : Store) (nowIso : string)
    (profile : option string) (user : option AuthUser) (write : WriteResult)
    (game : Game) :
  let key :=
    default "" (match gameId with Some g => Some g | None => games_selected st end) in
  games_games st !! key = Some game →
  let trace := saveRemoteGame ser gameId (Some s) st nowIso profile user write in
  let target := default 1 (version game) + 1 in
  (savedGame st key = None →
     SInsertGame (session_user_id s) (game_name game) (ser st key) target nowIso ∈ trace
     ∧ ∀ a b c d e, SUpdateGame a b c d e ∉ trace)
  ∧ (∀ g' sid, savedGame st key = Some (g', sid) →
       SUpdateGame sid (game_name game) (ser st key) target nowIso ∈ trace
       ∧ (∀ a b c d e, SInsertGame a b c d e ∉ trace)
       ∧ ∀ w, store w = st → auth_session st = Some s →
           (λ r, (push_savedId r, push_name r, push_version r))
             <$> last (pushes (syncGameToRemote_invoke ser key w))
           = Some (sid, game_name game, target))
  ∧ (∀ m, write = WriteError m →
       SNotify "Error saving game" m (Some "red") ∈ trace
       ∧ ∀ g v, SSetGameVersion g v ∉ trace)
  ∧ (∀ row, write = WriteOk row →
       SSetGameVersion (game_id game) (saved_version row) ∈ trace).
Proof.
  intros key Hg trace target. subst trace. unfold saveRemoteGame, saveRemoteGame_try.
  fold key. rewrite Hg. fold target.
  destruct (ensureProfile_quiet (session_user_id s) profile user)
    as (_ & _ & Hv & _ & Hnote).
  set (e0 := ensureProfile (session_user_id s) profile user) in *.
  assert (∀ a b c d e, SInsertGame a b c d e ∉ e0) as Hi.
  { intros a b c d e. subst e0. unfold ensureProfile.
    destruct profile; [|destruct user]; cbn;
      rewrite ?elem_of_cons, ?elem_of_nil; intuition discriminate. }
  assert (∀ a b c d e, SUpdateGame a b c d e ∉ e0) as Hu.
  { intros a b c d e. subst e0. unfold ensureProfile.
    destruct profile; [|destruct user]; cbn;
      rewrite ?elem_of_cons, ?elem_of_nil; intuition discriminate. }
  split; [|split; [|split]].
  - intros Hnone. apply (savedGame_None_present st key game Hg) in Hnone.
    rewrite Hnone. cbn [negb]. split.
    + destruct write; cbn beta iota; rewrite !elem_of_app, !elem_of_cons; tauto.
    + intros a b c d e.
      destruct write; cbn beta iota; rewrite !elem_of_app, !elem_of_cons, ?elem_of_nil;
        intros H; decompose [or] H; try discriminate; by apply (Hu a b c d e).
  - intros g' sid Hsome.
    pose proof Hsome as Hsome'.
    apply (savedGame_Some_present st key game g' sid Hg) in Hsome as (-> & Hsid & Ht).
    rewrite Ht, Hsid. cbn [negb default]. split; [|split].
    + destruct write; cbn beta iota; rewrite !elem_of_app, !elem_of_cons; tauto.
    + intros a b c d e.
      destruct write; cbn beta iota; rewrite !elem_of_app, !elem_of_cons, ?elem_of_nil;
        intros H; decompose [or] H; try discriminate; by apply (Hi a b c d e).
    + intros w Hw Hs. subst st.
      destruct (invoke_pushes ser key w game sid s Hsome' Hs) as [-> _].
      by rewrite last_snoc.
  - intros m ->. cbn beta iota. split.
    + rewrite !elem_of_app, !elem_of_cons. tauto.
    + intros g v. rewrite !elem_of_app, !elem_of_cons, ?elem_of_nil.
      intros H. decompose [or] H; try discriminate; try done.
      * by apply (Hv g v).
      * by destruct (negb _).
  - intros row ->. cbn beta iota. rewrite !elem_of_app, !elem_of_cons. tauto.
Qed.

Lemma saveRemoteGame_targets_witness :
  let trace :=
    saveRemoteGame serializeGame (Some "A") (Some Scenario.me) Scenario.st0 "2024-05-05"
      (Some "me") None (WriteOk (mkSavedRow "rA" "owner" None (Some "tok") 6)) in
  SUpdateGame "rA" "Alpha" (serializeGame Scenario.st0 "A") 6 "2024-05-05" ∈ trace
  ∧ SSetGameVersion "A" 6 ∈ trace.
Proof.
  destruct (saveRemoteGame_targets serializeGame (Some "A") Scenario.me Scenario.st0
              "2024-05-05" (Some "me") None
              (WriteOk (mkSavedRow "rA" "owner" None (Some "tok") 6)) Scenario.gameA)
    as (_ & H2 & _ & H4); [vm_compute; reflexivity|].
  split.
  - apply (H2 Scenario.gameA "rA"). vm_compute. reflexivity.
  - apply (H4 _ eq_refl).
Defined.


(** ** SyncStatusIndicator.tsx *)

(** X26.  The badge and the engine.  Nothing is rendered exactly when the
    game is missing or nobody is signed in.  With both present the badge is
    "Local" exactly for the games [triggerSync] skips (no non-empty
    [savedId]).  And the saving flag is shared by all games: once the
    debounced push of one game has started, every saved game shows
    "Syncing", not only the one being pushed. *)
Theorem SyncStatusIndicator_and_engine (ser : Store → string → SerializedGame)
    (gameId : option string) (st : Store) :
  let key :=
    default "" (match gameId with Some g => Some g | None => games_selected st end) in
  (SyncStatusIndicator gameId st = None
   ↔ games_games st !! key = None ∨ auth_session st = None)
  ∧ (is_Some (games_games st !! key) → is_Some (auth_session st) →
     (SyncStatusIndicator gameId st = Some BadgeLocal ↔ savedGame st key = None))
  ∧ (∀ (w : World) d t g other,
       store w = st → pendingSync w = Some (d, g) → d ≤ t →
       is_Some (savedGame st g) → is_Some (auth_session st) →
       is_Some (savedGame st other) →
       SyncStatusIndicator (Some other) (store (advance ser t w)) = Some BadgeSyncing).
Proof.
  intros key. split; [|split].
  - unfold SyncStatusIndicator. fold key.
    destruct (games_games st !! key) as [game|]; [|by split; [left|]].
    destruct (auth_session st) as [s|]; [|by split; [right|]].
    split; [|by intros [?|?]].
    destruct (negb _); [done|]. destruct (gameSave_isSaving st); [done|].
    by destruct (_ && _).
  - intros [game Hg] [s Hs]. unfold SyncStatusIndicator. fold key. rewrite Hg, Hs.
    rewrite (savedGame_None_present st key game Hg).
    destruct (truthy_str (savedId game)); cbn [negb]; [|done].
    split; [|done]. destruct (gameSave_isSaving st); [done|]. by destruct (_ && _).
  - intros w d t g other Hw Hp Hd [[game sid] Hg] [s Hs] [[og osid] Ho]. subst st.
    rewrite (advance_due ser t d g) by done. cbn [store set_now].
    assert (store (syncGameToRemote_invoke ser g (set_pending None w))
            = set_isSaving true (store w)) as ->.
    { unfold syncGameToRemote_invoke. cbn [store set_pending]. by rewrite Hg, Hs. }
    apply savedGame_Some in Ho as (Hog & Hosid & Hne).
    unfold SyncStatusIndicator, set_isSaving.
    cbn [default games_games auth_session gameSave_isSaving]. unfold id.
    rewrite Hog, Hs. unfold truthy_str. rewrite Hosid.
    by rewrite bool_decide_eq_true_2.
Qed.

Lemma SyncStatusIndicator_and_engine_witness :
  SyncStatusIndicator (Some "B")
    (store (advance serializeGame 1000 Scenario.wPending)) = Some BadgeSyncing.
Proof.
  destruct (SyncStatusIndicator_and_engine serializeGame (Some "B") Scenario.st0)
    as (_ & _ & H).
  apply (H Scenario.wPending 1000 1000 "A" "B").
  - reflexivity.
  - reflexivity.
  - lia.
  - eexists. vm_compute. reflexivity.
  - by eexists.
  - eexists. vm_compute. reflexivity.
Defined.

(** ** SharedGameImporterPage.tsx *)

Ltac absurd_effect H :=
  exfalso; revert H; rewrite ?elem_of_app, ?elem_of_cons, ?elem_of_nil;
  intuition discriminate.

Section ImportMore.

Lemma navigations_app (a b : list ImportEffect) :
  navigations (a ++ b) = navigations a ++ navigations b.
Proof. unfold navigations. apply omap_app. Qed.

End ImportMore.

(** X27.  Opening a share link.  Every run navigates exactly once: to
    "/games" when the game was loaded, to "/factories/calculator" on every
    failure.  The game is fetched only when both link parameters are
    present and not empty.  The visitor is joined as a collaborator exactly
    when the fetch returned a game, no local game carries that [savedId],
    somebody is signed in, and that user is not the game's author; a game
    already in the list is refreshed with override and never joined again. *)
Theorem loadSharedGame_outcomes (gameSavedId token : option string)
    (session : option Session) (values : list Game) (fetch : FetchResult) :
  let t := loadSharedGame gameSavedId token session values fetch in
  let present := truthy_str gameSavedId && truthy_str token in
  (∃ path, navigations t = [path]
           ∧ (path = "/games" ∨ path = "/factories/calculator")
           ∧ (path = "/games" ↔ ∃ sg row o, ILoadRemoteGame sg row o ∈ t))
  ∧ ((∃ a b, IRpcGetGame a b ∈ t) ↔ present = true)
  ∧ ((∃ a b, IRpcJoinGame a b ∈ t)
     ↔ present = true
       ∧ ∃ row s, fetch = FetchData (Some row) ∧ session = Some s
                  ∧ fg_author_id row ≠ session_user_id s
                  ∧ ∀ g, g ∈ values → savedId g ≠ gameSavedId)
  ∧ (∀ sg row, ILoadRemoteGame sg row true ∈ t →
       ∃ g, g ∈ values ∧ savedId g = gameSavedId ∧ ∀ a b, IRpcJoinGame a b ∉ t).
Proof.
  intros t present. subst t present. unfold loadSharedGame.
  assert (∀ l : list ImportEffect,
            l = [IConsoleError "Missing gameId or token";
                 INotify "Error loading shared game" "Link is missing required parameters"
                   "red";
                 INavigate "/factories/calculator"] →
            (∃ path, navigations l = [path]
                     ∧ (path = "/games" ∨ path = "/factories/calculator")
                     ∧ (path = "/games" ↔ ∃ sg row o, ILoadRemoteGame sg row o ∈ l))
            ∧ ((∃ a b, IRpcGetGame a b ∈ l) ↔ false = true)
            ∧ (∀ a b, IRpcJoinGame a b ∉ l)
            ∧ (∀ sg row o, ILoadRemoteGame sg row o ∉ l)) as Hmissing.
  { intros l ->. split; [|split; [|split]].
    - exists "/factories/calculator". split; [reflexivity|]. split; [by right|].
      split; [discriminate|]. intros (sg & row & o & H). absurd_effect H.
    - split; [|done]. intros (a & b & H). absurd_effect H.
    - not_in_effects.
    - not_in_effects. }
  destruct gameSavedId as [sid|], token as [tok|];
    try (edestruct Hmissing as (H1 & H2 & H3 & H4); [reflexivity|];
         cbn [truthy_str andb]; rewrite ?andb_false_r;
         split; [exact H1|]; split; [exact H2|]; split;
         [split; [intros (a & b & H); by apply H3 in H | by intros [? _]]
         | intros sg row H; by apply H4 in H]).
  destruct (truthy_str (Some sid) && truthy_str (Some tok)) eqn:Hp.
  2:{ edestruct Hmissing as (H1 & H2 & H3 & H4); [reflexivity|].
      split; [exact H1|]. split; [exact H2|]. split.
      - split; [intros (a & b & H); by apply H3 in H | by intros [? _]].
      - intros sg row H. by apply H4 in H. }
  assert (∀ message,
            let l := [ISetStatus "Fetching game data..."; IRpcGetGame sid tok]
                       ++ [IConsoleError "Error loading shared game:";
                           INotify "Error loading shared game" message "red";
                           INavigate "/factories/calculator"] in
            (∃ path, navigations l = [path]
                     ∧ (path = "/games" ∨ path = "/factories/calculator")
                     ∧ (path = "/games" ↔ ∃ sg row o, ILoadRemoteGame sg row o ∈ l))
            ∧ ((∃ a b, IRpcGetGame a b ∈ l) ↔ true = true)
            ∧ (∀ a b, IRpcJoinGame a b ∉ l)
            ∧ (∀ sg row o, ILoadRemoteGame sg row o ∉ l)) as Hfailed.
  { intros message l. subst l. split; [|split; [|split]].
    - exists "/factories/calculator". split; [reflexivity|]. split; [by right|].
      split; [discriminate|]. intros (sg & row & o & H). absurd_effect H.
    - split; [done|]. intros _. exists sid, tok. apply elem_of_app. left. right. left.
    - not_in_effects.
    - not_in_effects. }
  destruct fetch as [message|[data|]].
  - destruct (Hfailed message) as (H1 & H2 & H3 & H4).
    split; [exact H1|]. split; [exact H2|]. split.
    + split; [intros (a & b & H); by apply H3 in H|]. by intros (_ & row & s & [=] & _).
    + intros sg row H. by apply H4 in H.
  - destruct (list_find (λ g, savedId g = Some sid) values) as [[i existing]|] eqn:Hfind.
    + apply list_find_Some in Hfind as (Hi & Hsaved & _).
      apply list_elem_of_lookup_2 in Hi.
      assert (∀ a b, IRpcJoinGame a b ∉
                ([ISetStatus "Fetching game data..."; IRpcGetGame sid tok]
                 ++ [ISetStatus "Game already in your list, refreshing...";
                     ILoadRemoteGame (fg_data data) data true;
                     ISelectGame (game_id existing); INavigate "/games";
                     INotify "Game refreshed"
                       (dquote +:+ game_name (game (fg_data data)) +:+ dquote
                        +:+ " data has been updated") "blue"])) as Hnj by not_in_effects.
      split; [|split; [|split]].
      * exists "/games". split; [reflexivity|]. split; [by left|]. split; [|done].
        intros _. exists (fg_data data), data, true.
        apply elem_of_app. right. right. left.
      * split; [done|]. intros _. exists sid, tok. apply elem_of_app. left. right. left.
      * split; [intros (a & b & H); by apply Hnj in H|].
        intros (_ & row & s & _ & _ & _ & Hall). by destruct (Hall existing Hi).
      * intros sg row _. exists existing. done.
    + apply list_find_None in Hfind.
      assert (∀ g, g ∈ values → savedId g ≠ Some sid) as Hall
        by (intros g Hg; by apply (proj1 (Forall_forall _ _) Hfind)).
      set (isOther := match session with
                      | Some s => bool_decide (fg_author_id data ≠ session_user_id s)
                      | None => false
                      end).
      set (isOwner := match session with
                      | Some s => bool_decide (fg_author_id data = session_user_id s)
                      | None => false
                      end).
      set (tail := [ISetStatus "Setting up game..."; ILoadRemoteGame (fg_data data) data false;
                    ISelectGame (game_id (game (fg_data data))); INavigate "/games";
                    INotify (if isOwner then "Your game loaded" else "Joined shared game")
                      (if isOwner
                       then "Game " +:+ dquote +:+ game_name (game (fg_data data))
                            +:+ dquote +:+ " has been loaded"
                       else "You now have access to " +:+ dquote
                            +:+ game_name (game (fg_data data)) +:+ dquote
                            +:+ ". Changes will sync automatically.") "green"]).
      assert (navigations tail = ["/games"]) as Hnt by reflexivity.
      assert (∀ a b, IRpcJoinGame a b ∉ tail) as Hjt by (subst tail; not_in_effects).
      assert (∀ sg row, ILoadRemoteGame sg row true ∉ tail) as Hlt.
      { intros sg row. subst tail. rewrite !elem_of_cons, elem_of_nil.
        intuition discriminate. }
      assert (ILoadRemoteGame (fg_data data) data false ∈ tail) as Hload
        by (subst tail; right; left).
      split; [|split; [|split]].
      * exists "/games". rewrite !navigations_app, Hnt.
        split; [by destruct isOther|]. split; [by left|]. split; [|done].
        intros _. exists (fg_data data), data, false. rewrite !elem_of_app. by right; right.
      * split; [done|]. intros _. exists sid, tok. apply elem_of_app. left. right. left.
      * split.
        -- intros (a & b & H). split; [done|]. exists data.
           revert H. rewrite !elem_of_app, !elem_of_cons, elem_of_nil.
           intros [H|[H|H]]; [exfalso; intuition discriminate | | by apply Hjt in H].
           subst isOther. destruct session as [s|]; [|by apply elem_of_nil in H].
           exists s. case_bool_decide as Hne; [done|]. by apply elem_of_nil in H.
        -- intros (_ & row & s & [= <-] & -> & Hne & _).
           exists sid, tok. rewrite !elem_of_app. right. left. subst isOther.
           rewrite bool_decide_eq_true_2 by done. right. left.
      * intros sg row. rewrite !elem_of_app, !elem_of_cons, elem_of_nil.
        intros [H|[H|H]]; [exfalso; intuition discriminate | | by apply Hlt in H].
        destruct isOther; [|by apply elem_of_nil in H].
        revert H. rewrite !elem_of_cons, elem_of_nil. intuition discriminate.
  - destruct (Hfailed "Game not found or invalid share token") as (H1 & H2 & H3 & H4).
    split; [exact H1|]. split; [exact H2|]. split.
    + split; [intros (a & b & H); by apply H3 in H|]. by intros (_ & row & s & [=] & _).
    + intros sg row H. by apply H4 in H.
Qed.

Lemma loadSharedGame_outcomes_witness :
  ∃ a b, IRpcJoinGame a b
         ∈ loadSharedGame (Some "rZ") (Some "tok") (Some Scenario.me)
             [Scenario.gameA; Scenario.gameB]
             (FetchData (Some (mkFetched "rZ" "owner" Scenario.remoteData))).
Proof.
  destruct (loadSharedGame_outcomes (Some "rZ") (Some "tok") (Some Scenario.me)
              [Scenario.gameA; Scenario.gameB]
              (FetchData (Some (mkFetched "rZ" "owner" Scenario.remoteData))))
    as (_ & _ & H & _).
  apply H. split; [reflexivity|].
  exists (mkFetched "rZ" "owner" Scenario.remoteData), Scenario.me.
  split; [reflexivity|]. split; [reflexivity|]. split; [discriminate|].
  intros g. rewrite !elem_of_cons, elem_of_nil.
  intros [->|[->|[]]]; discriminate.
Defined.

(** ** 001_initial_schema.sql *)

Import Sql.

Section SqlFacts.

Lemma id_and_share_token_true (gid token : option string) (r : GamesRow) :
  id_and_share_token gid token r = true
  ↔ gid = Some (g_id r) ∧ token ≠ None ∧ g_share_token r = token.
Proof.
  unfold id_and_share_token, sql_eq, sql_and, holds.
  destruct gid as [g|], token as [t|], (g_share_token r) as [t'|];
    repeat case_bool_decide; split; try done; try (intros (? & ? & ?); congruence).
  intros _. by subst.
Qed.

Lemma share_token_matches_game_id_true (db : Db) (token gid : option string) :
  share_token_matches_game_id db token gid = true
  ↔ ∃ r, r ∈ games db ∧ id_and_share_token gid token r = true.
Proof.
  unfold share_token_matches_game_id. rewrite existsb_exists.
  by setoid_rewrite list_elem_of_In.
Qed.

Lemma null_never_matches (db : Db) (token gid : option string) :
  token = None ∨ gid = None → share_token_matches_game_id db token gid = false.
Proof.
  intros H. apply not_true_is_false. rewrite share_token_matches_game_id_true.
  intros (r & _ & (? & ? & ?)%id_and_share_token_true). by destruct H; subst.
Qed.

Lemma conflict_true (gid u : string) (l : list SharedGamesRow) :
  existsb (λ s, bool_decide (sg_game_id s = gid ∧ sg_user_id s = u)) l = true
  ↔ ∃ s, s ∈ l ∧ sg_game_id s = gid ∧ sg_user_id s = u.
Proof.
  rewrite existsb_exists. setoid_rewrite <- list_elem_of_In.
  by setoid_rewrite bool_decide_eq_true.
Qed.

Lemma shared_game_true (db : Db) (u : string) (r : GamesRow) :
  holds (shared_game db (Some u) r) = true
  ↔ ∃ s, s ∈ shared_games db ∧ sg_game_id s = g_id r ∧ sg_user_id s = u.
Proof.
  unfold shared_game, holds. case_bool_decide as H.
  - split; [|done]. intros _.
    apply list_elem_of_fmap in H as (s & -> & Hs).
    apply list_elem_of_filter in Hs as [Hh Hs]. exists s. split; [done|]. split; [done|].
    unfold sql_eq, holds in Hh. by case_bool_decide.
  - split; [done|]. intros (s & Hs & Hg & Hu). destruct H.
    apply list_elem_of_fmap. exists s. split; [done|].
    apply list_elem_of_filter. split; [|done].
    unfold sql_eq, holds. by rewrite bool_decide_eq_true_2.
Qed.

Lemma using_passes_authenticated (db : Db) (u : string) (cmd : Command) (r : GamesRow) :
  using_passes db authenticated (Some u) cmd r
  = bool_decide (g_author_id r = u)
    || (bool_decide (cmd = SELECT ∨ cmd = UPDATE) && holds (shared_game db (Some u) r)).
Proof.
  unfold using_passes, games_policies, applies. cbn [existsb to_role for_command pol_using].
  unfold own_game, sql_eq. cbn [holds].
  generalize (holds (shared_game db (Some u) r)) as shared.
  generalize (bool_decide (g_author_id r = u)) as own.
  by intros [] [|]; destruct cmd.
Qed.

End SqlFacts.

(** X28.  Joining by share link.  A wrong token, a NULL token or a NULL
    game id returns FALSE and changes nothing, also for a game whose own
    token is NULL.  A call that returns TRUE leaves [games] and [profiles]
    alone, leaves the caller a collaborator of that game, adds at most that
    one row, keeps (game_id, user_id) unique, and repeated returns TRUE
    again without touching [shared_games].  With a matching token but
    nobody signed in the call raises. *)
Theorem join_game_by_share_token_outcomes (now : Z) (db : Db)
    (uid game_uuid token : option string) :
  let result := join_game_by_share_token now db uid game_uuid token in
  (share_token_matches_game_id db token game_uuid = false → result = Returned false db)
  ∧ (token = None ∨ game_uuid = None → result = Returned false db)
  ∧ (share_token_matches_game_id db token game_uuid = true → uid = None →
     ∃ constraint, result = Raised constraint)
  ∧ (∀ db', result = Returned true db' →
       share_token_matches_game_id db token game_uuid = true
       ∧ games db' = games db ∧ profiles db' = profiles db
       ∧ (∃ gid u, game_uuid = Some gid ∧ uid = Some u
            ∧ (∃ s, s ∈ shared_games db' ∧ sg_game_id s = gid ∧ sg_user_id s = u)
            ∧ (∀ s, s ∈ shared_games db' →
                 s ∈ shared_games db ∨ (sg_game_id s = gid ∧ sg_user_id s = u)))
       ∧ (unique_game_user (shared_games db) → unique_game_user (shared_games db'))
       ∧ (∀ later, ∃ db'',
            join_game_by_share_token later db' uid game_uuid token = Returned true db''
            ∧ shared_games db'' = shared_games db')).
Proof.
  intros result. subst result. unfold join_game_by_share_token.
  fold (share_token_matches_game_id db token game_uuid).
  split; [by intros ->|]. split; [by intros ->%(null_never_matches db)|].
  split.
  { intros -> ->. cbn [negb]. destruct game_uuid; by eexists. }
  intros db'. destruct (share_token_matches_game_id db token game_uuid) eqn:Hm;
    cbn [negb]; [|done].
  destruct game_uuid as [gid|]; [|done]. destruct uid as [u|]; [|done].
  intros Hres. split; [done|]. revert Hres.
  destruct (existsb _ (shared_games db)) eqn:Hc.
  - intros [= <-]. cbn [games profiles shared_games].
    apply conflict_true in Hc as (s & Hs & Hg & Hu).
    split; [done|]. split; [done|]. split.
    { exists gid, u. split; [done|]. split; [done|]. split; [by exists s|]. by left. }
    split; [done|]. intros later.
    unfold join_game_by_share_token. cbn [games profiles shared_games].
    fold (share_token_matches_game_id db token (Some gid)). rewrite Hm. cbn [negb].
    assert (existsb (λ s, bool_decide (sg_game_id s = gid ∧ sg_user_id s = u))
              (shared_games db) = true) as -> by (apply conflict_true; by exists s).
    by eexists.
  - case_bool_decide as Hpk; [done|]. case_bool_decide as Hfg; cbn [negb]; [|done].
    case_bool_decide as Hfu; cbn [negb]; [|done].
    intros [= <-]. cbn [games profiles shared_games].
    set (row := mkSharedGamesRow (shared_games_id_seq db) gid u (Some now)).
    split; [done|]. split; [done|]. split; [|split].
    + exists gid, u. split; [done|]. split; [done|]. split.
      * exists row. split; [|done]. apply elem_of_app. right. by left.
      * intros s [Hs|Hs%list_elem_of_singleton]%elem_of_app; [by left|]. right. by subst.
    + unfold unique_game_user. rewrite fmap_app. intros Hu.
      apply NoDup_app. split; [done|]. split; [|apply NoDup_singleton].
      intros [g' u'] (s & [= -> ->] & Hs)%list_elem_of_fmap Heq%list_elem_of_singleton.
      injection Heq as Hg' Hu'.
      apply not_true_iff_false in Hc. apply Hc, conflict_true. by exists s.
    + intros later. unfold join_game_by_share_token. cbn [games profiles shared_games].
      fold (share_token_matches_game_id db token (Some gid)). rewrite Hm. cbn [negb].
      assert (existsb (λ s, bool_decide (sg_game_id s = gid ∧ sg_user_id s = u))
                (shared_games db ++ [row]) = true) as ->.
      { apply conflict_true. exists row. split; [|done]. apply elem_of_app. right. by left. }
      by eexists.
Qed.

Lemma join_game_by_share_token_outcomes_witness :
  ∃ db', join_game_by_share_token 50 Example.db0 (Some "visitor") (Some "g1") (Some "tok")
         = Returned true db'
         ∧ games db' = games Example.db0
         ∧ join_game_by_share_token 60 db' (Some "visitor") (Some "g1") (Some "tok")
           = Returned true
               (mkDb (profiles db') (games db') (shared_games db')
                  (shared_games_id_seq db' + 1)).
Proof.
  eexists. split; [reflexivity|].
  destruct (join_game_by_share_token_outcomes 50 Example.db0 (Some "visitor") (Some "g1")
              (Some "tok")) as (_ & _ & _ & H).
  destruct (H _ eq_refl) as (_ & Hg & _). split; [exact Hg|]. reflexivity.
Defined.

(** X29.  Fetching by share link.  With [games.id] a primary key the call
    returns at most one row; it returns none exactly when
    [share_token_matches_game_id] is FALSE; and a returned row is a row of
    [games] with the asked id whose token is not NULL and equals the given
    one. *)
Theorem get_game_by_share_token_single (db : Db) (game_uuid token : option string) :
  NoDup (g_id <$> games db) →
  (length (get_game_by_share_token db game_uuid token) ≤ 1)%nat
  ∧ (get_game_by_share_token db game_uuid token = []
     ↔ share_token_matches_game_id db token game_uuid = false)
  ∧ (∀ r, r ∈ get_game_by_share_token db game_uuid token →
       r ∈ games db ∧ game_uuid = Some (g_id r) ∧ token ≠ None ∧ g_share_token r = token).
Proof.
  intros Hpk.
  assert (∀ r, r ∈ get_game_by_share_token db game_uuid token
               ↔ r ∈ games db ∧ id_and_share_token game_uuid token r = true) as Hin.
  { intros r. unfold get_game_by_share_token. rewrite list_elem_of_filter.
    rewrite Is_true_true. tauto. }
  split; [|split].
  - assert (NoDup (g_id <$> get_game_by_share_token db game_uuid token)) as Hnd.
    { eapply sublist_NoDup; [exact Hpk|]. apply fmap_sublist, sublist_filter. }
    destruct (get_game_by_share_token db game_uuid token) as [|a [|b l]] eqn:Hl;
      [cbn; lia | cbn; lia | exfalso].
    assert (id_and_share_token game_uuid token a = true) as Ha
      by (apply Hin; left).
    assert (id_and_share_token game_uuid token b = true) as Hb
      by (apply Hin; right; left).
    apply id_and_share_token_true in Ha as (Ha & _), Hb as (Hb & _).
    rewrite Ha in Hb. injection Hb as Hab.
    rewrite !fmap_cons in Hnd. apply NoDup_cons in Hnd as [Hnd _].
    apply Hnd. rewrite Hab. left.
  - split.
    + intros Hnil. apply not_true_is_false.
      intros (r & Hr)%share_token_matches_game_id_true.
      apply Hin in Hr. rewrite Hnil in Hr. by apply elem_of_nil in Hr.
    + intros Hf. destruct (get_game_by_share_token db game_uuid token) as [|a l] eqn:Hl;
        [done|].
      assert (a ∈ a :: l) as Ha%Hin by left.
      assert (share_token_matches_game_id db token game_uuid = true)
        by (apply share_token_matches_game_id_true; by exists a).
      congruence.
  - intros r [Hr Hm]%Hin. by apply id_and_share_token_true in Hm.
Qed.

Lemma get_game_by_share_token_single_witness :
  get_game_by_share_token Example.db0 (Some "g1") (Some "tok") = [Example.linked]
  ∧ (length (get_game_by_share_token Example.db0 (Some "g2") None) ≤ 1)%nat.
Proof.
  split; [reflexivity|].
  apply (get_game_by_share_token_single Example.db0 (Some "g2") None).
  vm_compute. repeat constructor; rewrite ?elem_of_cons, ?elem_of_nil; intuition discriminate.
Defined.

(** X30.  What joining unlocks.  A signed-in user with a profile who is
    neither the author nor a collaborator of a game passes no policy of
    [games] for that row, yet the share link returns it.  Joining with the
    link succeeds, and afterwards the row passes the SELECT and UPDATE
    policies but not DELETE; an updated row is accepted whatever its
    columns as long as its id stays; other games are as reachable as
    before. *)
Theorem join_unlocks_read_and_update (now : Z) (db : Db) (r : GamesRow) (u tok : string) :
  r ∈ games db →
  g_share_token r = Some tok →
  g_author_id r ≠ u →
  u ∈ p_id <$> profiles db →
  (∀ s, s ∈ shared_games db →
     sg_id s ≠ shared_games_id_seq db ∧ ¬ (sg_game_id s = g_id r ∧ sg_user_id s = u)) →
  (∀ cmd, using_passes db authenticated (Some u) cmd r = false)
  ∧ r ∈ get_game_by_share_token db (Some (g_id r)) (Some tok)
  ∧ ∃ db',
      join_game_by_share_token now db (Some u) (Some (g_id r)) (Some tok) = Returned true db'
      ∧ using_passes db' authenticated (Some u) SELECT r = true
      ∧ using_passes db' authenticated (Some u) UPDATE r = true
      ∧ using_passes db' authenticated (Some u) DELETE r = false
      ∧ (∀ r', g_id r' = g_id r → check_passes db' authenticated (Some u) UPDATE r' = true)
      ∧ (∀ cmd r2, g_id r2 ≠ g_id r →
           using_passes db' authenticated (Some u) cmd r2
           = using_passes db authenticated (Some u) cmd r2).
Proof.
  intros Hr Htok Hauthor Hprofile Hfresh.
  assert (id_and_share_token (Some (g_id r)) (Some tok) r = true) as Hm
    by (by apply id_and_share_token_true).
  assert (holds (shared_game db (Some u) r) = false) as Hns.
  { apply not_true_is_false. intros (s & Hs & Hg)%shared_game_true.
    by destruct (Hfresh s Hs) as [_ []]. }
  split; [|split].
  - intros cmd. rewrite using_passes_authenticated, Hns, andb_false_r, orb_false_r.
    by apply bool_decide_eq_false_2.
  - unfold get_game_by_share_token. apply list_elem_of_filter. by rewrite Is_true_true.
  - unfold join_game_by_share_token.
    fold (share_token_matches_game_id db (Some tok) (Some (g_id r))).
    assert (share_token_matches_game_id db (Some tok) (Some (g_id r)) = true) as ->
      by (apply share_token_matches_game_id_true; by exists r).
    cbn [negb].
    assert (existsb (λ s, bool_decide (sg_game_id s = g_id r ∧ sg_user_id s = u))
              (shared_games db) = false) as ->.
    { apply not_true_is_false. intros (s & Hs & Hg)%conflict_true.
      by destruct (Hfresh s Hs) as [_ []]. }
    rewrite bool_decide_eq_false_2.
    2:{ intros (s & Heq & Hs)%list_elem_of_fmap. by destruct (Hfresh s Hs) as [[] _]. }
    rewrite (bool_decide_eq_true_2 (g_id r ∈ g_id <$> games db))
      by (apply list_elem_of_fmap; by exists r).
    rewrite (bool_decide_eq_true_2 (u ∈ p_id <$> profiles db)) by done.
    cbn [negb]. eexists. split; [reflexivity|].
    set (row := mkSharedGamesRow (shared_games_id_seq db) (g_id r) u (Some now)).
    set (db' := mkDb _ _ _ _).
    assert (∀ r', g_id r' = g_id r → holds (shared_game db' (Some u) r') = true) as Hshared.
    { intros r' Hid. apply shared_game_true. exists row. split; [|by rewrite Hid].
      apply elem_of_app. right. by left. }
    rewrite !using_passes_authenticated, (Hshared r eq_refl).
    rewrite (bool_decide_eq_false_2 (g_author_id r = u)) by done.
    split; [done|]. split; [done|]. split; [done|]. split.
    + intros r' Hid. unfold check_passes, games_policies, applies.
      cbn [existsb to_role for_command pol_using pol_with_check default].
      rewrite (Hshared r' Hid). rewrite !bool_decide_eq_true_2 by done.
      cbn. by rewrite orb_true_r.
    + intros cmd r2 Hne. rewrite !using_passes_authenticated. f_equal. f_equal.
      apply eq_true_iff_eq. rewrite !shared_game_true. subst db'. cbn [shared_games].
      split.
      * intros (s & [Hs|Hs%list_elem_of_singleton]%elem_of_app & Hg & Hu);
          [by exists s | subst s; by destruct Hne].
      * intros (s & Hs & Hg). exists s. split; [|done]. apply elem_of_app. by left.
Qed.

Lemma join_unlocks_read_and_update_witness :
  ∃ db',
    join_game_by_share_token 50 Example.db0 (Some "visitor") (Some "g1") (Some "tok")
    = Returned true db'
    ∧ using_passes db' authenticated (Some "visitor") UPDATE Example.linked = true
    ∧ using_passes db' authenticated (Some "visitor") DELETE Example.linked = false.
Proof.
  destruct (join_unlocks_read_and_update 50 Example.db0 Example.linked "visitor" "tok")
    as (_ & _ & db' & Hj & _ & Hu & Hd & _).
  - left.
  - reflexivity.
  - discriminate.
  - right. left.
  - intros s Hs. by apply elem_of_nil in Hs.
  - exists db'. by split.
Defined.
